(** * A boundary-tag allocator with an explicit free list (mm.c)

    Shallow embedding of [src/mm.c] and proofs about it.

    Conventions of the embedding (LP64, as the source assumes through
    [PAGE_PAD 8] and the terminator pattern [0x9]):
    - [size_t] values are integers taken modulo 2^64, [int] values are
      taken modulo 2^32 and read as signed;
    - memory is a finite map from word addresses to 64-bit words, and
      only words inside a live mapping of the pager can be read or
      written: every other access is a fault;
    - the globals of mm.c are the fields of [state];
    - the pager ([mem_map], [mem_unmap], [mem_pagesize], declared in
      memlib.h) is outside the repository: [mem_map] is an argument of
      the functions that call it, [mem_unmap] is modelled from its
      contract. *)

From stdpp Require Import base gmap list.
From Stdlib Require Import ZArith Lia.

Open Scope Z_scope.

(** ** Machine arithmetic *)

Definition wrap64 (x : Z) : Z := x mod 2 ^ 64.

(** Conversion to [int]: reduction modulo 2^32, read as signed. *)
Definition to_int (x : Z) : Z := (x + 2 ^ 31) mod 2 ^ 32 - 2 ^ 31.

Definition SIZE_MAX : Z := 2 ^ 64 - 1.

(** ** Constants of mm.c *)

Definition ALIGNMENT : Z := 16.
Definition OVERHEAD : Z := 8 + 8.
Definition MIN_BLOCK_SIZE : Z := OVERHEAD + ALIGNMENT.
Definition PAGE_PAD : Z := 8.
Definition PAGE_OVERHEAD : Z := PAGE_PAD + OVERHEAD + 8.
Definition MAX_PAGE_PER_MAP : Z := 32.

(** [ALIGN(size)]: [size] is a [size_t]; the mask [~(ALIGNMENT-1)] is an
    [int] converted to [size_t]. *)
Definition ALIGN (size : Z) : Z :=
  Z.land (wrap64 (size + (ALIGNMENT - 1))) (wrap64 (Z.lnot (ALIGNMENT - 1))).

(** [PAGE_ALIGN(size)], with the global [pagesize] as an argument. *)
Definition PAGE_ALIGN (pagesize size : Z) : Z :=
  Z.land (wrap64 (size + wrap64 (pagesize - 1))) (wrap64 (Z.lnot (pagesize - 1))).

Definition PACK (size alloc : Z) : Z := Z.lor size alloc.

(** ** State, results and the monad of the code *)

Record state := mkState {
  mem : gmap Z Z;            (* contents of memory, one entry per written word *)
  mapped : list (Z * Z);     (* live mappings of the pager: (base, bytes) *)
  free_list : Z;             (* head of the free list, 0 is NULL *)
  num_page_chunks : Z;
  map_multiplier : Z;
  pagesize : Z;
  recent_page : Z
}.

Inductive result (A : Type) : Type :=
| Ok (a : A)
| Fault       (* access outside every live mapping, or a broken pager contract *)
| NoFuel.     (* the bound on loop iterations was reached *)
Arguments Ok {A} a.
Arguments Fault {A}.
Arguments NoFuel {A}.

Definition M (A : Type) : Type := state → result (A * state).

Definition ret {A} (a : A) : M A := λ s, Ok (a, s).

Definition bind {A B} (c : M A) (k : A → M B) : M B :=
  λ s, match c s with
       | Ok (a, s') => k a s'
       | Fault => Fault
       | NoFuel => NoFuel
       end.

#[global] Instance M_ret : MRet M := @ret.
#[global] Instance M_bind : MBind M := λ A B k c, bind c k.

Definition fault {A} : M A := λ _, Fault.
Definition no_fuel {A} : M A := λ _, NoFuel.
Definition gets {A} (f : state → A) : M A := λ s, Ok (f s, s).
Definition modify (f : state → state) : M unit := λ s, Ok (tt, f s).

Definition set_mem (f : gmap Z Z → gmap Z Z) (s : state) : state :=
  mkState (f (mem s)) (mapped s) (free_list s) (num_page_chunks s)
          (map_multiplier s) (pagesize s) (recent_page s).
Definition set_mapped (l : list (Z * Z)) (s : state) : state :=
  mkState (mem s) l (free_list s) (num_page_chunks s)
          (map_multiplier s) (pagesize s) (recent_page s).
Definition set_free_list (p : Z) (s : state) : state :=
  mkState (mem s) (mapped s) p (num_page_chunks s)
          (map_multiplier s) (pagesize s) (recent_page s).
Definition set_num_page_chunks (n : Z) (s : state) : state :=
  mkState (mem s) (mapped s) (free_list s) n
          (map_multiplier s) (pagesize s) (recent_page s).
Definition set_map_multiplier (n : Z) (s : state) : state :=
  mkState (mem s) (mapped s) (free_list s) (num_page_chunks s)
          n (pagesize s) (recent_page s).
Definition set_recent_page (p : Z) (s : state) : state :=
  mkState (mem s) (mapped s) (free_list s) (num_page_chunks s)
          (map_multiplier s) (pagesize s) p.

(** ** Memory accesses *)

(** A word at [p] can be accessed when [p] is word-aligned and the eight
    bytes lie inside one live mapping. *)
Definition in_region (p : Z) (r : Z * Z) : bool :=
  (r.1 <=? p) && (p + 8 <=? r.1 + r.2).

Definition accessible (regions : list (Z * Z)) (p : Z) : bool :=
  (p mod 8 =? 0) && existsb (in_region p) regions.

(** Contents of the word at [p]; a word never written reads as 0. *)
Definition rd (m : gmap Z Z) (p : Z) : Z := default 0 (m !! p).

(** [GET(p)] *)
Definition GET (p : Z) : M Z :=
  λ s, if accessible (mapped s) p then Ok (rd (mem s) p, s) else Fault.

(** [PUT(p, val)] *)
Definition PUT (p val : Z) : M unit :=
  λ s, if accessible (mapped s) p then Ok (tt, set_mem (insert p val) s) else Fault.

Definition GET_ALLOC (p : Z) : M Z := v ← GET p; mret (Z.land v 1).
Definition GET_SIZE (p : Z) : M Z := v ← GET p; mret (Z.land v (wrap64 (Z.lnot 15))).

Definition HDRP (bp : Z) : Z := bp - 8.
Definition FTRP (bp : Z) : M Z := sz ← GET_SIZE (HDRP bp); mret (bp + sz - OVERHEAD).
Definition NEXT_BLKP (bp : Z) : M Z := sz ← GET_SIZE (HDRP bp); mret (bp + sz).
Definition PREV_BLKP (bp : Z) : M Z := sz ← GET_SIZE (bp - OVERHEAD); mret (bp - sz).

(** The fields of a [free_node] at address [node]: [next] at offset 0,
    [prev] at offset 8. *)
Definition next_field (node : Z) : Z := node.
Definition prev_field (node : Z) : Z := node + 8.

(** ** The pager *)

(** Modelled from the spec: [mem_unmap] of memlib is not in the
    repository.  Its contract (spec, section 6) asks for the exact base
    and size of a live mapping; the model removes that mapping and
    treats any other call as a fault. *)
Definition mem_unmap (base n : Z) : M unit :=
  λ s, if bool_decide ((base, n) ∈ mapped s)
       then Ok (tt, set_mapped (filter (λ r, r ≠ (base, n)) (mapped s)) s)
       else Fault.

(** ** The functions of mm.c *)

Definition mm_init (ps : Z) (s : state) : state :=
  mkState (mem s) (mapped s) 0 0 1 ps (recent_page s).

Definition add_free (ptr : Z) : M unit :=
  PUT (prev_field ptr) 0;;
  PUT (next_field ptr) 0;;
  fl ← gets free_list;
  if fl =? 0 then modify (set_free_list ptr)
  else
    PUT (next_field ptr) fl;;
    PUT (prev_field fl) ptr;;
    modify (set_free_list ptr).

Definition del_free (ptr : Z) : M unit :=
  prev ← GET (prev_field ptr);
  (if prev =? 0 then mret tt
   else prev' ← GET (prev_field ptr);
        nxt ← GET (next_field ptr);
        PUT (next_field prev') nxt);;
  nxt ← GET (next_field ptr);
  (if nxt =? 0 then mret tt
   else nxt' ← GET (next_field ptr);
        prev' ← GET (prev_field ptr);
        PUT (prev_field nxt') prev');;
  fl ← gets free_list;
  if ptr =? fl then
    n ← GET (next_field fl);
    modify (set_free_list n)
  else mret tt.

Definition allocate (bp size : Z) : M unit :=
  cursize ← GET_SIZE (HDRP bp);
  let remainder := wrap64 (cursize - size) in
  (if MIN_BLOCK_SIZE <=? remainder then
     PUT (HDRP bp) size;;
     f ← FTRP bp;
     PUT f size;;
     next ← NEXT_BLKP bp;
     PUT (HDRP next) (PACK remainder 0);;
     f' ← FTRP next;
     PUT f' (PACK remainder 0);;
     add_free next
   else mret tt);;
  cursize' ← GET_SIZE (HDRP bp);
  PUT (HDRP bp) (PACK cursize' 1);;
  f ← FTRP bp;
  PUT f (PACK cursize' 1);;
  del_free bp.

(** The loop of [find_free_block], started at node [n]; [fuel] bounds
    the number of nodes visited. *)
Fixpoint find_free_block_from (fuel : nat) (n reqsize : Z) : M Z :=
  if n =? 0 then mret 0
  else match fuel with
       | O => no_fuel
       | S fuel' =>
           sz ← GET_SIZE (HDRP n);
           if reqsize <=? sz then allocate n reqsize;; mret n
           else nxt ← GET (next_field n);
                find_free_block_from fuel' nxt reqsize
       end.

Definition find_free_block (fuel : nat) (reqsize : Z) : M Z :=
  n ← gets free_list;
  find_free_block_from fuel n reqsize.

(** The size in bytes that [extend] passes to [mem_map]. *)
Definition extend_request (size : Z) (s : state) : Z :=
  let reqsize := to_int (PAGE_ALIGN (pagesize s) (wrap64 (size + PAGE_OVERHEAD))) in
  let newsize := to_int (map_multiplier s * pagesize s) in
  if newsize <? reqsize then reqsize else newsize.

Definition extend (mem_map : Z → Z) (size : Z) : M Z :=
  newsize ← gets (extend_request size);
  mult ← gets map_multiplier;
  (if mult <? MAX_PAGE_PER_MAP
   then modify (set_map_multiplier (to_int (mult * 2)))
   else mret tt);;
  let newmap := mem_map (wrap64 newsize) in
  if newmap =? 0 then mret 0
  else
    modify (λ s, set_mapped ((newmap, wrap64 newsize) :: mapped s) s);;
    modify (set_recent_page newmap);;
    modify (λ s, set_num_page_chunks (to_int (num_page_chunks s + 1)) s);;
    let sentinel := newmap + PAGE_PAD in
    let terminator := newmap + newsize - 8 in
    let bp := sentinel + OVERHEAD + 8 in
    PUT sentinel (PACK OVERHEAD 1);;
    PUT (sentinel + 8) (PACK OVERHEAD 1);;
    PUT terminator (PACK 8 1);;
    let block_size := to_int (wrap64 (wrap64 newsize - PAGE_OVERHEAD)) in
    PUT (HDRP bp) (wrap64 (PACK block_size 0));;
    f ← FTRP bp;
    PUT f (wrap64 (PACK block_size 0));;
    add_free bp;;
    mret bp.

(** The block size [mm_malloc] computes for a request, an [int]. *)
Definition request_size (size : Z) : Z := to_int (ALIGN (wrap64 (size + OVERHEAD))).

Definition mm_malloc (fuel : nat) (mem_map : Z → Z) (size : Z) : M Z :=
  let newsize := request_size size in
  p ← find_free_block fuel (wrap64 newsize);
  if p =? 0 then
    p' ← extend mem_map (wrap64 newsize);
    if p' =? 0 then mret 0
    else find_free_block fuel (wrap64 newsize)
  else mret p.

Definition coalesce (ptr : Z) : M Z :=
  lbp ← PREV_BLKP ptr;
  rbp ← NEXT_BLKP ptr;
  la ← GET_ALLOC (HDRP lbp);
  ra ← GET_ALLOC (HDRP rbp);
  let lfree := la =? 0 in
  let rfree := ra =? 0 in
  cursize ← GET_SIZE (HDRP ptr);
  lsize ← GET_SIZE (HDRP lbp);
  rsize ← GET_SIZE (HDRP rbp);
  if negb lfree && negb rfree then
    add_free ptr;; mret ptr
  else if lfree && negb rfree then
    PUT (HDRP lbp) (PACK (wrap64 (lsize + cursize)) 0);;
    f ← FTRP lbp;
    PUT f (PACK (wrap64 (lsize + cursize)) 0);;
    mret lbp
  else if negb lfree && rfree then
    PUT (HDRP ptr) (PACK (wrap64 (cursize + rsize)) 0);;
    f ← FTRP ptr;
    PUT f (PACK (wrap64 (cursize + rsize)) 0);;
    del_free rbp;;
    add_free ptr;;
    mret ptr
  else if lfree && rfree then
    PUT (HDRP lbp) (PACK (wrap64 (wrap64 (lsize + cursize) + rsize)) 0);;
    f ← FTRP lbp;
    PUT f (PACK (wrap64 (wrap64 (lsize + cursize) + rsize)) 0);;
    del_free rbp;;
    mret lbp
  else mret 0.

Definition try_unmap (bp : Z) : M unit :=
  prev ← PREV_BLKP bp;
  next ← NEXT_BLKP bp;
  psz ← GET_SIZE (HDRP prev);
  c ← (if psz =? OVERHEAD then nh ← GET (HDRP next); mret (nh =? 9)
       else mret false);
  if c : bool then
    sz ← GET_SIZE (HDRP bp);
    let chunk_size := wrap64 (sz + PAGE_OVERHEAD) in
    let base := prev - (8 + PAGE_PAD) in
    del_free bp;;
    mem_unmap base chunk_size;;
    modify (λ s, set_num_page_chunks (to_int (num_page_chunks s - 1)) s)
  else mret tt.

Definition mm_free (ptr : Z) : M unit :=
  cursize ← GET_SIZE (HDRP ptr);
  PUT (HDRP ptr) (PACK cursize 0);;
  f ← FTRP ptr;
  PUT f (PACK cursize 0);;
  leftmost ← coalesce ptr;
  n ← gets num_page_chunks;
  if 1 <? n then try_unmap leftmost else mret tt.

(** ** Diagnostics

    [print_page] writes a page chunk block by block.  What it prints is
    returned as a list of lines: the memory reads are the code's, the
    text of a line is reduced to the values printed. *)

Inductive line :=
  | Lpage (p : Z)
  | Lsentinel
  | Lblocks
  | Lterminator
  | Lblock (p : Z)
  | Lheader (w sz al : Z)
  | Lfooter (w sz al : Z).

(** The line for the header of the block at [p]. *)
Definition print_header (p : Z) : M line :=
  w ← GET (HDRP p);
  sz ← GET_SIZE (HDRP p);
  al ← GET_ALLOC (HDRP p);
  mret (Lheader w sz al).

(** The line for the footer: [FTRP(p)] is evaluated for each value. *)
Definition print_footer (p : Z) : M line :=
  f ← FTRP p;
  w ← GET f;
  f' ← FTRP p;
  sz ← GET_SIZE f';
  f'' ← FTRP p;
  al ← GET_ALLOC f'';
  mret (Lfooter w sz al).

(** The [do ... while] loop of [print_page], started at block [p]: the
    lines printed and the block the loop stops at. *)
Fixpoint print_blocks (fuel : nat) (p : Z) : M (list line * Z) :=
  match fuel with
  | O => no_fuel
  | S fuel' =>
      h ← print_header p;
      f ← print_footer p;
      p' ← NEXT_BLKP p;
      sz ← GET_SIZE (HDRP p');
      if 8 <? sz
      then r ← print_blocks fuel' p'; mret (Lblock p :: h :: f :: r.1, r.2)
      else mret ([Lblock p; h; f], p')
  end.

Definition print_page (fuel : nat) (page : Z) : M (list line) :=
  let p := page + OVERHEAD in
  h ← print_header p;
  f ← print_footer p;
  p1 ← NEXT_BLKP p;
  r ← print_blocks fuel p1;
  t ← print_header r.2;
  mret ([Lpage page; Lsentinel; h; f; Lblocks] ++ r.1 ++ [Lterminator; t]).

(** ** Running the code on concrete inputs *)

Definition empty_state : state := mkState ∅ [] 0 0 0 0 0.

(** A pager that grants every request of at most [limit] bytes at [base]. *)
Definition pager_at (base limit : Z) : Z → Z :=
  λ n : Z, if (0 <? n) && (n <=? limit) then base else 0.

(** A pager that places a request of [j] pages of 4096 bytes at address
    [65536 * j], so that requests of different sizes get disjoint
    mappings, and refuses requests above 2^40 bytes. *)
Definition pager_by_size : Z → Z :=
  λ n : Z, if (0 <? n) && (n <=? 2 ^ 40) then 65536 * (n / 4096) else 0.

(** The state a computation ends in ([s] itself when it does not end). *)
Definition exec {A : Type} (c : M A) (s : state) : state :=
  match c s with
  | Ok (_, s') => s'
  | _ => s
  end.

(** The state after [mm_init] with pages of 4096 bytes. *)
Definition st_init : state := mm_init 4096 empty_state.

(** The first two statements of [mm_free]: the allocated bit of both
    tags of the block is cleared. *)
Definition clear_tags (ptr : Z) : M unit :=
  cursize ← GET_SIZE (HDRP ptr);
  PUT (HDRP ptr) (PACK cursize 0);;
  f ← FTRP ptr;
  PUT f (PACK cursize 0).

(** Three blocks of 32 bytes are allocated at 65568, 65600 and 65632;
    the third and then the first are freed. *)
Definition st_three : state :=
  exec (mm_malloc 10 pager_by_size 16;; mm_malloc 10 pager_by_size 16;;
        mm_malloc 10 pager_by_size 16;; mm_free 65632;; mm_free 65568) st_init.

(** Two chunks: the first, of one page, is all free; the second, of two
    pages, holds an allocated block of 5024 bytes. *)
Definition st_two : state :=
  exec (mm_malloc 10 pager_by_size 16;; mm_free 65568;;
        mm_malloc 10 pager_by_size 5000) st_init.

(** From [st_two], a block of 3216 bytes is allocated in the first
    chunk, at 65568. *)
Definition st_two_b : state := exec (mm_malloc 10 pager_by_size 3200) st_two.

(** The nodes of the free list, read from memory by following [next]
    from node [n]. *)
Fixpoint free_nodes (fuel : nat) (m : gmap Z Z) (n : Z) : list Z :=
  match fuel with
  | O => []
  | S fuel' => if n =? 0 then [] else n :: free_nodes fuel' m (rd m (next_field n))
  end.


(** ** Heap descriptions

    A chunk is described by its base address and the sizes and allocated
    bits of its interior blocks, in address order.  The sentinel and the
    terminator frame them: the sentinel is a block of [OVERHEAD] bytes,
    the terminator a lone header of 8 bytes whose footer address, by the
    arithmetic of [FTRP], is the header itself. *)

Record chunk := mkChunk { c_base : Z; c_blocks : list (Z * bool) }.

(** A block placed at a payload address. *)
Record pblock := mkBlock { b_addr : Z; b_size : Z; b_alloc : bool }.

Definition total (l : list (Z * bool)) : Z := foldr (λ b n, b.1 + n) 0 l.

Fixpoint place (a : Z) (l : list (Z * bool)) : list pblock :=
  match l with
  | [] => []
  | b :: l' => mkBlock a b.1 b.2 :: place (a + b.1) l'
  end.

Definition sentinel : Z * bool := (OVERHEAD, true).
Definition terminator : Z * bool := (8, true).

Definition layout (c : chunk) : list (Z * bool) :=
  sentinel :: c_blocks c ++ [terminator].

(** All blocks of a chunk, the sentinel's payload being at [base + 16]. *)
Definition chunk_blocks (c : chunk) : list pblock :=
  place (c_base c + PAGE_PAD + 8) (layout c).

(** The interior blocks, the first payload being at [base + 32]. *)
Definition interior (c : chunk) : list pblock :=
  place (c_base c + PAGE_OVERHEAD) (c_blocks c).

Definition region (c : chunk) : Z * Z :=
  (c_base c, PAGE_OVERHEAD + total (c_blocks c)).

Definition all_blocks (H : list chunk) : list pblock := H ≫= chunk_blocks.

Definition interior_blocks (H : list chunk) : list pblock := H ≫= interior.

(** Payload addresses of the blocks of [l] whose allocated bit is [al]. *)
Definition addrs_of (al : bool) (l : list pblock) : list Z :=
  b_addr <$> filter (λ b, b_alloc b = al) l.

Definition free_addrs (H : list chunk) : list Z := addrs_of false (interior_blocks H).

Definition live_addrs (H : list chunk) : list Z := addrs_of true (interior_blocks H).

(** The header and footer word of a block. *)
Definition tag (sz : Z) (al : bool) : Z := PACK sz (Z.b2z al).

Definition tag_ok (m : gmap Z Z) (b : pblock) : Prop :=
  rd m (HDRP (b_addr b)) = tag (b_size b) (b_alloc b) ∧
  rd m (b_addr b + b_size b - OVERHEAD) = tag (b_size b) (b_alloc b).

(** A segment of the doubly linked list: the nodes of [l] in order, the
    first one's [prev] being [p] and the last one's [next] being [n]. *)
Fixpoint dseg (m : gmap Z Z) (p : Z) (l : list Z) (n : Z) : Prop :=
  match l with
  | [] => True
  | a :: l' =>
      a ≠ 0 ∧ rd m (prev_field a) = p ∧ rd m (next_field a) = hd n l' ∧ dseg m a l' n
  end.

Definition block_ok (b : Z * bool) : Prop :=
  MIN_BLOCK_SIZE ≤ b.1 ∧ b.1 mod ALIGNMENT = 0.

Definition chunk_wf (c : chunk) : Prop :=
  0 < c_base c ∧ c_base c mod ALIGNMENT = 0 ∧
  Forall block_ok (c_blocks c) ∧
  PAGE_OVERHEAD + total (c_blocks c) < 2 ^ 31.

Definition apart (r r' : Z * Z) : Prop := r.1 + r.2 ≤ r'.1 ∨ r'.1 + r'.2 ≤ r.1.

Fixpoint regions_disjoint (l : list (Z * Z)) : Prop :=
  match l with
  | [] => True
  | r :: l' => Forall (apart r) l' ∧ regions_disjoint l'
  end.

Fixpoint no_adjacent_free (l : list (Z * bool)) : Prop :=
  match l with
  | b :: l' =>
      match l' with
      | b' :: _ => (b.2 = true ∨ b'.2 = true) ∧ no_adjacent_free l'
      | [] => True
      end
  | [] => True
  end.

(** The state [s] holds the heap [H] with the free list [fl]: the
    mappings are the chunks, every block carries its two tags, the
    free-list nodes are linked in the order of [fl]. *)
Record heap_rep (s : state) (H : list chunk) (fl : list Z) : Prop := {
  rep_mapped : mapped s = region <$> H;
  rep_wf : Forall chunk_wf H;
  rep_disjoint : regions_disjoint (region <$> H);
  rep_tags : Forall (tag_ok (mem s)) (all_blocks H);
  rep_links : dseg (mem s) 0 fl 0;
  rep_head : free_list s = hd 0 fl;
  rep_count : num_page_chunks s = Z.of_nat (length H);
  rep_count_int : Z.of_nat (length H) < 2 ^ 31
}.

(** The invariant between two public calls. *)
Definition heap_inv (s : state) (H : list chunk) (fl : list Z) : Prop :=
  heap_rep s H fl ∧
  fl ≡ₚ free_addrs H ∧
  Forall (λ c, no_adjacent_free (c_blocks c)) H.


(** [y] is not a field of a node of [l]. *)
Definition off_nodes (l : list Z) (y : Z) : Prop :=
  ∀ a, a ∈ l → y ≠ next_field a ∧ y ≠ prev_field a.

(** The nodes of [l] are distinct and their fields do not overlap. *)
Definition nodes_apart (l : list Z) : Prop :=
  NoDup l ∧ ∀ a b, a ∈ l → b ∈ l → a = b ∨ a + 16 ≤ b ∨ b + 16 ≤ a.

Definition nodes_accessible (regions : list (Z * Z)) (l : list Z) : Prop :=
  ∀ a, a ∈ l →
    accessible regions (next_field a) = true ∧
    accessible regions (prev_field a) = true.

(** [s'] differs from [s] at most in the contents of memory and in the
    head of the free list. *)
Definition same_globals (s s' : state) : Prop :=
  mapped s' = mapped s ∧ num_page_chunks s' = num_page_chunks s ∧
  map_multiplier s' = map_multiplier s ∧ pagesize s' = pagesize s ∧
  recent_page s' = recent_page s.

Definition heap_wf (H : list chunk) : Prop :=
  Forall chunk_wf H ∧ regions_disjoint (region <$> H).

(** Two placed blocks are the same block or do not overlap. *)
Definition blocks_apart (b b' : pblock) : Prop :=
  b = b' ∨ b_addr b + b_size b ≤ b_addr b' ∨ b_addr b' + b_size b' ≤ b_addr b.

(** ** Heaps with a hole

    The operations change a run of consecutive blocks of one chunk and
    leave the bytes they cover unchanged.  A context is a heap with such
    a run taken out; [plug] puts a run in. *)

Record ctx := mkCtx {
  x_before : list chunk;
  x_base : Z;
  x_left : list (Z * bool);
  x_right : list (Z * bool);
  x_after : list chunk
}.

Definition plug (k : ctx) (mid : list (Z * bool)) : list chunk :=
  x_before k ++ mkChunk (x_base k) (x_left k ++ mid ++ x_right k) :: x_after k.

(** Payload address of the first block of the hole. *)
Definition hole (k : ctx) : Z := x_base k + PAGE_OVERHEAD + total (x_left k).

Definition interior_before (k : ctx) : list pblock :=
  interior_blocks (x_before k) ++ place (x_base k + PAGE_OVERHEAD) (x_left k).

Definition interior_after (k : ctx) (t : Z) : list pblock :=
  place (hole k + t) (x_right k) ++ interior_blocks (x_after k).

Definition all_before (k : ctx) : list pblock :=
  all_blocks (x_before k) ++
  mkBlock (x_base k + 16) 16 true :: place (x_base k + PAGE_OVERHEAD) (x_left k).

Definition all_after (k : ctx) (t : Z) : list pblock :=
  place (hole k + t) (x_right k) ++
  mkBlock (hole k + t + total (x_right k)) 8 true :: all_blocks (x_after k).

(** The neighbours of the hole: the block before it (the sentinel when
    the hole starts the chunk) and the block after it (the terminator
    when the hole ends the chunk). *)
Definition left_nb (k : ctx) : Z * bool := default sentinel (last (x_left k)).
Definition right_nb (k : ctx) : Z * bool := hd terminator (x_right k).

(** [m'] holds what [m] holds at every address outside [lo, hi). *)
Definition agree_outside (lo hi : Z) (m m' : gmap Z Z) : Prop :=
  ∀ y, y < lo ∨ hi ≤ y → rd m' y = rd m y.

(** ** The coalescing table of the specification (section 4.5)

    The block in the hole of [k], of size [sz], has just been freed.
    [lfree] and [rfree] say whether its neighbours are free; the table
    gives the block that results, its size and the free list. *)

Definition lfree (k : ctx) : bool := negb (left_nb k).2.
Definition rfree (k : ctx) : bool := negb (right_nb k).2.

Definition coalesce_ctx (k : ctx) : ctx :=
  mkCtx (x_before k) (x_base k)
        (if lfree k then removelast (x_left k) else x_left k)
        (if rfree k then tl (x_right k) else x_right k)
        (x_after k).

Definition coalesce_size (k : ctx) (sz : Z) : Z :=
  (if lfree k then (left_nb k).1 else 0) + sz +
  (if rfree k then (right_nb k).1 else 0).

Definition coalesce_addr (k : ctx) : Z :=
  if lfree k then hole k - (left_nb k).1 else hole k.

Definition unlink (a : Z) (fl : list Z) : list Z := filter (λ x, x ≠ a) fl.

Definition coalesce_list (k : ctx) (sz : Z) (fl : list Z) : list Z :=
  let fl1 := if rfree k then unlink (hole k + sz) fl else fl in
  if lfree k then fl1 else hole k :: fl1.

(** ** Freeing, on heap descriptions

    The heap and the free list after [mm_free] of the allocated block of
    size [sz] in the hole of [k]: the block is coalesced following the
    table, and its chunk is given back to the pager when the block is
    all of its interior and another chunk remains. *)

Definition whole_chunk (k : ctx) : bool :=
  match x_left k, x_right k with
  | [], [] => true
  | _, _ => false
  end.

Definition unmaps (k : ctx) : bool :=
  (1 <? Z.of_nat (length (plug k []))) && whole_chunk (coalesce_ctx k).

Definition free_heap (k : ctx) (sz : Z) : list chunk :=
  if unmaps k then x_before k ++ x_after k
  else plug (coalesce_ctx k) [(coalesce_size k sz, false)].

Definition free_list_after (k : ctx) (sz : Z) (fl : list Z) : list Z :=
  if unmaps k then unlink (coalesce_addr k) (coalesce_list k sz fl)
  else coalesce_list k sz fl.

(** The test of [try_unmap], read from memory [m] for the block at
    [bp]: the size in the header of the previous block is [OVERHEAD] and
    the header word of the next block is 9. *)
Definition size_field (w : Z) : Z := Z.land w (wrap64 (Z.lnot 15)).

Definition unmap_test (m : gmap Z Z) (bp : Z) : bool :=
  let prev := bp - size_field (rd m (bp - OVERHEAD)) in
  let next := bp + size_field (rd m (HDRP bp)) in
  (size_field (rd m (HDRP prev)) =? OVERHEAD) && (rd m (HDRP next) =? 9).

(** ** Allocating, on heap descriptions

    The free block of size [c] in the hole of [k] serves a request for a
    block of [need] bytes: it is split when the remainder can hold a
    block, then marked allocated and unlinked (specification, section
    4.2, steps 4 and 5). *)

Definition alloc_blocks (c need : Z) : list (Z * bool) :=
  if MIN_BLOCK_SIZE <=? c - need then [(need, true); (c - need, false)]
  else [(c, true)].

Definition alloc_list (k : ctx) (c need : Z) (fl : list Z) : list Z :=
  if MIN_BLOCK_SIZE <=? c - need then (hole k + need) :: unlink (hole k) fl
  else unlink (hole k) fl.

(** Size of the interior block at payload address [a] (0 when there is
    none), and the first block of the free list that can hold [need]
    bytes (specification, section 4.4, first_fit). *)
Definition size_at (H : list chunk) (a : Z) : Z :=
  default 0 (b_size <$> head (filter (λ b, b_addr b = a) (interior_blocks H))).

Definition first_fit (H : list chunk) (need : Z) (fl : list Z) : option Z :=
  head (filter (λ a, need ≤ size_at H a) fl).

(** ** The round trip, as the specification states it

    [p = mm_malloc(n); mm_free(p)] with [n] served from the existing
    heap (no new mapping) leaves the free list, contents and order, and
    the chunk count as they were.  (The specification adds the block
    tags; the two observations here are enough to decide it.) *)
Definition round_trip_restores (fuel : nat) (mem_map : Z → Z) (s : state) (n : Z) : Prop :=
  ∀ p s1 s2,
    mm_malloc fuel mem_map n s = Ok (p, s1) → p ≠ 0 → mapped s1 = mapped s →
    mm_free p s1 = Ok (tt, s2) →
    free_nodes fuel (mem s2) (free_list s2) = free_nodes fuel (mem s) (free_list s) ∧
    num_page_chunks s2 = num_page_chunks s.

(** The lines [print_page] is to print for a chunk: the sentinel, each
    interior block with its address and its two tags, the terminator,
    whose size [GET_SIZE] reads as 0. *)
Definition block_lines (b : pblock) : list line :=
  let w := tag (b_size b) (b_alloc b) in
  [Lblock (b_addr b); Lheader w (b_size b) (Z.b2z (b_alloc b));
   Lfooter w (b_size b) (Z.b2z (b_alloc b))].

Definition page_lines (c : chunk) : list line :=
  [Lpage (c_base c); Lsentinel; Lheader 17 16 1; Lfooter 17 16 1; Lblocks] ++
  (interior c ≫= block_lines) ++ [Lterminator; Lheader 9 0 1].

(** ** Assumptions on the environment *)

(** Modelled from the spec: the contract of [mem_map] (section 6).  A
    non-null answer is page-aligned and the bytes it maps are disjoint
    from every live mapping. *)
Definition pager_ok (s : state) (mem_map : Z → Z) : Prop :=
  ∀ n, mem_map n ≠ 0 →
    0 < mem_map n ∧ mem_map n mod pagesize s = 0 ∧
    Forall (apart (mem_map n, n)) (mapped s).

(** The page size is a power of two, at least 16 and small enough for
    [MAX_PAGE_PER_MAP] pages to fit an [int]; the multiplier is one of
    the values that doubling from 1 reaches. *)
Definition params_ok (s : state) : Prop :=
  (∃ e, 4 ≤ e ≤ 25 ∧ pagesize s = 2 ^ e) ∧
  (∃ j, 0 ≤ j ≤ 5 ∧ map_multiplier s = 2 ^ j).

(** [x] rounded up to a multiple of the page size (specification,
    section 4.6, page_align). *)
Definition page_align (ps x : Z) : Z := (x + ps - 1) / ps * ps.

(** The values the multiplier takes: the powers of two up to
    [MAX_PAGE_PER_MAP], which doubling reaches from 1. *)
Definition mult_ok (m : Z) : Prop := ∃ j, 0 ≤ j ≤ 5 ∧ m = 2 ^ j.

(** A computation that, when it ends, leaves the multiplier as it was. *)
Definition keeps_multiplier {A : Type} (c : M A) : Prop :=
  ∀ s r s', c s = Ok (r, s') → map_multiplier s' = map_multiplier s.

(** The multiplier after a call of [extend] (section 4.6, step 4). *)
Definition next_multiplier (m : Z) : Z :=
  if m <? MAX_PAGE_PER_MAP then 2 * m else m.

(** The state is well formed and [live] are the pointers handed out and
    not yet freed. *)
Definition heap_ok (s : state) (live : list Z) : Prop :=
  ∃ H fl, heap_inv s H fl ∧ params_ok s ∧ live ≡ₚ live_addrs H.
(** * Proofs *)

(** ** Machine arithmetic *)

Lemma wrap64_small (x : Z) : 0 ≤ x < 2 ^ 64 → wrap64 x = x.
Proof. intros. unfold wrap64. apply Z.mod_small. lia. Qed.

Lemma to_int_small (x : Z) : - 2 ^ 31 ≤ x < 2 ^ 31 → to_int x = x.
Proof. intros. unfold to_int. rewrite Z.mod_small; lia. Qed.

Lemma land_mask (v k : Z) :
  0 ≤ v < 2 ^ 64 → 0 ≤ k ≤ 64 →
  Z.land v (wrap64 (Z.lnot (2 ^ k - 1))) = v - v mod 2 ^ k.
Proof.
  intros Hv Hk. unfold wrap64.
  rewrite <- Z.land_ones by lia.
  rewrite Z.land_assoc, (Z.land_comm v), <- Z.land_assoc.
  rewrite (Z.land_ones v 64) by lia.
  rewrite (Z.mod_small v) by lia.
  rewrite Z.land_comm.
  change (2 ^ k - 1) with (Z.pred (2 ^ k)). rewrite <- Z.ones_equiv.
  rewrite <- Z.ldiff_land, Z.ldiff_ones_r by lia.
  rewrite Z.shiftr_div_pow2, Z.shiftl_mul_pow2 by lia.
  pose proof (Z.div_mod v (2 ^ k)). lia.
Qed.

Lemma tag_add (sz : Z) (al : bool) :
  sz mod 2 = 0 → tag sz al = sz + Z.b2z al.
Proof.
  intros H. unfold tag, PACK.
  pose proof (Z.add_lor_land sz (Z.b2z al)) as E.
  assert (Z.land sz (Z.b2z al) = 0) as E0.
  { destruct al; simpl; [|apply Z.land_0_r].
    change 1 with (Z.ones 1). rewrite Z.land_ones by lia. exact H. }
  lia.
Qed.

Lemma mod16_mod2 (x : Z) : x mod 16 = 0 → x mod 2 = 0.
Proof.
  intros H. apply Z.mod_divide in H; [|lia]. destruct H as [k ->].
  replace (k * 16) with (k * 8 * 2) by lia. apply Z.mod_mul. lia.
Qed.

Lemma size_of_tag (sz : Z) (al : bool) :
  0 ≤ sz < 2 ^ 63 → sz mod 16 = 0 →
  Z.land (tag sz al) (wrap64 (Z.lnot 15)) = sz.
Proof.
  intros Hr Hm. rewrite tag_add by (apply mod16_mod2; done).
  change 15 with (2 ^ 4 - 1). rewrite land_mask by (destruct al; simpl; lia).
  change (2 ^ 4) with 16.
  replace ((sz + Z.b2z al) mod 16) with (Z.b2z al); [lia|].
  rewrite <- Z.add_mod_idemp_l, Hm by lia. destruct al; reflexivity.
Qed.

Lemma alloc_of_tag (sz : Z) (al : bool) :
  sz mod 2 = 0 → Z.land (tag sz al) 1 = Z.b2z al.
Proof.
  intros Hm. rewrite tag_add by done.
  change (Z.land ?x 1) with (Z.land x (Z.ones 1)). rewrite Z.land_ones by lia.
  change (2 ^ 1) with 2.
  rewrite <- Z.add_mod_idemp_l, Hm by lia. destruct al; reflexivity.
Qed.

(** ** Steps of the monad and memory accesses *)

Lemma bind_ok {A B} (c : M A) (k : A → M B) (s s' : state) (a : A) :
  c s = Ok (a, s') → (c ≫= k) s = k a s'.
Proof. intros E. unfold mbind, M_bind, bind. by rewrite E. Qed.

Lemma rd_insert_eq (m : gmap Z Z) (p v : Z) : rd (<[p:=v]> m) p = v.
Proof. unfold rd. by rewrite lookup_insert_eq. Qed.

Lemma rd_insert_ne (m : gmap Z Z) (p q v : Z) : p ≠ q → rd (<[p:=v]> m) q = rd m q.
Proof. intros. unfold rd. by rewrite lookup_insert_ne. Qed.

Lemma accessible_intro (regions : list (Z * Z)) (r : Z * Z) (p : Z) :
  r ∈ regions → r.1 ≤ p → p + 8 ≤ r.1 + r.2 → p mod 8 = 0 →
  accessible regions p = true.
Proof.
  intros Hin H1 H2 H3. unfold accessible.
  apply andb_true_intro. split; [by apply Z.eqb_eq|].
  apply existsb_exists. exists r. split; [by apply list_elem_of_In|].
  unfold in_region. apply andb_true_intro. split; by apply Z.leb_le.
Qed.

Lemma accessible_elim (regions : list (Z * Z)) (p : Z) :
  accessible regions p = true →
  p mod 8 = 0 ∧ ∃ r, r ∈ regions ∧ r.1 ≤ p ∧ p + 8 ≤ r.1 + r.2.
Proof.
  unfold accessible. intros [H1 H2]%andb_prop. split; [by apply Z.eqb_eq|].
  apply existsb_exists in H2 as (r & Hin & [H3 H4]%andb_prop).
  exists r. split; [by apply list_elem_of_In|]. split; by apply Z.leb_le.
Qed.

Lemma GET_ok (s : state) (p : Z) :
  accessible (mapped s) p = true → GET p s = Ok (rd (mem s) p, s).
Proof. intros E. unfold GET. by rewrite E. Qed.

Lemma PUT_ok (s : state) (p v : Z) :
  accessible (mapped s) p = true → PUT p v s = Ok (tt, set_mem (insert p v) s).
Proof. intros E. unfold PUT. by rewrite E. Qed.

Lemma GET_SIZE_ok (s : state) (p : Z) :
  accessible (mapped s) p = true →
  GET_SIZE p s = Ok (Z.land (rd (mem s) p) (wrap64 (Z.lnot 15)), s).
Proof. intros E. unfold GET_SIZE. by rewrite (bind_ok _ _ _ _ _ (GET_ok _ _ E)). Qed.

Lemma GET_ALLOC_ok (s : state) (p : Z) :
  accessible (mapped s) p = true →
  GET_ALLOC p s = Ok (Z.land (rd (mem s) p) 1, s).
Proof. intros E. unfold GET_ALLOC. by rewrite (bind_ok _ _ _ _ _ (GET_ok _ _ E)). Qed.

(** ** Layout of a chunk *)

Lemma total_app (l1 l2 : list (Z * bool)) : total (l1 ++ l2) = total l1 + total l2.
Proof. induction l1 as [|b l1 IH]; simpl; lia. Qed.

Lemma total_nonneg (l : list (Z * bool)) : Forall (λ b, 0 ≤ b.1) l → 0 ≤ total l.
Proof. induction 1; simpl; lia. Qed.

Lemma place_app (a : Z) (l1 l2 : list (Z * bool)) :
  place a (l1 ++ l2) = place a l1 ++ place (a + total l1) l2.
Proof.
  revert a. induction l1 as [|b l1 IH]; intros a; simpl.
  - by rewrite Z.add_0_r.
  - rewrite IH. do 3 f_equal. lia.
Qed.

Lemma elem_of_place (a : Z) (l : list (Z * bool)) (b : pblock) :
  b ∈ place a l →
  ∃ l1 l2, l = l1 ++ (b_size b, b_alloc b) :: l2 ∧ b_addr b = a + total l1.
Proof.
  revert a. induction l as [|[sz al] l IH]; intros a; simpl.
  - by intros ?%elem_of_nil.
  - intros [->|Hin]%elem_of_cons.
    + exists [], l. simpl. split; [done|lia].
    + destruct (IH _ Hin) as (l1 & l2 & -> & E).
      exists ((sz, al) :: l1), l2. simpl. split; [done|lia].
Qed.

Lemma place_elem_of (a : Z) (l1 l2 : list (Z * bool)) (sz : Z) (al : bool) :
  mkBlock (a + total l1) sz al ∈ place a (l1 ++ (sz, al) :: l2).
Proof. rewrite place_app. apply elem_of_app. right. simpl. apply elem_of_cons. by left. Qed.

Lemma bind_gets {A B} (f : state → A) (k : A → M B) (s : state) :
  (gets f ≫= k) s = k (f s) s.
Proof. reflexivity. Qed.

Lemma bind_modify {B} (f : state → state) (k : unit → M B) (s : state) :
  (modify f ≫= k) s = k tt (f s).
Proof. reflexivity. Qed.

Lemma bind_mret {A B} (a : A) (k : A → M B) (s : state) :
  (mret a ≫= k) s = k a s.
Proof. reflexivity. Qed.

Lemma mret_ok {A} (a : A) (s : state) : (mret a : M A) s = Ok (a, s).
Proof. reflexivity. Qed.

Lemma bind_assoc {A B C} (c : M A) (k : A → M B) (k' : B → M C) (s : state) :
  ((c ≫= k) ≫= k') s = (c ≫= (λ a, k a ≫= k')) s.
Proof. unfold mbind, M_bind, bind. by destruct (c s) as [[a s']| |]. Qed.

Lemma bind_GET {B} (p : Z) (k : Z → M B) (s : state) :
  accessible (mapped s) p = true → (GET p ≫= k) s = k (rd (mem s) p) s.
Proof. intros E. by rewrite (bind_ok _ _ _ _ _ (GET_ok _ _ E)). Qed.

Lemma bind_PUT {B} (p v : Z) (k : unit → M B) (s : state) :
  accessible (mapped s) p = true → (PUT p v ≫= k) s = k tt (set_mem (insert p v) s).
Proof. intros E. by rewrite (bind_ok _ _ _ _ _ (PUT_ok _ _ _ E)). Qed.

Lemma bind_GET_SIZE {B} (p : Z) (k : Z → M B) (s : state) :
  accessible (mapped s) p = true →
  (GET_SIZE p ≫= k) s = k (Z.land (rd (mem s) p) (wrap64 (Z.lnot 15))) s.
Proof. intros E. by rewrite (bind_ok _ _ _ _ _ (GET_SIZE_ok _ _ E)). Qed.

Lemma bind_GET_ALLOC {B} (p : Z) (k : Z → M B) (s : state) :
  accessible (mapped s) p = true →
  (GET_ALLOC p ≫= k) s = k (Z.land (rd (mem s) p) 1) s.
Proof. intros E. by rewrite (bind_ok _ _ _ _ _ (GET_ALLOC_ok _ _ E)). Qed.

Lemma bind_FTRP {B} (bp : Z) (k : Z → M B) (s : state) :
  accessible (mapped s) (HDRP bp) = true →
  (FTRP bp ≫= k) s =
  k (bp + Z.land (rd (mem s) (HDRP bp)) (wrap64 (Z.lnot 15)) - OVERHEAD) s.
Proof. intros E. unfold FTRP. by rewrite bind_assoc, bind_GET_SIZE. Qed.

Lemma bind_NEXT_BLKP {B} (bp : Z) (k : Z → M B) (s : state) :
  accessible (mapped s) (HDRP bp) = true →
  (NEXT_BLKP bp ≫= k) s =
  k (bp + Z.land (rd (mem s) (HDRP bp)) (wrap64 (Z.lnot 15))) s.
Proof. intros E. unfold NEXT_BLKP. by rewrite bind_assoc, bind_GET_SIZE. Qed.

Lemma bind_PREV_BLKP {B} (bp : Z) (k : Z → M B) (s : state) :
  accessible (mapped s) (bp - OVERHEAD) = true →
  (PREV_BLKP bp ≫= k) s =
  k (bp - Z.land (rd (mem s) (bp - OVERHEAD)) (wrap64 (Z.lnot 15))) s.
Proof. intros E. unfold PREV_BLKP. by rewrite bind_assoc, bind_GET_SIZE. Qed.

Ltac msimpl :=
  cbn [mem mapped free_list num_page_chunks map_multiplier pagesize recent_page
       set_mem set_mapped set_free_list set_num_page_chunks set_map_multiplier
       set_recent_page].

(** One step of symbolic execution; [acc] proves the access legal. *)
Ltac mstep_with acc :=
  msimpl; rewrite ?bind_assoc;
  first
    [ rewrite bind_gets
    | rewrite bind_modify
    | rewrite bind_mret
    | rewrite bind_GET by (msimpl; acc)
    | rewrite bind_PUT by (msimpl; acc)
    | rewrite bind_GET_SIZE by (msimpl; acc)
    | rewrite bind_GET_ALLOC by (msimpl; acc)
    | rewrite bind_FTRP by (msimpl; acc)
    | rewrite bind_NEXT_BLKP by (msimpl; acc)
    | rewrite bind_PREV_BLKP by (msimpl; acc) ];
  msimpl.

(** Membership in a list built from [::] and [++]. *)
Ltac solve_elem :=
  repeat (rewrite ?elem_of_app, ?elem_of_cons, ?elem_of_nil in * );
  intuition (auto; congruence).

(** Accessibility from a hypothesis about the same address. *)
Ltac acc :=
  msimpl;
  first
    [ assumption
    | match goal with
      | H : accessible ?r ?q = true |- accessible ?r ?p = true =>
          replace p with q
            by (unfold HDRP, OVERHEAD, next_field, prev_field in *; lia);
          exact H
      end ].

Ltac mstep := mstep_with acc.

Ltac rd_simpl :=
  repeat first
    [ rewrite rd_insert_eq
    | rewrite rd_insert_ne
        by (unfold HDRP, OVERHEAD, next_field, prev_field in *; lia) ].

(** ** The doubly linked list *)

Lemma dseg_agree (m m' : gmap Z Z) (p : Z) (l : list Z) (n : Z) :
  (∀ a, a ∈ l → rd m' (next_field a) = rd m (next_field a) ∧
                 rd m' (prev_field a) = rd m (prev_field a)) →
  dseg m p l n → dseg m' p l n.
Proof.
  revert p. induction l as [|a l IH]; intros p Hag; simpl; [done|].
  intros (Ha & Hp & Hn & Hl).
  destruct (Hag a) as [E1 E2]; [by left|].
  rewrite E1, E2. split_and!; try done.
  apply IH; [|done]. intros b Hb. apply Hag. by right.
Qed.

Lemma dseg_app (m : gmap Z Z) (p : Z) (l1 l2 : list Z) (n : Z) :
  dseg m p (l1 ++ l2) n ↔ dseg m p l1 (hd n l2) ∧ dseg m (default p (last l1)) l2 n.
Proof.
  revert p. induction l1 as [|a l1 IH]; intros p; simpl.
  - tauto.
  - rewrite IH. destruct l1 as [|b l1]; simpl; [tauto|].
    assert (is_Some (last (b :: l1))) as [x ->] by (by apply last_is_Some).
    simpl. tauto.
Qed.

Lemma dseg_nonzero (m : gmap Z Z) (p : Z) (l : list Z) (n : Z) :
  dseg m p l n → Forall (λ a, a ≠ 0) l.
Proof.
  revert p. induction l as [|a l IH]; intros p; simpl; [constructor|].
  intros (Ha & _ & _ & Hl). constructor; eauto.
Qed.

(** ** Insertion into and removal from the free list *)

Lemma same_globals_refl (s : state) : same_globals s s.
Proof. by repeat split. Qed.

Lemma same_globals_trans (s1 s2 s3 : state) :
  same_globals s1 s2 → same_globals s2 s3 → same_globals s1 s3.
Proof.
  intros (?&?&?&?&?) (?&?&?&?&?). repeat split; congruence.
Qed.

Lemma add_free_spec (s : state) (fl : list Z) (ptr : Z) :
  dseg (mem s) 0 fl 0 → free_list s = hd 0 fl → ptr ≠ 0 →
  accessible (mapped s) (next_field ptr) = true →
  accessible (mapped s) (prev_field ptr) = true →
  nodes_accessible (mapped s) fl → nodes_apart fl →
  (∀ a, a ∈ fl → a + 16 ≤ ptr ∨ ptr + 16 ≤ a) →
  ∃ s', add_free ptr s = Ok (tt, s') ∧
        dseg (mem s') 0 (ptr :: fl) 0 ∧ free_list s' = ptr ∧
        same_globals s s' ∧
        (∀ y, off_nodes (ptr :: fl) y → rd (mem s') y = rd (mem s) y).
Proof.
  intros Hl Hh Hp A1 A2 Hacc [Hnd Hap] Hsep. unfold add_free.
  do 3 mstep_with assumption. rewrite Hh.
  destruct fl as [|a fl]; simpl.
  - eexists. split; [reflexivity|]. msimpl. unfold next_field, prev_field in *.
    split_and!; try done; simpl; try (by rd_simpl).
    intros y Hy. destruct (Hy ptr) as [? ?]; [by left|].
    unfold next_field, prev_field in *. by rd_simpl.
  - simpl in Hl. destruct Hl as (Ha & Hpa & Hna & Hl).
    destruct (Hacc a) as [Aa1 Aa2]; [by left|].
    assert (a + 16 ≤ ptr ∨ ptr + 16 ≤ a) as Hs by (apply Hsep; by left).
    apply Z.eqb_neq in Ha as Ha'. rewrite Ha'.
    do 2 mstep_with assumption.
    eexists. split; [reflexivity|]. msimpl.
    unfold next_field, prev_field in *.
    split_and!; try done; simpl; try (by rd_simpl).
    + apply NoDup_cons in Hnd as [Hna' Hnd].
      assert (∀ b, b ∈ fl → b ≠ a ∧ (a + 16 ≤ b ∨ b + 16 ≤ a)) as Hfa.
      { intros b Hb. assert (b ≠ a) by (intros ->; done). split; [done|].
        destruct (Hap a b) as [?|?]; [by left|by right|done|done]. }
      eapply dseg_agree; [|exact Hl]. intros b Hb.
      unfold next_field, prev_field.
      destruct (Hfa b Hb) as [? ?].
      assert (b + 16 ≤ ptr ∨ ptr + 16 ≤ b) by (apply Hsep; by right).
      by rd_simpl.
    + intros y Hy. destruct (Hy ptr) as [? ?]; [by left|].
      destruct (Hy a) as [? ?]; [right; by left|].
      unfold next_field, prev_field in *. by rd_simpl.
Qed.

Lemma nodes_apart_perm (l l' : list Z) : l ≡ₚ l' → nodes_apart l → nodes_apart l'.
Proof.
  intros Hp [Hnd Hap]. split; [by rewrite <- Hp|].
  intros a b Ha Hb. apply Hap; by rewrite Hp.
Qed.

Lemma nodes_apart_cons (a : Z) (l : list Z) :
  nodes_apart (a :: l) →
  nodes_apart l ∧ (a ∉ l) ∧ ∀ b, b ∈ l → a + 16 ≤ b ∨ b + 16 ≤ a.
Proof.
  intros [[Hni Hnd]%NoDup_cons Hap]. split_and!; try done.
  - split; [done|]. intros x y Hx Hy. apply Hap; by right.
  - intros b Hb. destruct (Hap a b) as [->|?]; [by left|by right|done|done].
Qed.

Lemma nodes_apart_middle (l1 l2 : list Z) (a : Z) :
  nodes_apart (l1 ++ a :: l2) →
  nodes_apart (l1 ++ l2) ∧ (a ∉ l1 ++ l2) ∧
  ∀ b, b ∈ l1 ++ l2 → a + 16 ≤ b ∨ b + 16 ≤ a.
Proof.
  intros H. apply nodes_apart_cons.
  eapply nodes_apart_perm; [|exact H]. by rewrite Permutation_middle.
Qed.

Lemma dseg_frame (m : gmap Z Z) (p : Z) (l : list Z) (n x v : Z) :
  off_nodes l x → dseg m p l n → dseg (<[x:=v]> m) p l n.
Proof.
  intros Hoff. apply dseg_agree. intros a Ha.
  destruct (Hoff a Ha). by rewrite !rd_insert_ne.
Qed.

Lemma off_nodes_apart (l : list Z) (a : Z) :
  (∀ b, b ∈ l → a + 16 ≤ b ∨ b + 16 ≤ a) →
  off_nodes l (next_field a) ∧ off_nodes l (prev_field a).
Proof.
  intros H. split; intros b Hb; destruct (H b Hb);
    unfold next_field, prev_field; lia.
Qed.

Lemma del_free_spec (s : state) (l1 : list Z) (ptr : Z) (l2 : list Z) :
  dseg (mem s) 0 (l1 ++ ptr :: l2) 0 →
  free_list s = hd 0 (l1 ++ ptr :: l2) →
  nodes_accessible (mapped s) (l1 ++ ptr :: l2) →
  nodes_apart (l1 ++ ptr :: l2) →
  ∃ s', del_free ptr s = Ok (tt, s') ∧
        dseg (mem s') 0 (l1 ++ l2) 0 ∧ free_list s' = hd 0 (l1 ++ l2) ∧
        same_globals s s' ∧
        (∀ y, off_nodes (l1 ++ l2) y → rd (mem s') y = rd (mem s) y).
Proof.
  intros Hl Hh Hacc Hap.
  destruct (nodes_apart_middle _ _ _ Hap) as (Hap' & Hni & Hsep).
  apply dseg_app in Hl as [D1 D2]. simpl in D2.
  destruct D2 as (Hp0 & Hpp & Hpn & D2).
  destruct (Hacc ptr) as [Ap1 Ap2]; [apply elem_of_app; right; by left|].
  unfold del_free. mstep_with assumption. rewrite Hpp.
  destruct l1 as [|z l1 _] using rev_ind.
  - (* [ptr] is the head *)
    simpl in *. mstep_with assumption. mstep_with assumption. rewrite Hpn.
    destruct l2 as [|b l2]; simpl in *.
    + do 2 mstep_with assumption. rewrite Hh, Z.eqb_refl.
      mstep_with assumption. rewrite Hpn.
      eexists. split; [reflexivity|]. msimpl. split_and!; done.
    + destruct D2 as (Hb0 & Hbp & Hbn & D2).
      destruct (Hacc b) as [Ab1 Ab2]; [right; by left|].
      apply Z.eqb_neq in Hb0 as Hb0'. rewrite Hb0'.
      mstep_with assumption. rewrite Hpn.
      mstep_with assumption. rewrite Hpp.
      mstep_with assumption. mstep_with assumption.
      rewrite Hh, Z.eqb_refl. mstep_with assumption.
      assert (ptr + 16 ≤ b ∨ b + 16 ≤ ptr) as Hpb by (apply Hsep; by left).
      unfold next_field, prev_field in *. rd_simpl. rewrite Hpn.
      eexists. split; [reflexivity|]. msimpl.
      destruct (nodes_apart_cons _ _ Hap') as (_ & _ & Hbsep).
      split_and!; simpl; try done; try (by rd_simpl).
      * apply dseg_frame; [|done]. intros c Hc.
        destruct (Hbsep c Hc); unfold next_field, prev_field; lia.
      * intros y Hy. destruct (Hy b) as [? ?]; [by left|].
        unfold next_field, prev_field in *. by rd_simpl.
  - (* [ptr] has a predecessor [z] *)
    rewrite last_snoc in *. simpl in Hpp |- *.
    rewrite <- !app_assoc in *. simpl in Hh, Hacc, Hap, Hap', Hni, Hsep |- *.
    apply dseg_app in D1 as [D1 Dz]. simpl in Dz.
    destruct Dz as (Hz0 & Hzp & Hzn & _).
    destruct (Hacc z) as [Az1 Az2]; [solve_elem|].
    assert (ptr + 16 ≤ z ∨ z + 16 ≤ ptr) as Hpz by (apply Hsep; solve_elem).
    assert (hd 0 (l1 ++ z :: ptr :: l2) ≠ ptr) as Hhd.
    { intros E. apply Hni. rewrite <- E. destruct l1; simpl; solve_elem. }
    assert ((ptr =? free_list s) = false) as Hhd'.
    { apply Z.eqb_neq. rewrite Hh. done. }
    assert (hd 0 (l1 ++ z :: l2) = hd 0 (l1 ++ z :: ptr :: l2)) as Hhd''.
    { destruct l1; done. }
    apply Z.eqb_neq in Hz0 as Hz0'. rewrite Hz0'.
    mstep_with assumption. rewrite Hpp.
    mstep_with assumption. rewrite Hpn.
    mstep_with assumption. mstep_with assumption.
    unfold next_field, prev_field in *. rd_simpl. rewrite Hpn.
    destruct (nodes_apart_middle _ _ _ Hap') as (Hap1 & Hzni & Hzsep).
    destruct l2 as [|b l2]; simpl hd.
    + simpl. do 2 mstep_with assumption. rewrite Hhd'.
      eexists. split; [reflexivity|]. msimpl.
      split_and!; try done.
      * apply dseg_app. simpl. split.
        -- apply dseg_frame; [|done]. intros c Hc.
           destruct (Hzsep c); [solve_elem| |]; unfold next_field, prev_field; lia.
        -- unfold next_field, prev_field. split_and!; try done; by rd_simpl.
      * congruence.
      * intros y Hy. destruct (Hy z) as [? ?]; [solve_elem|].
        unfold next_field, prev_field in *. by rd_simpl.
    + simpl in D2. destruct D2 as (Hb0 & Hbp & Hbn & D2).
      destruct (Hacc b) as [Ab1 Ab2]; [solve_elem|].
      assert (ptr + 16 ≤ b ∨ b + 16 ≤ ptr) as Hpb by (apply Hsep; solve_elem).
      assert (z + 16 ≤ b ∨ b + 16 ≤ z) as Hzb by (apply Hzsep; solve_elem).
      apply Z.eqb_neq in Hb0 as Hb0'. rewrite Hb0'.
      mstep_with assumption. unfold next_field, prev_field in *.
      rd_simpl. rewrite Hpn.
      mstep_with assumption. rd_simpl. rewrite Hpp.
      do 2 mstep_with assumption. rewrite Hhd'.
      eexists. split; [reflexivity|]. msimpl.
      split_and!; try done.
      * destruct (nodes_apart_middle _ _ _ Hap1) as (_ & _ & Hbsep).
        apply dseg_app. simpl. unfold next_field, prev_field.
        split_and!; try done; try (by rd_simpl).
        all: (apply dseg_frame; [|apply dseg_frame; [|done]]).
        all: intros c Hc; unfold next_field, prev_field.
        all: destruct (Hzsep c) as [?|?]; [solve_elem| |].
        all: destruct (Hbsep c) as [?|?]; [solve_elem| |]; lia.
      * congruence.
      * intros y Hy. destruct (Hy z) as [? ?]; [solve_elem|].
        destruct (Hy b) as [? ?]; [solve_elem|].
        unfold next_field, prev_field in *. simpl. by rd_simpl.
Qed.

(** ** Blocks of a well-formed heap *)

Ltac zmod := Z.div_mod_to_equations; lia.

Lemma chunk_blocks_eq (c : chunk) :
  chunk_blocks c =
  mkBlock (c_base c + 16) 16 true ::
  interior c ++ [mkBlock (c_base c + 32 + total (c_blocks c)) 8 true].
Proof.
  unfold chunk_blocks, interior, layout. simpl.
  change (c_base c + PAGE_PAD + 8) with (c_base c + 8 + 8).
  change (c_base c + PAGE_OVERHEAD) with (c_base c + (8 + (8 + 8) + 8)).
  replace (c_base c + 8 + 8) with (c_base c + 16) by lia.
  f_equal. replace (c_base c + 16 + OVERHEAD) with (c_base c + (8 + (8 + 8) + 8))
    by (unfold OVERHEAD; lia).
  rewrite place_app. simpl. repeat (f_equal; try lia).
Qed.

Lemma block_cases (c : chunk) (b : pblock) :
  b ∈ chunk_blocks c ↔
  b = mkBlock (c_base c + 16) 16 true ∨ b ∈ interior c ∨
  b = mkBlock (c_base c + 32 + total (c_blocks c)) 8 true.
Proof.
  rewrite chunk_blocks_eq, elem_of_cons, elem_of_app, elem_of_cons, elem_of_nil.
  tauto.
Qed.

Lemma place_bounds (a : Z) (l : list (Z * bool)) (b : pblock) :
  Forall (λ x, 0 < x.1) l → b ∈ place a l →
  a ≤ b_addr b ∧ b_addr b + b_size b ≤ a + total l ∧ (b_size b, b_alloc b) ∈ l.
Proof.
  intros Hl (l1 & l2 & -> & ->)%elem_of_place.
  apply Forall_app in Hl as [H1 [H2 H3]%Forall_cons].
  rewrite !total_app. simpl in *.
  assert (0 ≤ total l1) by (apply total_nonneg; eapply Forall_impl; [done|intros; simpl in *; lia]).
  assert (0 ≤ total l2) by (apply total_nonneg; eapply Forall_impl; [done|intros; simpl in *; lia]).
  split_and!; [lia|lia|solve_elem].
Qed.

Lemma place_apart (a : Z) (l : list (Z * bool)) (b b' : pblock) :
  Forall (λ x, 0 < x.1) l → b ∈ place a l → b' ∈ place a l → blocks_apart b b'.
Proof.
  revert a. induction l as [|[sz al] l IH]; intros a Hl; simpl.
  - by intros ?%elem_of_nil.
  - apply Forall_cons in Hl as [Hsz Hl]. simpl in Hsz.
    intros [->|Hb]%elem_of_cons [->|Hb']%elem_of_cons.
    + by left.
    + apply place_bounds in Hb' as (? & ? & _); [|done]. right. left. simpl. lia.
    + apply place_bounds in Hb as (? & ? & _); [|done]. right. right. simpl. lia.
    + by eapply IH.
Qed.

Lemma interior_props (c : chunk) (b : pblock) :
  chunk_wf c → b ∈ interior c →
  c_base c + 32 ≤ b_addr b ∧
  b_addr b + b_size b ≤ c_base c + 32 + total (c_blocks c) ∧
  32 ≤ b_size b ∧ b_size b mod 16 = 0 ∧ b_addr b mod 16 = 0 ∧
  b_size b < 2 ^ 31.
Proof.
  intros (Hb0 & Hbm & Hbl & Htot) Hin.
  unfold ALIGNMENT, PAGE_OVERHEAD, PAGE_PAD, OVERHEAD in *.
  apply elem_of_place in Hin as Hdec. destruct Hdec as (l1 & l2 & E & Ea).
  rewrite E in Hbl, Htot.
  apply Forall_app in Hbl as [H1 [H2 H3]%Forall_cons].
  rewrite !total_app in *. simpl in *.
  destruct H2 as [H2 H2']. unfold MIN_BLOCK_SIZE, ALIGNMENT, OVERHEAD in *. simpl in *.
  assert (0 ≤ total l1 ∧ total l1 mod 16 = 0) as [? ?].
  { clear -H1. induction H1 as [|x l [Hx Hx'] _ [IH1 IH2]]; simpl; [done|].
    unfold MIN_BLOCK_SIZE, ALIGNMENT, OVERHEAD in *. split; [lia|]. zmod. }
  assert (0 ≤ total l2).
  { clear -H3. induction H3 as [|x l [Hx Hx'] _ IH]; simpl; [done|].
    unfold MIN_BLOCK_SIZE, ALIGNMENT, OVERHEAD in *. lia. }
  unfold PAGE_OVERHEAD, PAGE_PAD, OVERHEAD in Ea.
  rewrite E, total_app. simpl. split_and!; try lia; try done. rewrite Ea. zmod.
Qed.

Lemma block_props (c : chunk) (b : pblock) :
  chunk_wf c → b ∈ chunk_blocks c →
  c_base c + 16 ≤ b_addr b ∧
  b_addr b + b_size b ≤ c_base c + 32 + total (c_blocks c) + 8 ∧
  b_addr b ≤ c_base c + 32 + total (c_blocks c) ∧
  8 ≤ b_size b ∧ b_size b mod 8 = 0 ∧ b_addr b mod 16 = 0.
Proof.
  intros Hwf [->|[Hin| ->]]%block_cases.
  - destruct Hwf as (? & ? & Hbl & ?). unfold ALIGNMENT in *. simpl.
    assert (0 ≤ total (c_blocks c)).
    { apply total_nonneg. eapply Forall_impl; [done|].
      intros x [? ?]. unfold MIN_BLOCK_SIZE, OVERHEAD, ALIGNMENT in *. lia. }
    split_and!; try lia; zmod.
  - destruct (interior_props c b Hwf Hin) as (? & ? & ? & ? & ? & ?).
    split_and!; try lia; zmod.
  - destruct Hwf as (? & ? & Hbl & ?). unfold ALIGNMENT in *. simpl.
    assert (0 ≤ total (c_blocks c) ∧ total (c_blocks c) mod 16 = 0) as [? ?].
    { clear -Hbl. induction Hbl as [|x l [Hx Hx'] _ [IH1 IH2]]; simpl; [done|].
      unfold MIN_BLOCK_SIZE, ALIGNMENT, OVERHEAD in *. split; [lia|]. zmod. }
    split_and!; try lia; zmod.
Qed.

Lemma layout_positive (c : chunk) : chunk_wf c → Forall (λ x, 0 < x.1) (layout c).
Proof.
  intros (_ & _ & Hbl & _). unfold layout.
  apply Forall_cons. split; [simpl; unfold OVERHEAD; lia|].
  apply Forall_app. split; [|by repeat constructor].
  eapply Forall_impl; [done|]. intros x [? ?].
  unfold MIN_BLOCK_SIZE, OVERHEAD, ALIGNMENT in *. lia.
Qed.

Lemma chunks_apart (H : list chunk) (c c' : chunk) :
  regions_disjoint (region <$> H) → c ∈ H → c' ∈ H →
  c = c' ∨ apart (region c) (region c').
Proof.
  induction H as [|x H IH]; simpl; [by intros _ ?%elem_of_nil|].
  intros [Hx Hd] [->|Hc]%elem_of_cons [->|Hc']%elem_of_cons.
  - by left.
  - right. rewrite Forall_forall in Hx. apply Hx. by apply list_elem_of_fmap_2.
  - right. rewrite Forall_forall in Hx.
    destruct (Hx (region c)) as [?|?]; [by apply list_elem_of_fmap_2| |].
    + by right.
    + by left.
  - by apply IH.
Qed.

Lemma heap_blocks_apart (H : list chunk) (b b' : pblock) :
  heap_wf H → b ∈ all_blocks H → b' ∈ all_blocks H → blocks_apart b b'.
Proof.
  intros [Hwf Hd] (c & Hb & Hc)%list_elem_of_bind (c' & Hb' & Hc')%list_elem_of_bind.
  rewrite Forall_forall in Hwf.
  destruct (chunks_apart H c c' Hd Hc Hc') as [<-|Hap].
  - eapply place_apart; [|exact Hb|exact Hb']. apply layout_positive. auto.
  - destruct (block_props c b) as (? & ? & ? & ? & ? & ?); [auto|done|].
    destruct (block_props c' b') as (? & ? & ? & ? & ? & ?); [auto|done|].
    unfold apart, region, PAGE_OVERHEAD, PAGE_PAD, OVERHEAD in Hap. simpl in Hap.
    right. lia.
Qed.

Lemma elem_of_addrs_of (al : bool) (l : list pblock) (a : Z) :
  a ∈ addrs_of al l ↔ ∃ b, b ∈ l ∧ b_addr b = a ∧ b_alloc b = al.
Proof.
  unfold addrs_of. rewrite list_elem_of_fmap. split.
  - intros (b & -> & [? ?]%list_elem_of_filter). eauto.
  - intros (b & ? & <- & ?). exists b. split; [done|].
    by apply list_elem_of_filter.
Qed.

Lemma interior_in_all (H : list chunk) (b : pblock) :
  b ∈ interior_blocks H → b ∈ all_blocks H.
Proof.
  intros (c & Hb & Hc)%list_elem_of_bind. apply list_elem_of_bind.
  exists c. split; [|done]. apply block_cases. auto.
Qed.

Lemma interior_block_props (H : list chunk) (b : pblock) :
  heap_wf H → b ∈ interior_blocks H →
  32 ≤ b_size b < 2 ^ 31 ∧ b_size b mod 16 = 0 ∧ b_addr b mod 16 = 0 ∧ 0 < b_addr b.
Proof.
  intros [Hwf _] (c & Hb & Hc)%list_elem_of_bind.
  rewrite Forall_forall in Hwf.
  destruct (interior_props c b) as (? & ? & ? & ? & ? & ?); [auto|done|].
  destruct (Hwf c Hc) as (? & _). split_and!; try done; lia.
Qed.

Lemma apart_same_addr (b b' : pblock) :
  0 < b_size b → 0 < b_size b' → blocks_apart b b' → b_addr b = b_addr b' → b = b'.
Proof. intros ? ? [?|?] ?; [done|lia]. Qed.

Lemma NoDup_place (a : Z) (l : list (Z * bool)) :
  Forall (λ x, 0 < x.1) l → NoDup (place a l).
Proof.
  revert a. induction l as [|[sz al] l IH]; intros a Hl; simpl; [constructor|].
  apply Forall_cons in Hl as [Hsz Hl]. simpl in Hsz.
  apply NoDup_cons. split; [|by apply IH].
  intros (? & _)%place_bounds; [|done]. simpl in *. lia.
Qed.

Lemma NoDup_chunks (H : list chunk) : heap_wf H → NoDup H.
Proof.
  intros [Hwf Hd]. induction H as [|c H IH]; [constructor|].
  apply Forall_cons in Hwf as [Hc Hwf]. simpl in Hd. destruct Hd as [Hcd Hd].
  apply NoDup_cons. split; [|by apply IH].
  intros Hin. rewrite Forall_forall in Hcd.
  destruct (Hcd (region c)) as [?|?]; [by apply list_elem_of_fmap_2| |].
  all: destruct Hc as (? & ? & Hbl & ?); simpl in *.
  all: assert (0 ≤ total (c_blocks c))
    by (apply total_nonneg; eapply Forall_impl; [done|];
        intros x [? ?]; unfold MIN_BLOCK_SIZE, OVERHEAD, ALIGNMENT in *; lia).
  all: unfold PAGE_OVERHEAD, PAGE_PAD, OVERHEAD in *; lia.
Qed.

Lemma interior_positive (c : chunk) : chunk_wf c → Forall (λ x, 0 < x.1) (c_blocks c).
Proof.
  intros (_ & _ & Hbl & _). eapply Forall_impl; [done|]. intros x [? ?].
  unfold MIN_BLOCK_SIZE, OVERHEAD, ALIGNMENT in *. lia.
Qed.

Lemma NoDup_interior_blocks (H : list chunk) : heap_wf H → NoDup (interior_blocks H).
Proof.
  intros Hwf. apply NoDup_bind; [| |by apply NoDup_chunks].
  - intros c c' b Hc Hc' Hb Hb'. destruct Hwf as [Hwf Hd].
    destruct (chunks_apart H c c' Hd Hc Hc') as [?|Hap]; [done|exfalso].
    rewrite Forall_forall in Hwf.
    destruct (interior_props c b) as (? & ? & ? & _); [auto|done|].
    destruct (interior_props c' b) as (? & ? & ? & _); [auto|done|].
    unfold apart, region, PAGE_OVERHEAD, PAGE_PAD, OVERHEAD in Hap. simpl in Hap. lia.
  - intros c Hc. apply NoDup_place, interior_positive.
    destruct Hwf as [Hwf _]. rewrite Forall_forall in Hwf. auto.
Qed.

Lemma interior_blocks_apart (H : list chunk) (b b' : pblock) :
  heap_wf H → b ∈ interior_blocks H → b' ∈ interior_blocks H →
  b = b' ∨ b_addr b + 32 ≤ b_addr b' ∨ b_addr b' + 32 ≤ b_addr b.
Proof.
  intros Hwf Hb Hb'.
  destruct (interior_block_props H b Hwf Hb) as (? & _).
  destruct (interior_block_props H b' Hwf Hb') as (? & _).
  destruct (heap_blocks_apart H b b' Hwf) as [?|?]; try by apply interior_in_all.
  - by left.
  - right. lia.
Qed.

Lemma NoDup_addrs_of (H : list chunk) (al : bool) :
  heap_wf H → NoDup (addrs_of al (interior_blocks H)).
Proof.
  intros Hwf. unfold addrs_of. apply NoDup_fmap_2_strong.
  - intros b b' [_ Hb]%list_elem_of_filter [_ Hb']%list_elem_of_filter E.
    destruct (interior_blocks_apart H b b' Hwf Hb Hb') as [?|?]; [done|lia].
  - apply NoDup_filter. by apply NoDup_interior_blocks.
Qed.

Lemma free_addrs_apart (H : list chunk) : heap_wf H → nodes_apart (free_addrs H).
Proof.
  intros Hwf. split; [by apply NoDup_addrs_of|].
  intros a a' (b & Hb & <- & _)%elem_of_addrs_of (b' & Hb' & <- & _)%elem_of_addrs_of.
  destruct (interior_blocks_apart H b b' Hwf Hb Hb') as [->|?]; [by left|right; lia].
Qed.

(** Words of a chunk can be accessed. *)
Lemma chunk_accessible (H : list chunk) (c : chunk) (p : Z) :
  c ∈ H → c_base c ≤ p → p + 8 ≤ c_base c + 32 + total (c_blocks c) →
  p mod 8 = 0 → accessible (region <$> H) p = true.
Proof.
  intros Hc H1 H2 H3. apply (accessible_intro _ (region c)); try done.
  - by apply list_elem_of_fmap_2.
  - unfold region, PAGE_OVERHEAD, PAGE_PAD, OVERHEAD. simpl. lia.
Qed.

Lemma tags_accessible (H : list chunk) (b : pblock) :
  heap_wf H → b ∈ all_blocks H →
  accessible (region <$> H) (HDRP (b_addr b)) = true ∧
  accessible (region <$> H) (b_addr b + b_size b - OVERHEAD) = true.
Proof.
  intros [Hwf _] (c & Hb & Hc)%list_elem_of_bind.
  rewrite Forall_forall in Hwf.
  destruct (block_props c b) as (? & ? & ? & ? & ? & ?); [auto|done|].
  unfold HDRP, OVERHEAD.
  split; apply (chunk_accessible H c); try done; try lia; zmod.
Qed.

Lemma payload_accessible (H : list chunk) (b : pblock) (p : Z) :
  heap_wf H → b ∈ interior_blocks H →
  b_addr b ≤ p → p + 8 ≤ b_addr b + b_size b - 8 → p mod 8 = 0 →
  accessible (region <$> H) p = true.
Proof.
  intros [Hwf _] (c & Hb & Hc)%list_elem_of_bind ? ? ?.
  rewrite Forall_forall in Hwf.
  destruct (interior_props c b) as (? & ? & ? & ? & ? & ?); [auto|done|].
  apply (chunk_accessible H c); try done; lia.
Qed.

Lemma free_addrs_accessible (H : list chunk) :
  heap_wf H → nodes_accessible (region <$> H) (free_addrs H).
Proof.
  intros Hwf a (b & Hb & <- & _)%elem_of_addrs_of.
  destruct (interior_block_props H b Hwf Hb) as (? & ? & ? & ?).
  unfold next_field, prev_field.
  split; apply (payload_accessible H b); try done; try lia; zmod.
Qed.

(** Reading the tags of a block. *)
Lemma tag_size (m : gmap Z Z) (sz : Z) (al : bool) (v : Z) :
  v = tag sz al → 0 ≤ sz < 2 ^ 31 → sz mod 16 = 0 →
  Z.land v (wrap64 (Z.lnot 15)) = sz.
Proof. intros -> ? ?. apply size_of_tag; lia. Qed.

Lemma tag_alloc (sz : Z) (al : bool) (v : Z) :
  v = tag sz al → sz mod 8 = 0 → Z.land v 1 = Z.b2z al.
Proof. intros -> ?. apply alloc_of_tag. zmod. Qed.

(** ** Heaps with a hole *)

Lemma addrs_of_app (al : bool) (l1 l2 : list pblock) :
  addrs_of al (l1 ++ l2) = addrs_of al l1 ++ addrs_of al l2.
Proof. unfold addrs_of. by rewrite filter_app, fmap_app. Qed.

Lemma interior_blocks_plug (k : ctx) (mid : list (Z * bool)) :
  interior_blocks (plug k mid) =
  interior_before k ++ place (hole k) mid ++ interior_after k (total mid).
Proof.
  unfold interior_blocks, plug, interior_before, interior_after, hole.
  rewrite bind_app, bind_cons. unfold interior at 2. simpl.
  rewrite !place_app, <- !app_assoc. repeat (f_equal; try lia).
Qed.

Lemma all_blocks_plug (k : ctx) (mid : list (Z * bool)) :
  all_blocks (plug k mid) =
  all_before k ++ place (hole k) mid ++ all_after k (total mid).
Proof.
  unfold all_blocks, plug, all_before, all_after, hole.
  rewrite bind_app, bind_cons, chunk_blocks_eq. unfold interior. simpl.
  rewrite !place_app, <- ?app_assoc. simpl. rewrite <- ?app_assoc. simpl.
  rewrite !total_app.
  unfold PAGE_OVERHEAD, PAGE_PAD, OVERHEAD.
  repeat (f_equal; try lia).
Qed.

Lemma free_addrs_plug (k : ctx) (mid : list (Z * bool)) :
  free_addrs (plug k mid) =
  addrs_of false (interior_before k) ++ addrs_of false (place (hole k) mid) ++
  addrs_of false (interior_after k (total mid)).
Proof. unfold free_addrs. by rewrite interior_blocks_plug, !addrs_of_app. Qed.

Lemma region_plug (k : ctx) (mid mid' : list (Z * bool)) :
  total mid' = total mid → region <$> plug k mid' = region <$> plug k mid.
Proof.
  intros E. unfold plug. rewrite !fmap_app, !fmap_cons. do 2 f_equal.
  unfold region. simpl. by rewrite !total_app, E.
Qed.

Lemma length_plug (k : ctx) (mid mid' : list (Z * bool)) :
  length (plug k mid') = length (plug k mid).
Proof. unfold plug. by rewrite !length_app. Qed.

Lemma heap_wf_plug (k : ctx) (mid mid' : list (Z * bool)) :
  total mid' = total mid → Forall block_ok mid' →
  heap_wf (plug k mid) → heap_wf (plug k mid').
Proof.
  intros E Hok [Hwf Hd]. split; [|by rewrite (region_plug k mid mid')].
  unfold plug in *. apply Forall_app in Hwf as [H1 [Hc H2]%Forall_cons].
  apply Forall_app. split; [done|]. apply Forall_cons. split; [|done].
  destruct Hc as (? & ? & Hbl & Ht). simpl in *.
  apply Forall_app in Hbl as [Hl [_ Hr]%Forall_app].
  split_and!; try done.
  - apply Forall_app. split; [done|]. apply Forall_app. done.
  - simpl. rewrite !total_app in *. lia.
Qed.

Lemma regions_disjoint_middle (l1 l2 : list (Z * Z)) (r : Z * Z) :
  regions_disjoint (l1 ++ r :: l2) → Forall (apart r) (l1 ++ l2).
Proof.
  induction l1 as [|x l1 IH]; simpl.
  - by intros [? _].
  - intros [Hx Hd]. apply Forall_cons. split; [|by apply IH].
    apply Forall_app in Hx as [_ [Hx _]%Forall_cons].
    destruct Hx; [by right|by left].
Qed.

Lemma hole_bounds (k : ctx) (mid : list (Z * bool)) :
  heap_wf (plug k mid) →
  x_base k + 32 ≤ hole k ∧
  hole k + total mid ≤ x_base k + 32 + total (x_left k ++ mid ++ x_right k) ∧
  hole k mod 16 = 0 ∧ 0 ≤ total mid ∧ total mid mod 16 = 0 ∧
  hole k + total mid < x_base k + 2 ^ 31 ∧ 0 < x_base k ∧
  0 ≤ total (x_right k).
Proof.
  intros [Hwf _]. unfold plug in Hwf.
  apply Forall_app in Hwf as [_ [Hc _]%Forall_cons].
  destruct Hc as (? & ? & Hbl & Ht). simpl in *.
  assert (∀ l, Forall block_ok l → 0 ≤ total l ∧ total l mod 16 = 0) as Htot.
  { induction 1 as [|x l [Hx Hx'] _ [IH1 IH2]]; simpl; [done|].
    unfold MIN_BLOCK_SIZE, ALIGNMENT, OVERHEAD in *. split; [lia|]. zmod. }
  apply Forall_app in Hbl as [Hl [Hm Hr]%Forall_app].
  destruct (Htot _ Hl), (Htot _ Hm), (Htot _ Hr).
  unfold hole, ALIGNMENT, PAGE_OVERHEAD, PAGE_PAD, OVERHEAD in *.
  rewrite !total_app in *. split_and!; try lia. zmod.
Qed.

Lemma chunk_in_plug (k : ctx) (mid : list (Z * bool)) :
  mkChunk (x_base k) (x_left k ++ mid ++ x_right k) ∈ plug k mid.
Proof. unfold plug. solve_elem. Qed.

(** Blocks outside the hole do not reach into it. *)
Lemma outside_hole (k : ctx) (mid : list (Z * bool)) (b : pblock) :
  heap_wf (plug k mid) →
  b ∈ all_before k ∨ b ∈ all_after k (total mid) →
  (b_addr b + b_size b ≤ hole k ∨ hole k + total mid ≤ b_addr b) ∧
  8 ≤ b_size b ∧ b_size b mod 8 = 0.
Proof.
  intros Hwf Hb.
  destruct (hole_bounds k mid Hwf) as (Hh1 & Hh2 & Hh3 & Hh4 & Hh5 & Hh6 & Hh7 & Hh8).
  assert (b ∈ all_blocks (plug k mid)) as Hin.
  { rewrite all_blocks_plug. solve_elem. }
  assert (8 ≤ b_size b ∧ b_size b mod 8 = 0) as [? ?].
  { destruct Hwf as [Hwf _]. rewrite Forall_forall in Hwf.
    apply list_elem_of_bind in Hin as (c & Hbc & Hc).
    destruct (block_props c b) as (? & ? & ? & ? & ? & ?); auto. }
  split; [|done].
  assert (∀ c, c ∈ x_before k ++ x_after k → b ∈ chunk_blocks c →
    b_addr b + b_size b ≤ hole k ∨ hole k + total mid ≤ b_addr b) as Hother.
  { intros c Hc Hbc. destruct Hwf as [Hwf Hd]. unfold plug in Hwf, Hd.
    rewrite fmap_app, fmap_cons in Hd.
    apply regions_disjoint_middle in Hd. rewrite <- fmap_app in Hd.
    rewrite Forall_forall in Hd.
    assert (apart (region (mkChunk (x_base k) (x_left k ++ mid ++ x_right k)))
                  (region c)) as Hap
      by (by apply Hd, list_elem_of_fmap_2).
    rewrite Forall_forall in Hwf.
    destruct (block_props c b) as (? & ? & ? & ? & ? & ?);
      [apply Hwf; solve_elem|done|].
    unfold apart, region, PAGE_OVERHEAD, PAGE_PAD, OVERHEAD in Hap. simpl in Hap.
    lia. }
  assert (Forall (λ x : Z * bool, 0 < x.1) (x_left k) ∧
          Forall (λ x : Z * bool, 0 < x.1) (x_right k)) as [Hpl Hpr].
  { destruct Hwf as [Hwf _]. unfold plug in Hwf.
    apply Forall_app in Hwf as [_ [Hc _]%Forall_cons].
    apply interior_positive in Hc. simpl in Hc.
    apply Forall_app in Hc as [? [_ ?]%Forall_app]. done. }
  unfold all_before, all_after in Hb.
  destruct Hb as [[Hb|[->|Hb]%elem_of_cons]%elem_of_app|
                  [Hb|[->|Hb]%elem_of_cons]%elem_of_app].
  - apply list_elem_of_bind in Hb as (c & ? & ?). apply (Hother c); [solve_elem|done].
  - simpl. lia.
  - apply place_bounds in Hb as (? & ? & _); [|done].
    unfold hole. left. lia.
  - apply place_bounds in Hb as (? & ? & _); [|done]. right. lia.
  - simpl. right. lia.
  - apply list_elem_of_bind in Hb as (c & ? & ?). apply (Hother c); [solve_elem|done].
Qed.

Lemma tag_ok_frame (k : ctx) (mid : list (Z * bool)) (m m' : gmap Z Z) (b : pblock) :
  heap_wf (plug k mid) →
  b ∈ all_before k ∨ b ∈ all_after k (total mid) →
  agree_outside (hole k - 8) (hole k + total mid - 8) m m' →
  tag_ok m b → tag_ok m' b.
Proof.
  intros Hwf Hb Hag [E1 E2].
  destruct (outside_hole k mid b Hwf Hb) as (Ho & ? & ?).
  unfold tag_ok, HDRP, OVERHEAD in *.
  rewrite !Hag; [done| |]; lia.
Qed.

Lemma total_ok (l : list (Z * bool)) :
  Forall block_ok l → 0 ≤ total l ∧ total l mod 16 = 0.
Proof.
  induction 1 as [|x l [Hx Hx'] _ [IH1 IH2]]; simpl; [done|].
  unfold MIN_BLOCK_SIZE, ALIGNMENT, OVERHEAD in *. split; [lia|]. zmod.
Qed.

Lemma plug_blocks_ok (k : ctx) (mid : list (Z * bool)) :
  heap_wf (plug k mid) →
  Forall block_ok (x_left k) ∧ Forall block_ok mid ∧ Forall block_ok (x_right k) ∧
  32 + total (x_left k) + total mid + total (x_right k) < 2 ^ 31.
Proof.
  intros [Hwf _]. unfold plug in Hwf.
  apply Forall_app in Hwf as [_ [Hc _]%Forall_cons].
  destruct Hc as (? & ? & Hbl & Ht). simpl in *.
  apply Forall_app in Hbl as [Hl [Hm Hr]%Forall_app].
  rewrite !total_app in Ht. unfold PAGE_OVERHEAD, PAGE_PAD, OVERHEAD in Ht.
  split_and!; try done. lia.
Qed.

(** The neighbours of the hole are blocks of the heap. *)
Lemma left_nb_block (k : ctx) (mid : list (Z * bool)) :
  heap_wf (plug k mid) →
  mkBlock (hole k - (left_nb k).1) (left_nb k).1 (left_nb k).2 ∈ all_before k ∧
  16 ≤ (left_nb k).1 < 2 ^ 31 ∧ (left_nb k).1 mod 16 = 0.
Proof.
  intros Hwf. destruct (plug_blocks_ok k mid Hwf) as (Hl & Hm & Hr & Ht).
  destruct (total_ok _ Hm) as [? _]. destruct (total_ok _ Hr) as [? _].
  unfold left_nb, all_before, hole.
  destruct (x_left k) as [|x l _] using rev_ind; simpl.
  - unfold PAGE_OVERHEAD, PAGE_PAD, OVERHEAD. simpl.
    split; [|split; [lia|done]]. apply elem_of_app. right. apply elem_of_cons. left.
    f_equal. lia.
  - rewrite last_snoc. simpl. apply Forall_app in Hl as [Hl [[? ?] _]%Forall_cons].
    destruct (total_ok _ Hl) as [? _].
    rewrite !total_app in *. simpl in *.
    unfold MIN_BLOCK_SIZE, ALIGNMENT, PAGE_OVERHEAD, PAGE_PAD, OVERHEAD in *.
    split; [|split; [lia|done]].
    apply elem_of_app. right. apply elem_of_cons. right.
    rewrite place_app. apply elem_of_app. right. simpl. apply elem_of_cons. left.
    destruct x. simpl. f_equal. lia.
Qed.

Lemma left_nb_free (k : ctx) :
  (left_nb k).2 = false →
  ∃ l, x_left k = l ++ [((left_nb k).1, false)].
Proof.
  unfold left_nb. destruct (x_left k) as [|x l _] using rev_ind; simpl; [done|].
  rewrite last_snoc. simpl. intros E. exists l. destruct x. simpl in *. by subst.
Qed.

Lemma left_nb_alloc (k : ctx) (l : list (Z * bool)) (x : Z * bool) :
  x_left k = l ++ [x] → left_nb k = x.
Proof. unfold left_nb. intros ->. by rewrite last_snoc. Qed.

Lemma right_nb_block (k : ctx) (mid : list (Z * bool)) :
  heap_wf (plug k mid) →
  mkBlock (hole k + total mid) (right_nb k).1 (right_nb k).2
    ∈ all_after k (total mid) ∧
  8 ≤ (right_nb k).1 < 2 ^ 31 ∧ (right_nb k).1 mod 8 = 0 ∧
  ((right_nb k).2 = false →
   x_right k = ((right_nb k).1, false) :: tl (x_right k) ∧
   32 ≤ (right_nb k).1 ∧ (right_nb k).1 mod 16 = 0).
Proof.
  intros Hwf. destruct (plug_blocks_ok k mid Hwf) as (Hl & Hm & Hr & Ht).
  destruct (total_ok _ Hm) as [? _]. destruct (total_ok _ Hl) as [? _].
  unfold right_nb, all_after.
  destruct (x_right k) as [|[sz al] l]; simpl.
  - split_and!; try done; try lia. apply elem_of_cons. left. f_equal. lia.
  - apply Forall_cons in Hr as [[? ?] Hr]. destruct (total_ok _ Hr) as [? _].
    simpl in *. unfold MIN_BLOCK_SIZE, ALIGNMENT, PAGE_OVERHEAD, PAGE_PAD, OVERHEAD in *.
    split_and!; try lia; try zmod.
    + apply elem_of_cons. by left.
    + intros ->. split_and!; try done; lia.
Qed.

(** ** Preservation of the representation *)

Lemma rep_heap_wf (s : state) (H : list chunk) (fl : list Z) :
  heap_rep s H fl → heap_wf H.
Proof. intros []. by split. Qed.

Lemma rep_tag (s : state) (H : list chunk) (fl : list Z) (b : pblock) :
  heap_rep s H fl → b ∈ all_blocks H →
  rd (mem s) (HDRP (b_addr b)) = tag (b_size b) (b_alloc b) ∧
  rd (mem s) (b_addr b + b_size b - OVERHEAD) = tag (b_size b) (b_alloc b).
Proof. intros [] Hb. rewrite Forall_forall in rep_tags0. by apply rep_tags0. Qed.

Lemma rep_tag_accessible (s : state) (H : list chunk) (fl : list Z) (b : pblock) :
  heap_rep s H fl → b ∈ all_blocks H →
  accessible (mapped s) (HDRP (b_addr b)) = true ∧
  accessible (mapped s) (b_addr b + b_size b - OVERHEAD) = true.
Proof.
  intros Hrep Hb. rewrite (rep_mapped _ _ _ Hrep).
  apply tags_accessible; [by eapply rep_heap_wf|done].
Qed.

(** Tags are not fields of free-list nodes. *)
Lemma tag_cells_off_nodes (H : list chunk) (l : list Z) (b : pblock) :
  heap_wf H → b ∈ all_blocks H → (∀ a, a ∈ l → a ∈ free_addrs H) →
  off_nodes l (HDRP (b_addr b)) ∧ off_nodes l (b_addr b + b_size b - OVERHEAD).
Proof.
  intros Hwf Hb Hl.
  assert (∀ a, a ∈ l →
    (HDRP (b_addr b) ≠ next_field a ∧ HDRP (b_addr b) ≠ prev_field a) ∧
    (b_addr b + b_size b - OVERHEAD ≠ next_field a ∧
     b_addr b + b_size b - OVERHEAD ≠ prev_field a)) as Hall.
  { intros a Ha. apply Hl in Ha as (ba & Hba & <- & _)%elem_of_addrs_of.
    destruct (interior_block_props H ba Hwf Hba) as (? & ? & ? & ?).
    assert (8 ≤ b_size b) as Hsz.
    { destruct Hwf as [Hwf' _]. rewrite Forall_forall in Hwf'.
      apply list_elem_of_bind in Hb as (c & Hbc & Hc).
      destruct (block_props c b) as (? & ? & ? & ? & ? & ?); auto. }
    unfold HDRP, OVERHEAD, next_field, prev_field.
    destruct (heap_blocks_apart H b ba Hwf Hb) as [->|?];
      [by apply interior_in_all| |]; lia. }
  split; intros a Ha; apply (Hall a Ha).
Qed.

(** A step that writes fields of free-list nodes only. *)
Lemma rep_list_phase (s s' : state) (H : list chunk) (fl fl' l : list Z) :
  heap_rep s H fl → same_globals s s' →
  (∀ y, off_nodes l y → rd (mem s') y = rd (mem s) y) →
  (∀ a, a ∈ l → a ∈ free_addrs H) →
  dseg (mem s') 0 fl' 0 → free_list s' = hd 0 fl' →
  heap_rep s' H fl'.
Proof.
  intros Hrep (Em & En & _) Hfr Hl Hd Hh.
  pose proof (rep_heap_wf _ _ _ Hrep) as Hwf. destruct Hrep.
  split; try done; try congruence.
  rewrite Forall_forall in rep_tags0 |- *. intros b Hb.
  destruct (tag_cells_off_nodes H l b Hwf Hb Hl) as [O1 O2].
  destruct (rep_tags0 b Hb) as [E1 E2].
  unfold tag_ok. by rewrite !Hfr.
Qed.

(** A step that rewrites the tags of the blocks in the hole. *)
Lemma rep_tag_phase (s s' : state) (k : ctx) (mid mid' : list (Z * bool)) (fl : list Z) :
  heap_rep s (plug k mid) fl → same_globals s s' → free_list s' = free_list s →
  total mid' = total mid → Forall block_ok mid' →
  agree_outside (hole k - 8) (hole k + total mid - 8) (mem s) (mem s') →
  (∀ a, a ∈ fl → rd (mem s') (next_field a) = rd (mem s) (next_field a) ∧
                 rd (mem s') (prev_field a) = rd (mem s) (prev_field a)) →
  Forall (tag_ok (mem s')) (place (hole k) mid') →
  heap_rep s' (plug k mid') fl.
Proof.
  intros Hrep (Em & En & _) Hfl Et Hok Hag Hnodes Htags.
  pose proof (rep_heap_wf _ _ _ Hrep) as Hwf. destruct Hrep.
  pose proof (heap_wf_plug k mid mid' Et Hok Hwf) as [Hwf1 Hwf2].
  split; try done.
  - by rewrite Em, rep_mapped0, (region_plug k mid mid').
  - rewrite all_blocks_plug in rep_tags0 |- *. rewrite Et.
    apply Forall_app in rep_tags0 as [T1 [_ T2]%Forall_app].
    apply Forall_app. split; [|apply Forall_app; split; [done|]].
    + rewrite Forall_forall in T1 |- *. intros b Hb.
      eapply tag_ok_frame; eauto.
    + rewrite Forall_forall in T2 |- *. intros b Hb.
      eapply tag_ok_frame; eauto.
  - eapply dseg_agree; [|done]. done.
  - congruence.
  - by rewrite En, rep_count0, (length_plug k mid mid').
  - by rewrite (length_plug k mid mid').
Qed.

(** Free blocks outside the hole keep their nodes out of it. *)
Lemma free_outside (k : ctx) (mid : list (Z * bool)) (al : bool) (a : Z) :
  heap_wf (plug k mid) →
  a ∈ addrs_of al (interior_before k) ∨
  a ∈ addrs_of al (interior_after k (total mid)) →
  a + 32 ≤ hole k ∨ hole k + total mid ≤ a.
Proof.
  intros Hwf Ha.
  assert (∃ b, b_addr b = a ∧ b ∈ interior_blocks (plug k mid) ∧
               (b ∈ all_before k ∨ b ∈ all_after k (total mid)))
    as (b & <- & Hbi & Hb).
  { unfold interior_before, interior_after, all_before, all_after in *.
    rewrite interior_blocks_plug. unfold interior_before, interior_after.
    destruct Ha as [(b & Hb & ? & _)%elem_of_addrs_of|(b & Hb & ? & _)%elem_of_addrs_of];
      exists b; (split; [done|]); pose proof interior_in_all as Hsub; solve_elem. }
  destruct (interior_block_props _ b Hwf Hbi) as (? & ? & ? & ?).
  destruct (outside_hole k mid b Hwf Hb) as ([?|?] & ? & ?); lia.
Qed.

(** ** Freeing a block *)

(** What the tags of the hole and of its neighbours hold. *)
Lemma nb_facts (s : state) (k : ctx) (sz : Z) (al : bool) (fl : list Z) :
  heap_rep s (plug k [(sz, al)]) fl →
  (rd (mem s) (hole k - OVERHEAD) = tag (left_nb k).1 (left_nb k).2 ∧
   rd (mem s) (HDRP (hole k - (left_nb k).1)) = tag (left_nb k).1 (left_nb k).2 ∧
   rd (mem s) (HDRP (hole k)) = tag sz al ∧
   rd (mem s) (hole k + sz - OVERHEAD) = tag sz al ∧
   rd (mem s) (HDRP (hole k + sz)) = tag (right_nb k).1 (right_nb k).2) ∧
  (accessible (mapped s) (hole k - OVERHEAD) = true ∧
   accessible (mapped s) (HDRP (hole k - (left_nb k).1)) = true ∧
   accessible (mapped s) (HDRP (hole k)) = true ∧
   accessible (mapped s) (hole k + sz - OVERHEAD) = true ∧
   accessible (mapped s) (HDRP (hole k + sz)) = true ∧
   accessible (mapped s) (hole k + sz + (right_nb k).1 - OVERHEAD) = true ∧
   accessible (mapped s) (next_field (hole k)) = true ∧
   accessible (mapped s) (prev_field (hole k)) = true) ∧
  (32 ≤ sz ∧ sz mod 16 = 0 ∧
   16 ≤ (left_nb k).1 ∧ (left_nb k).1 mod 16 = 0 ∧
   8 ≤ (right_nb k).1 ∧ (right_nb k).1 mod 8 = 0 ∧
   (left_nb k).1 + sz + (right_nb k).1 < 2 ^ 31 ∧
   0 < hole k - (left_nb k).1 ∧ hole k mod 16 = 0).
Proof.
  intros Hrep. pose proof (rep_heap_wf _ _ _ Hrep) as Hwf.
  destruct (left_nb_block k _ Hwf) as (HL & HL1 & HL2).
  destruct (right_nb_block k _ Hwf) as (HR & HR1 & HR2 & HR3).
  destruct (plug_blocks_ok k _ Hwf) as (Hl & [[Hm1 Hm2] _]%Forall_cons & Hr & Ht).
  destruct (hole_bounds k _ Hwf) as (Hh1 & Hh2 & Hh3 & Hh4 & Hh5 & Hh6 & Hh7 & Hh8).
  simpl in *. rewrite ?Z.add_0_r in *.
  unfold MIN_BLOCK_SIZE, ALIGNMENT, OVERHEAD in Hm1, Hm2.
  assert (mkBlock (hole k) sz al ∈ all_blocks (plug k [(sz, al)])) as HB.
  { rewrite all_blocks_plug. simpl. solve_elem. }
  assert (mkBlock (hole k - (left_nb k).1) (left_nb k).1 (left_nb k).2
            ∈ all_blocks (plug k [(sz, al)])) as HL'.
  { rewrite all_blocks_plug. solve_elem. }
  assert (mkBlock (hole k + sz) (right_nb k).1 (right_nb k).2
            ∈ all_blocks (plug k [(sz, al)])) as HR'.
  { rewrite all_blocks_plug. simpl. rewrite ?Z.add_0_r. solve_elem. }
  destruct (rep_tag _ _ _ _ Hrep HB) as [TB1 TB2].
  destruct (rep_tag _ _ _ _ Hrep HL') as [TL1 TL2].
  destruct (rep_tag _ _ _ _ Hrep HR') as [TR1 TR2].
  destruct (rep_tag_accessible _ _ _ _ Hrep HB) as [AB1 AB2].
  destruct (rep_tag_accessible _ _ _ _ Hrep HL') as [AL1 AL2].
  destruct (rep_tag_accessible _ _ _ _ Hrep HR') as [AR1 AR2].
  simpl in *.
  replace (hole k - (left_nb k).1 + (left_nb k).1 - OVERHEAD)
    with (hole k - OVERHEAD) in * by lia.
  assert (mkBlock (hole k) sz al ∈ interior_blocks (plug k [(sz, al)])) as HBi.
  { rewrite interior_blocks_plug. simpl. solve_elem. }
  assert (0 ≤ total (x_left k)) by (by apply total_ok).
  assert ((left_nb k).1 ≤ 16 + total (x_left k)).
  { unfold left_nb. destruct (x_left k) as [|x l _] using rev_ind; simpl.
    - unfold OVERHEAD. lia.
    - rewrite last_snoc, total_app. simpl.
      apply Forall_app in Hl as [Hl' _]. apply total_ok in Hl'. lia. }
  assert ((right_nb k).1 ≤ 8 + total (x_right k)).
  { unfold right_nb. destruct (x_right k) as [|x l]; simpl; [lia|].
    apply Forall_cons in Hr as [_ Hr']. apply total_ok in Hr'. lia. }
  split_and!; try done; try lia.
  - rewrite (rep_mapped _ _ _ Hrep).
    apply (payload_accessible _ (mkBlock (hole k) sz al)); try done;
      unfold next_field; simpl; try lia; zmod.
  - rewrite (rep_mapped _ _ _ Hrep).
    apply (payload_accessible _ (mkBlock (hole k) sz al)); try done;
      unfold prev_field; simpl; try lia; zmod.
  - unfold hole in *. unfold PAGE_OVERHEAD, PAGE_PAD, OVERHEAD in *. lia.
Qed.

Lemma addrs_of_cons (al : bool) (b : pblock) (l : list pblock) :
  addrs_of al (b :: l) =
  if Bool.eqb (b_alloc b) al then b_addr b :: addrs_of al l else addrs_of al l.
Proof.
  unfold addrs_of. rewrite filter_cons.
  destruct (b_alloc b), al; simpl; done.
Qed.

Lemma addrs_of_hole (k : ctx) (sz : Z) (al al' : bool) :
  addrs_of al (place (hole k) [(sz, al')]) = if Bool.eqb al' al then [hole k] else [].
Proof.
  unfold addrs_of. simpl. rewrite filter_cons. simpl.
  destruct al, al'; simpl; done.
Qed.

(** The free list while the blocks in the hole are being rewritten: the
    list holds the free blocks of [plug k mid0], memory the tags of
    [plug k mid]. *)
Lemma fl_facts (s : state) (k : ctx) (mid mid0 : list (Z * bool)) (fl : list Z) :
  heap_rep s (plug k mid) fl →
  fl ≡ₚ free_addrs (plug k mid0) →
  total mid0 = total mid → Forall block_ok mid0 →
  nodes_accessible (mapped s) fl ∧ nodes_apart fl ∧
  (∀ a, a ∈ fl → a ∈ addrs_of false (place (hole k) mid0) ∨
                 a ∈ addrs_of false (interior_before k) ∨
                 a ∈ addrs_of false (interior_after k (total mid))) ∧
  (∀ a, a ∈ fl → a ∈ addrs_of false (place (hole k) mid0) ∨
                 a + 32 ≤ hole k ∨ hole k + total mid ≤ a).
Proof.
  intros Hrep Hp Et Hok. pose proof (rep_heap_wf _ _ _ Hrep) as Hwf.
  assert (heap_wf (plug k mid0)) as Hwf0 by (by eapply heap_wf_plug).
  assert (∀ a, a ∈ fl → a ∈ addrs_of false (place (hole k) mid0) ∨
                        a ∈ addrs_of false (interior_before k) ∨
                        a ∈ addrs_of false (interior_after k (total mid))) as Hin.
  { intros a Ha. rewrite Hp, free_addrs_plug, Et in Ha. solve_elem. }
  split_and!; try done.
  - intros a Ha. rewrite (rep_mapped _ _ _ Hrep), (region_plug k mid0) by done.
    apply free_addrs_accessible; [done|]. by rewrite <- Hp.
  - eapply nodes_apart_perm; [symmetry; exact Hp|]. by apply free_addrs_apart.
  - intros a Ha. apply Hin in Ha.
    pose proof (free_outside k mid0 false a Hwf0) as Ho. rewrite Et in Ho.
    tauto.
Qed.

Lemma free_addrs_hole (k : ctx) (sz : Z) (a : Z) :
  a ∈ free_addrs (plug k [(sz, false)]) ↔
  a = hole k ∨ a ∈ addrs_of false (interior_before k) ∨
  a ∈ addrs_of false (interior_after k sz).
Proof.
  rewrite free_addrs_plug, addrs_of_hole. simpl. rewrite Z.add_0_r.
  rewrite ?elem_of_app, ?elem_of_cons, ?elem_of_nil. tauto.
Qed.

Lemma hole_block_ok (k : ctx) (sz : Z) (al al' : bool) :
  heap_wf (plug k [(sz, al)]) → Forall block_ok [(sz, al')].
Proof.
  intros Hwf. destruct (plug_blocks_ok k _ Hwf) as (_ & [Hb _]%Forall_cons & _).
  apply Forall_cons. split; [exact Hb|constructor].
Qed.

(** Case 1 of the table: both neighbours are allocated. *)
Lemma coalesce_nn (s : state) (k : ctx) (sz : Z) (fl : list Z) :
  heap_rep s (plug k [(sz, false)]) fl →
  fl ≡ₚ free_addrs (plug k [(sz, true)]) →
  (left_nb k).2 = true → (right_nb k).2 = true →
  ∃ s', coalesce (hole k) s = Ok (hole k, s') ∧
        heap_rep s' (plug k [(sz, false)]) (hole k :: fl) ∧
        same_globals s s'.
Proof.
  intros Hrep Hp HLa HRa.
  destruct (nb_facts _ _ _ _ _ Hrep) as
    ((TL2 & TL1 & TB1 & TB2 & TR1) & (AL2 & AL1 & AB1 & AB2 & AR1 & AR2 & AN & AP) &
     (? & ? & ? & ? & ? & ? & ? & ? & ?)).
  destruct (fl_facts _ _ _ [(sz, true)] _ Hrep Hp) as (Hacc & Hap & Hin & Hout);
    [done|by apply (hole_block_ok k sz false), (rep_heap_wf _ _ _ Hrep)|].
  rewrite addrs_of_hole in Hin, Hout. simpl in Hin, Hout. rewrite Z.add_0_r in *.
  rewrite HLa in *. rewrite HRa in *.
  unfold coalesce.
  mstep. rewrite TL2, size_of_tag by lia.
  mstep. rewrite TB1, size_of_tag by lia.
  mstep. rewrite TL1, alloc_of_tag by zmod.
  mstep. rewrite TR1, alloc_of_tag by zmod.
  mstep. mstep. mstep. simpl.
  destruct (add_free_spec s fl (hole k)) as (s' & E & Hd & Hh & Hg & Hfr);
    try done.
  { apply (rep_links _ _ _ Hrep). }
  { apply (rep_head _ _ _ Hrep). }
  { lia. }
  { intros a Ha. destruct (Hout a Ha) as [?%elem_of_nil|?]; [done|lia]. }
  rewrite (bind_ok _ _ _ _ _ E). exists s'. split; [done|]. split; [|done].
  eapply rep_list_phase; try done.
  intros a Ha. apply free_addrs_hole. apply elem_of_cons in Ha as [->|Ha]; [auto|].
  destruct (Hin a Ha) as [?%elem_of_nil|?]; [done|auto].
Qed.

(** Moving the last block before the hole, or the first one after it,
    into the hole. *)
Lemma plug_left (k : ctx) (l : list (Z * bool)) (x : Z * bool) (mid : list (Z * bool)) :
  x_left k = l ++ [x] →
  let k' := mkCtx (x_before k) (x_base k) l (x_right k) (x_after k) in
  plug k mid = plug k' (x :: mid) ∧ hole k' = hole k - x.1.
Proof.
  intros E. unfold plug, hole. simpl. rewrite E, total_app, <- app_assoc. simpl.
  split; [done|lia].
Qed.

Lemma plug_right (k : ctx) (x : Z * bool) (r : list (Z * bool)) (mid : list (Z * bool)) :
  x_right k = x :: r →
  let k' := mkCtx (x_before k) (x_base k) (x_left k) r (x_after k) in
  plug k mid = plug k' (mid ++ [x]) ∧ hole k' = hole k.
Proof.
  intros E. unfold plug, hole. simpl. rewrite E, <- app_assoc. simpl. done.
Qed.

Lemma size_of_PACK0 (sz : Z) :
  0 ≤ sz < 2 ^ 63 → sz mod 16 = 0 → Z.land (PACK sz 0) (wrap64 (Z.lnot 15)) = sz.
Proof. apply (size_of_tag sz false). Qed.

Lemma size_of_PACK1 (sz : Z) :
  0 ≤ sz < 2 ^ 63 → sz mod 16 = 0 → Z.land (PACK sz 1) (wrap64 (Z.lnot 15)) = sz.
Proof. apply (size_of_tag sz true). Qed.

(** Case 2 of the table: only the left neighbour is free. *)
Lemma coalesce_fn (s : state) (k : ctx) (l : list (Z * bool)) (lsz sz : Z) (fl : list Z) :
  heap_rep s (plug k [(sz, false)]) fl →
  fl ≡ₚ free_addrs (plug k [(sz, true)]) →
  x_left k = l ++ [(lsz, false)] → (right_nb k).2 = true →
  let k' := mkCtx (x_before k) (x_base k) l (x_right k) (x_after k) in
  ∃ s', coalesce (hole k) s = Ok (hole k', s') ∧
        heap_rep s' (plug k' [(lsz + sz, false)]) fl ∧
        free_list s' = free_list s ∧
        same_globals s s'.
Proof.
  intros Hrep Hp El HRa k'.
  destruct (nb_facts _ _ _ _ _ Hrep) as
    ((TL2 & TL1 & TB1 & TB2 & TR1) & (AL2 & AL1 & AB1 & AB2 & AR1 & AR2 & AN & AP) &
     (? & ? & ? & ? & ? & ? & ? & ? & ?)).
  rewrite (left_nb_alloc k l _ El) in *. rewrite HRa in *. simpl in *.
  destruct (plug_left k l (lsz, false) [(sz, false)] El) as [Epl Eh].
  destruct (plug_left k l (lsz, false) [(sz, true)] El) as [Epl0 _].
  fold k' in Epl, Epl0, Eh. simpl in Eh.
  rewrite Epl in Hrep. rewrite Epl0 in Hp.
  pose proof (rep_heap_wf _ _ _ Hrep) as Hwf.
  destruct (fl_facts _ _ _ [(lsz, false); (sz, true)] _ Hrep Hp)
    as (Hacc & Hap & Hin & Hout); [done| |].
  { destruct (plug_blocks_ok k' _ Hwf) as (_ & Hmid & _).
    apply Forall_cons in Hmid as [Hb1 [Hb2 _]%Forall_cons].
    apply Forall_cons. split; [exact Hb1|].
    apply Forall_cons. split; [exact Hb2|constructor]. }
  unfold coalesce.
  mstep. rewrite TL2, size_of_tag by lia.
  mstep. rewrite TB1, size_of_tag by lia.
  mstep. rewrite TL1, alloc_of_tag by zmod.
  mstep. rewrite TR1, alloc_of_tag by zmod.
  mstep. rewrite TB1, size_of_tag by lia.
  mstep. rewrite TL1, size_of_tag by lia.
  mstep. simpl.
  rewrite (wrap64_small (lsz + sz)) by lia.
  mstep. mstep. rd_simpl. rewrite size_of_PACK0 by (try lia; zmod).
  mstep. rewrite mret_ok. rewrite <- Eh.
  eexists. split; [reflexivity|].
  split; [|split; [done|by repeat split]].
  eapply (rep_tag_phase s _ k' [(lsz, false); (sz, false)] [(lsz + sz, false)]);
    try done.
  - simpl. lia.
  - repeat constructor; unfold MIN_BLOCK_SIZE, OVERHEAD, ALIGNMENT; simpl; [lia|zmod].
  - intros y Hy. msimpl. simpl in Hy. unfold HDRP, OVERHEAD. by rd_simpl.
  - intros a Ha. msimpl. unfold HDRP, OVERHEAD, next_field, prev_field.
    destruct (Hout a Ha) as [Hh|Ho].
    + simpl in Hh. rewrite !addrs_of_cons in Hh. simpl in Hh.
      apply list_elem_of_singleton in Hh as ->. by rd_simpl.
    + simpl in Ho. by rd_simpl.
  - repeat constructor; msimpl; simpl; unfold HDRP, OVERHEAD; by rd_simpl.
Qed.

Lemma filter_all {A} (P : A → Prop) `{∀ x, Decision (P x)} (l : list A) :
  (∀ x, x ∈ l → P x) → filter P l = l.
Proof.
  induction l as [|x l IH]; intros Hl; [done|].
  rewrite filter_cons_True by (apply Hl; by left).
  f_equal. apply IH. intros y Hy. apply Hl. by right.
Qed.

Lemma unlink_middle (l1 l2 : list Z) (a : Z) :
  NoDup (l1 ++ a :: l2) → unlink a (l1 ++ a :: l2) = l1 ++ l2.
Proof.
  intros Hnd. apply NoDup_app in Hnd as (_ & Hd & [Hni _]%NoDup_cons).
  unfold unlink. rewrite filter_app, filter_cons_False by (intros ?; done).
  rewrite !filter_all; [done| |].
  all: intros x Hx ->; try done; apply (Hd a Hx); by left.
Qed.

Lemma right_nb_cons (k : ctx) (x : Z * bool) (r : list (Z * bool)) :
  x_right k = x :: r → right_nb k = x.
Proof. unfold right_nb. by intros ->. Qed.

(** Case 3 of the table: only the right neighbour is free. *)
Lemma coalesce_nf (s : state) (k : ctx) (r : list (Z * bool)) (rsz sz : Z) (fl : list Z) :
  heap_rep s (plug k [(sz, false)]) fl →
  fl ≡ₚ free_addrs (plug k [(sz, true)]) →
  (left_nb k).2 = true → x_right k = (rsz, false) :: r →
  let k' := mkCtx (x_before k) (x_base k) (x_left k) r (x_after k) in
  ∃ s', coalesce (hole k) s = Ok (hole k', s') ∧
        heap_rep s' (plug k' [(sz + rsz, false)])
                 (hole k :: unlink (hole k + sz) fl) ∧
        same_globals s s'.
Proof.
  intros Hrep Hp HLa Er k'.
  destruct (nb_facts _ _ _ _ _ Hrep) as
    ((TL2 & TL1 & TB1 & TB2 & TR1) & (AL2 & AL1 & AB1 & AB2 & AR1 & AR2 & AN & AP) &
     (? & ? & ? & ? & ? & ? & ? & ? & ?)).
  destruct (right_nb_block k _ (rep_heap_wf _ _ _ Hrep)) as (_ & _ & _ & HR3).
  rewrite (right_nb_cons k _ _ Er) in *. rewrite HLa in *. simpl in *.
  destruct HR3 as (_ & ? & ?); [done|].
  destruct (plug_right k (rsz, false) r [(sz, false)] Er) as [Epl Eh].
  destruct (plug_right k (rsz, false) r [(sz, true)] Er) as [Epl0 _].
  fold k' in Epl, Epl0, Eh. simpl in Eh, Epl, Epl0.
  rewrite Epl in Hrep. rewrite Epl0 in Hp.
  pose proof (rep_heap_wf _ _ _ Hrep) as Hwf.
  destruct (fl_facts _ _ _ [(sz, true); (rsz, false)] _ Hrep Hp)
    as (Hacc & Hap & Hin & Hout); [done| |].
  { destruct (plug_blocks_ok k' _ Hwf) as (_ & Hmid & _).
    apply Forall_cons in Hmid as [Hb1 [Hb2 _]%Forall_cons].
    apply Forall_cons. split; [exact Hb1|].
    apply Forall_cons. split; [exact Hb2|constructor]. }
  simpl in Hin, Hout. rewrite !addrs_of_cons in Hin, Hout. simpl in Hin, Hout.
  rewrite Eh in *.
  unfold coalesce.
  mstep. rewrite TL2, size_of_tag by lia.
  mstep. rewrite TB1, size_of_tag by lia.
  mstep. rewrite TL1, alloc_of_tag by zmod.
  mstep. rewrite TR1, alloc_of_tag by zmod.
  mstep. rewrite TB1, size_of_tag by lia.
  mstep. rewrite TL1, size_of_tag by lia.
  mstep. rewrite TR1, size_of_tag by lia. simpl.
  rewrite (wrap64_small (sz + rsz)) by lia.
  mstep. mstep. rd_simpl. rewrite size_of_PACK0 by (try lia; zmod).
  mstep.
  lazymatch goal with |- context [mbind _ (del_free _) ?st] => set (s1 := st) end.
  assert (heap_rep s1 (plug k' [(sz + rsz, false)]) fl) as Hrep1.
  { eapply (rep_tag_phase s _ k' [(sz, false); (rsz, false)] [(sz + rsz, false)]);
      try done.
    - simpl. lia.
    - repeat constructor; unfold MIN_BLOCK_SIZE, OVERHEAD, ALIGNMENT; simpl; [lia|zmod].
    - intros y Hy. unfold s1. msimpl. simpl in Hy. unfold HDRP, OVERHEAD. by rd_simpl.
    - intros a Ha. unfold s1. msimpl. unfold HDRP, OVERHEAD, next_field, prev_field.
      destruct (Hout a Ha) as [Hh|Ho].
      + apply list_elem_of_singleton in Hh as ->. by rd_simpl.
      + simpl in Ho. by rd_simpl.
    - rewrite Eh. repeat constructor; unfold s1; msimpl; simpl; unfold HDRP, OVERHEAD;
        by rd_simpl. }
  assert (hole k + sz ∈ fl) as Hrin.
  { rewrite Hp. apply elem_of_addrs_of.
    exists (mkBlock (hole k + sz) rsz false). split; [|done].
    rewrite interior_blocks_plug. simpl. rewrite Eh. solve_elem. }
  apply list_elem_of_split in Hrin as (l1 & l2 & ->).
  rewrite unlink_middle by apply Hap.
  destruct (nodes_apart_middle _ _ _ Hap) as (Hap' & Hni & Hsep).
  destruct (del_free_spec s1 l1 (hole k + sz) l2) as (s2 & E2 & Hd2 & Hh2 & Hg2 & Hfr2).
  { apply (rep_links _ _ _ Hrep1). }
  { apply (rep_head _ _ _ Hrep1). }
  { done. }
  { done. }
  rewrite (bind_ok _ _ _ _ _ E2).
  assert (∀ a, a ∈ l1 ++ l2 →
            a ∈ addrs_of false (interior_before k') ∨
            a ∈ addrs_of false (interior_after k' (sz + rsz))) as Hin'.
  { intros a Ha. destruct (Hin a) as [Hh|Hh]; [solve_elem| |].
    - apply list_elem_of_singleton in Hh as ->. done.
    - simpl in Hh. rewrite Z.add_0_r in Hh. done. }
  assert (heap_rep s2 (plug k' [(sz + rsz, false)]) (l1 ++ l2)) as Hrep2.
  { eapply rep_list_phase; try done.
    intros a Ha. apply free_addrs_hole. auto. }
  destruct (add_free_spec s2 (l1 ++ l2) (hole k)) as (s3 & E3 & Hd3 & Hh3 & Hg3 & Hfr3);
    try done.
  { lia. }
  { by rewrite (proj1 Hg2). }
  { by rewrite (proj1 Hg2). }
  { intros a Ha. rewrite (proj1 Hg2). apply Hacc. solve_elem. }
  { intros a Ha. destruct (Hout a) as [Hh|Hh]; [solve_elem| |].
    - apply list_elem_of_singleton in Hh as ->. done.
    - simpl in Hh. lia. }
  rewrite (bind_ok _ _ _ _ _ E3). rewrite mret_ok.
  exists s3. split; [done|]. split.
  - eapply rep_list_phase; try done.
    intros a Ha. apply free_addrs_hole. rewrite Eh.
    apply elem_of_cons in Ha as [->|Ha]; auto.
  - eapply same_globals_trans; [|exact Hg3].
    eapply same_globals_trans; [|exact Hg2]. by repeat split.
Qed.

(** Case 4 of the table: both neighbours are free. *)
Lemma coalesce_ff (s : state) (k : ctx) (l r : list (Z * bool)) (lsz rsz sz : Z)
    (fl : list Z) :
  heap_rep s (plug k [(sz, false)]) fl →
  fl ≡ₚ free_addrs (plug k [(sz, true)]) →
  x_left k = l ++ [(lsz, false)] → x_right k = (rsz, false) :: r →
  let k' := mkCtx (x_before k) (x_base k) l r (x_after k) in
  ∃ s', coalesce (hole k) s = Ok (hole k', s') ∧
        heap_rep s' (plug k' [(lsz + sz + rsz, false)]) (unlink (hole k + sz) fl) ∧
        same_globals s s'.
Proof.
  intros Hrep Hp El Er k'.
  destruct (nb_facts _ _ _ _ _ Hrep) as
    ((TL2 & TL1 & TB1 & TB2 & TR1) & (AL2 & AL1 & AB1 & AB2 & AR1 & AR2 & AN & AP) &
     (? & ? & ? & ? & ? & ? & ? & ? & ?)).
  destruct (right_nb_block k _ (rep_heap_wf _ _ _ Hrep)) as (_ & _ & _ & HR3).
  rewrite (right_nb_cons k _ _ Er) in *. rewrite (left_nb_alloc k l _ El) in *.
  simpl in *. destruct HR3 as (_ & ? & ?); [done|].
  set (k1 := mkCtx (x_before k) (x_base k) (x_left k) r (x_after k)).
  assert (∀ al, plug k [(sz, al)] = plug k' [(lsz, false); (sz, al); (rsz, false)])
    as Epl.
  { intros al. destruct (plug_right k (rsz, false) r [(sz, al)] Er) as [E1 _].
    destruct (plug_left k1 l (lsz, false) [(sz, al); (rsz, false)] El) as [E2 _].
    rewrite E1. exact E2. }
  assert (hole k' = hole k - lsz) as Eh.
  { destruct (plug_left k1 l (lsz, false) [] El) as [_ E1].
    destruct (plug_right k (rsz, false) r [] Er) as [_ E2].
    etrans; [exact E1|]. simpl. by f_equal. }
  rewrite Epl in Hrep. rewrite Epl in Hp.
  pose proof (rep_heap_wf _ _ _ Hrep) as Hwf.
  destruct (fl_facts _ _ _ [(lsz, false); (sz, true); (rsz, false)] _ Hrep Hp)
    as (Hacc & Hap & Hin & Hout); [done| |].
  { destruct (plug_blocks_ok k' _ Hwf) as (_ & Hmid & _).
    apply Forall_cons in Hmid as [Hb1 [Hb2 [Hb3 _]%Forall_cons]%Forall_cons].
    apply Forall_cons. split; [exact Hb1|].
    apply Forall_cons. split; [exact Hb2|].
    apply Forall_cons. split; [exact Hb3|constructor]. }
  simpl in Hin, Hout. rewrite !addrs_of_cons in Hin, Hout. simpl in Hin, Hout.
  rewrite Eh in *.
  replace (hole k - lsz + lsz) with (hole k) in * by lia.
  unfold coalesce.
  mstep. rewrite TL2, size_of_tag by lia.
  mstep. rewrite TB1, size_of_tag by lia.
  mstep. rewrite TL1, alloc_of_tag by zmod.
  mstep. rewrite TR1, alloc_of_tag by zmod.
  mstep. rewrite TB1, size_of_tag by lia.
  mstep. rewrite TL1, size_of_tag by lia.
  mstep. rewrite TR1, size_of_tag by lia. simpl.
  rewrite (wrap64_small (lsz + sz)) by lia.
  rewrite (wrap64_small (lsz + sz + rsz)) by lia.
  mstep. mstep. rd_simpl. rewrite size_of_PACK0 by (try lia; zmod).
  mstep.
  lazymatch goal with |- context [mbind _ (del_free _) ?st] => set (s1 := st) end.
  assert (heap_rep s1 (plug k' [(lsz + sz + rsz, false)]) fl) as Hrep1.
  { eapply (rep_tag_phase s _ k' [(lsz, false); (sz, false); (rsz, false)]
                          [(lsz + sz + rsz, false)]);
      try done.
    - simpl. lia.
    - repeat constructor; unfold MIN_BLOCK_SIZE, OVERHEAD, ALIGNMENT; simpl; [lia|zmod].
    - intros y Hy. unfold s1. msimpl. simpl in Hy. rewrite Eh in Hy.
      unfold HDRP, OVERHEAD. by rd_simpl.
    - intros a Ha. unfold s1. msimpl. unfold HDRP, OVERHEAD, next_field, prev_field.
      destruct (Hout a Ha) as [Hh|Ho].
      + apply elem_of_cons in Hh as [->|Hh];
          [|apply list_elem_of_singleton in Hh as ->]; by rd_simpl.
      + simpl in Ho. by rd_simpl.
    - rewrite Eh. repeat constructor; unfold s1; msimpl; simpl; unfold HDRP, OVERHEAD;
        by rd_simpl. }
  assert (hole k + sz ∈ fl) as Hrin.
  { rewrite Hp. apply elem_of_addrs_of.
    exists (mkBlock (hole k + sz) rsz false). split; [|done].
    rewrite interior_blocks_plug. simpl. rewrite Eh.
    replace (hole k - lsz + lsz + sz) with (hole k + sz) by lia. solve_elem. }
  apply list_elem_of_split in Hrin as (l1 & l2 & ->).
  rewrite unlink_middle by apply Hap.
  destruct (nodes_apart_middle _ _ _ Hap) as (Hap' & Hni & Hsep).
  destruct (del_free_spec s1 l1 (hole k + sz) l2) as (s2 & E2 & Hd2 & Hh2 & Hg2 & Hfr2).
  { apply (rep_links _ _ _ Hrep1). }
  { apply (rep_head _ _ _ Hrep1). }
  { done. }
  { done. }
  rewrite (bind_ok _ _ _ _ _ E2). rewrite mret_ok.
  exists s2. split; [done|]. split.
  - eapply rep_list_phase; try done.
    intros a Ha. apply free_addrs_hole. rewrite Eh.
    destruct (Hin a) as [Hh|Hh]; [solve_elem| |].
    + apply elem_of_cons in Hh as [->|Hh]; [by left|].
      apply list_elem_of_singleton in Hh as ->.
      exfalso. apply Hni. done.
    + right. simpl in Hh. rewrite Z.add_0_r in Hh.
      replace (sz + rsz) with (sz + rsz) in Hh by lia.
      replace (lsz + sz + rsz) with (lsz + (sz + rsz)) by lia. done.
  - eapply same_globals_trans; [|exact Hg2]. by repeat split.
Qed.

(** ** Adjacent free blocks *)

Lemma no_adjacent_free_cons (x : Z * bool) (l : list (Z * bool)) :
  no_adjacent_free (x :: l) ↔
  (x.2 = true ∨ (hd terminator l).2 = true) ∧ no_adjacent_free l.
Proof. destruct l as [|y l]; simpl; tauto. Qed.

Lemma no_adjacent_free_app (l1 l2 : list (Z * bool)) :
  no_adjacent_free (l1 ++ l2) ↔
  no_adjacent_free l1 ∧ no_adjacent_free l2 ∧
  ((default sentinel (last l1)).2 = true ∨ (hd terminator l2).2 = true).
Proof.
  induction l1 as [|x l1 IH].
  - simpl. tauto.
  - change ((x :: l1) ++ l2) with (x :: (l1 ++ l2)).
    rewrite !no_adjacent_free_cons, IH.
    destruct l1 as [|y l1].
    + simpl. tauto.
    + rewrite last_cons_cons. simpl hd. tauto.
Qed.

Lemma no_adjacent_plug (k : ctx) (mid : list (Z * bool)) :
  Forall (λ c, no_adjacent_free (c_blocks c)) (plug k mid) ↔
  Forall (λ c, no_adjacent_free (c_blocks c)) (x_before k) ∧
  no_adjacent_free (x_left k ++ mid ++ x_right k) ∧
  Forall (λ c, no_adjacent_free (c_blocks c)) (x_after k).
Proof. unfold plug. rewrite Forall_app, Forall_cons. simpl. tauto. Qed.

(** A single block in the hole: what "no two adjacent free blocks" says. *)
Lemma no_adjacent_hole (k : ctx) (sz : Z) (al : bool) :
  no_adjacent_free (x_left k ++ [(sz, al)] ++ x_right k) ↔
  no_adjacent_free (x_left k) ∧ no_adjacent_free (x_right k) ∧
  ((left_nb k).2 = true ∨ al = true) ∧ (al = true ∨ (right_nb k).2 = true).
Proof.
  rewrite no_adjacent_free_app. simpl app.
  rewrite no_adjacent_free_cons. unfold left_nb, right_nb. simpl. tauto.
Qed.

(** ** The free list after coalescing *)

Lemma unlink_perm (fl l1 l2 : list Z) (a : Z) :
  fl ≡ₚ l1 ++ a :: l2 → NoDup fl → unlink a fl ≡ₚ l1 ++ l2.
Proof.
  intros Hp Hnd. unfold unlink. rewrite Hp.
  rewrite Hp in Hnd. by rewrite <- (unlink_middle l1 l2 a Hnd).
Qed.

Lemma free_addrs_plug1 (k : ctx) (sz : Z) (al : bool) :
  free_addrs (plug k [(sz, al)]) =
  addrs_of false (interior_before k) ++
  (if al then [] else [hole k]) ++ addrs_of false (interior_after k sz).
Proof.
  rewrite free_addrs_plug. simpl. rewrite addrs_of_cons, Z.add_0_r. simpl.
  by destruct al.
Qed.

Lemma perm_nn (k : ctx) (sz : Z) (fl : list Z) :
  fl ≡ₚ free_addrs (plug k [(sz, true)]) →
  hole k :: fl ≡ₚ free_addrs (plug k [(sz, false)]).
Proof.
  rewrite !free_addrs_plug1. simpl. intros ->. by rewrite Permutation_middle.
Qed.

Lemma perm_fn (k : ctx) (l : list (Z * bool)) (lsz sz : Z) (fl : list Z) :
  x_left k = l ++ [(lsz, false)] →
  fl ≡ₚ free_addrs (plug k [(sz, true)]) →
  fl ≡ₚ free_addrs
         (plug (mkCtx (x_before k) (x_base k) l (x_right k) (x_after k))
               [(lsz + sz, false)]).
Proof.
  intros El. destruct (plug_left k l (lsz, false) [(sz, true)] El) as [-> Eh].
  intros ->. rewrite free_addrs_plug1, free_addrs_plug. cbn [place fst snd].
  rewrite !addrs_of_cons. simpl. by rewrite Z.add_0_r.
Qed.

Lemma perm_nf (k : ctx) (r : list (Z * bool)) (rsz sz : Z) (fl : list Z) :
  x_right k = (rsz, false) :: r → NoDup fl →
  fl ≡ₚ free_addrs (plug k [(sz, true)]) →
  hole k :: unlink (hole k + sz) fl ≡ₚ
  free_addrs
    (plug (mkCtx (x_before k) (x_base k) (x_left k) r (x_after k))
          [(sz + rsz, false)]).
Proof.
  intros Er Hnd. destruct (plug_right k (rsz, false) r [(sz, true)] Er) as [-> Eh].
  rewrite free_addrs_plug1, free_addrs_plug. cbn [place fst snd app].
  rewrite !addrs_of_cons. simpl. rewrite Z.add_0_r, Eh. intros Hp.
  rewrite (unlink_perm fl _ _ _ Hp Hnd). by rewrite Permutation_middle.
Qed.

Lemma perm_ff (k : ctx) (l r : list (Z * bool)) (lsz rsz sz : Z) (fl : list Z) :
  x_left k = l ++ [(lsz, false)] → x_right k = (rsz, false) :: r → NoDup fl →
  fl ≡ₚ free_addrs (plug k [(sz, true)]) →
  unlink (hole k + sz) fl ≡ₚ
  free_addrs
    (plug (mkCtx (x_before k) (x_base k) l r (x_after k))
          [(lsz + sz + rsz, false)]).
Proof.
  intros El Er Hnd.
  destruct (plug_right k (rsz, false) r [(sz, true)] Er) as [-> Eh1].
  set (k1 := mkCtx (x_before k) (x_base k) (x_left k) r (x_after k)) in *.
  destruct (plug_left k1 l (lsz, false) ([(sz, true)] ++ [(rsz, false)]) El) as [-> Eh2].
  simpl in *.
  rewrite free_addrs_plug1, free_addrs_plug. cbn [place fst snd app].
  rewrite !addrs_of_cons. simpl. rewrite Z.add_0_r, Eh2, Eh1. intros Hp.
  replace (hole k - lsz + lsz + sz) with (hole k + sz) in Hp by lia.
  replace (lsz + (sz + rsz)) with (lsz + sz + rsz) in Hp by lia.
  match type of Hp with _ ≡ₚ ?A ++ ?x :: ?a :: ?B =>
    assert (fl ≡ₚ (A ++ [x]) ++ a :: B) as Hp'
      by (by rewrite <- app_assoc);
    rewrite (unlink_perm fl _ _ _ Hp' Hnd)
  end.
  by rewrite <- app_assoc.
Qed.

Lemma rep_NoDup (s : state) (k : ctx) (mid mid0 : list (Z * bool)) (fl : list Z) :
  heap_rep s (plug k mid) fl → fl ≡ₚ free_addrs (plug k mid0) →
  total mid0 = total mid → Forall block_ok mid0 → NoDup fl.
Proof.
  intros Hrep Hp Et Hok.
  by destruct (fl_facts _ _ _ _ _ Hrep Hp Et Hok) as (_ & [? _] & _).
Qed.

(** The four cases together: [coalesce] follows the table, and the heap
    it leaves satisfies the invariant. *)
Lemma coalesce_spec (s : state) (k : ctx) (sz : Z) (fl : list Z) :
  heap_rep s (plug k [(sz, false)]) fl →
  fl ≡ₚ free_addrs (plug k [(sz, true)]) →
  Forall (λ c, no_adjacent_free (c_blocks c)) (plug k [(sz, true)]) →
  ∃ s', coalesce (hole k) s = Ok (coalesce_addr k, s') ∧
        heap_inv s' (plug (coalesce_ctx k) [(coalesce_size k sz, false)])
                 (coalesce_list k sz fl) ∧
        same_globals s s' ∧
        hole (coalesce_ctx k) = coalesce_addr k ∧
        lfree (coalesce_ctx k) = false ∧ rfree (coalesce_ctx k) = false.
Proof.
  intros Hrep Hp Hadj.
  assert (NoDup fl) as Hnd.
  { eapply (rep_NoDup s k _ [(sz, true)]); try done.
    by apply (hole_block_ok k sz false), (rep_heap_wf _ _ _ Hrep). }
  apply no_adjacent_plug in Hadj as (Hb & Hc & Ha).
  apply no_adjacent_hole in Hc as (Hl & Hr & _ & _).
  destruct k as [xb base xl xr xa]. simpl in Hb, Hl, Hr, Ha.
  unfold coalesce_addr, coalesce_ctx, coalesce_size, coalesce_list, lfree, rfree.
  destruct (left_nb (mkCtx xb base xl xr xa)).2 eqn:EL;
    destruct (right_nb (mkCtx xb base xl xr xa)).2 eqn:ER; simpl.
  - (* both allocated *)
    destruct (coalesce_nn s _ sz fl Hrep Hp EL ER) as (s' & E & Hrep' & Hg).
    replace (0 + sz + 0) with sz by lia.
    exists s'. split_and!; try done.
    + split_and!; try done; [by apply perm_nn|].
      apply no_adjacent_plug. simpl. split_and!; try done.
      apply (no_adjacent_hole (mkCtx xb base xl xr xa)). auto.
    + unfold lfree. by rewrite EL.
    + unfold rfree. by rewrite ER.
  - (* only the right neighbour is free *)
    destruct xr as [|[rsz ral] r]; [done|]. unfold right_nb in ER. simpl in ER.
    subst ral. unfold right_nb. simpl.
    destruct (coalesce_nf s _ r rsz sz fl Hrep Hp EL eq_refl) as (s' & E & Hrep' & Hg).
    simpl in E, Hrep'. replace (0 + sz + rsz) with (sz + rsz) by lia.
    apply no_adjacent_free_cons in Hr as [[?|Hr1] Hr2]; [done|].
    exists s'. split_and!; try done.
    + split_and!; try done; [by apply (perm_nf (mkCtx xb base xl _ xa) r)|].
      apply no_adjacent_plug. simpl. split_and!; try done.
      apply (no_adjacent_hole (mkCtx xb base xl r xa)). auto.
    + unfold lfree, left_nb in *. simpl in *. by rewrite EL.
    + unfold rfree, right_nb. simpl. by rewrite Hr1.
  - (* only the left neighbour is free *)
    destruct xl as [|[lsz lal] l _] using rev_ind; [done|].
    unfold left_nb in EL |- *. simpl in EL |- *. rewrite last_snoc in EL |- *.
    simpl in EL |- *. subst lal. rewrite removelast_last.
    destruct (coalesce_fn s _ l lsz sz fl Hrep Hp eq_refl ER) as (s' & E & Hrep' & _ & Hg).
    simpl in E, Hrep'. replace (lsz + sz + 0) with (lsz + sz) by lia.
    destruct (plug_left (mkCtx xb base (l ++ [(lsz, false)]) xr xa) l (lsz, false) []
                eq_refl) as [_ Eh]. simpl in Eh.
    apply no_adjacent_free_app in Hl as (Hl1 & _ & [Hl2|?]); [|done].
    exists s'. split_and!; try done.
    + by rewrite <- Eh.
    + split_and!; try done;
        [by apply (perm_fn (mkCtx xb base (l ++ [(lsz, false)]) xr xa))|].
      apply no_adjacent_plug. simpl. split_and!; try done.
      apply (no_adjacent_hole (mkCtx xb base l xr xa)). auto.
    + unfold lfree, left_nb. simpl. by rewrite Hl2.
    + unfold rfree, right_nb in *. simpl in *. by rewrite ER.
  - (* both neighbours are free *)
    destruct xr as [|[rsz ral] r]; [done|]. unfold right_nb in ER. simpl in ER.
    subst ral. unfold right_nb. simpl.
    destruct xl as [|[lsz lal] l _] using rev_ind; [done|].
    unfold left_nb in EL |- *. simpl in EL |- *. rewrite last_snoc in EL |- *.
    simpl in EL |- *. subst lal. rewrite removelast_last.
    destruct (coalesce_ff s _ l r lsz rsz sz fl Hrep Hp eq_refl eq_refl)
      as (s' & E & Hrep' & Hg).
    simpl in E, Hrep'.
    assert (hole (mkCtx xb base l r xa) =
            hole (mkCtx xb base (l ++ [(lsz, false)]) ((rsz, false) :: r) xa) - lsz)
      as Eh by (unfold hole; simpl; rewrite total_app; simpl; lia).
    apply no_adjacent_free_app in Hl as (Hl1 & _ & [Hl2|?]); [|done].
    apply no_adjacent_free_cons in Hr as [[?|Hr1] Hr2]; [done|].
    exists s'. split_and!; try done.
    + by rewrite <- Eh.
    + split_and!; try done;
        [by apply (perm_ff (mkCtx xb base (l ++ [(lsz, false)]) _ xa) l r)|].
      apply no_adjacent_plug. simpl. split_and!; try done.
      apply (no_adjacent_hole (mkCtx xb base l r xa)). auto.
    + unfold lfree, left_nb. simpl. by rewrite Hl2.
    + unfold rfree, right_nb. simpl. by rewrite Hr1.
Qed.

(** ** Giving a chunk back to the pager *)

Lemma regions_disjoint_delete (l1 l2 : list (Z * Z)) (r : Z * Z) :
  regions_disjoint (l1 ++ r :: l2) → regions_disjoint (l1 ++ l2).
Proof.
  induction l1 as [|x l1 IH]; simpl.
  - by intros [_ ?].
  - intros [Hx Hd]. split; [|by apply IH].
    apply Forall_app in Hx as [? [_ ?]%Forall_cons]. by apply Forall_app.
Qed.

Lemma heap_wf_delete (H1 H2 : list chunk) (c : chunk) :
  heap_wf (H1 ++ c :: H2) → heap_wf (H1 ++ H2).
Proof.
  intros [Hwf Hd]. split.
  - apply Forall_app in Hwf as [? [_ ?]%Forall_cons]. by apply Forall_app.
  - rewrite fmap_app, fmap_cons in Hd. rewrite fmap_app.
    by eapply regions_disjoint_delete.
Qed.

Lemma regions_filter (H1 H2 : list chunk) (c : chunk) :
  heap_wf (H1 ++ c :: H2) →
  filter (λ r, r ≠ region c) (region <$> (H1 ++ c :: H2)) = region <$> (H1 ++ H2).
Proof.
  intros [Hwf Hd]. rewrite !fmap_app, fmap_cons in *.
  pose proof (regions_disjoint_middle _ _ _ Hd) as Hap.
  apply Forall_app in Hwf as [_ [Hc _]%Forall_cons].
  assert (0 < (region c).2) as Hpos.
  { destruct Hc as (_ & _ & Hbl & _). apply total_ok in Hbl.
    unfold region, PAGE_OVERHEAD, PAGE_PAD, OVERHEAD. simpl. lia. }
  apply Forall_app in Hap as [Hap1 Hap2].
  rewrite filter_app, filter_cons_False by (intros ?; done).
  rewrite !filter_all; [done| |].
  all: intros x Hx ->.
  - rewrite Forall_forall in Hap2. destruct (Hap2 _ Hx); lia.
  - rewrite Forall_forall in Hap1. destruct (Hap1 _ Hx); lia.
Qed.

Lemma mem_unmap_ok (s : state) (base n : Z) :
  (base, n) ∈ mapped s →
  mem_unmap base n s =
  Ok (tt, set_mapped (filter (λ r, r ≠ (base, n)) (mapped s)) s).
Proof. intros Hin. unfold mem_unmap. by rewrite bool_decide_eq_true_2. Qed.

(** The test of [try_unmap] recognises a block that is the whole
    interior of its chunk. *)
Lemma left_is_sentinel (k : ctx) (mid : list (Z * bool)) :
  heap_wf (plug k mid) → ((left_nb k).1 =? OVERHEAD) = bool_decide (x_left k = []).
Proof.
  intros Hwf. destruct (plug_blocks_ok k mid Hwf) as (Hl & _).
  unfold left_nb. destruct (x_left k) as [|x l _] using rev_ind; [done|].
  rewrite last_snoc. apply Forall_app in Hl as [_ [[Hx _] _]%Forall_cons].
  unfold MIN_BLOCK_SIZE, OVERHEAD, ALIGNMENT in *.
  case_bool_decide as E; [by destruct l|].
  apply Z.eqb_neq. simpl. lia.
Qed.

Lemma right_is_terminator (k : ctx) (mid : list (Z * bool)) :
  heap_wf (plug k mid) →
  (tag (right_nb k).1 (right_nb k).2 =? 9) = bool_decide (x_right k = []).
Proof.
  intros Hwf. destruct (plug_blocks_ok k mid Hwf) as (_ & _ & Hr & _).
  unfold right_nb. destruct (x_right k) as [|[rsz ral] r]; [done|].
  apply Forall_cons in Hr as [[Hx Hx'] _].
  unfold MIN_BLOCK_SIZE, OVERHEAD, ALIGNMENT in *. simpl in Hx, Hx'.
  case_bool_decide as E; [done|]. simpl hd. simpl fst. simpl snd.
  apply Z.eqb_neq. rewrite tag_add by zmod. destruct ral; simpl; lia.
Qed.

Lemma try_unmap_spec (s : state) (k : ctx) (sz : Z) (fl : list Z) :
  heap_inv s (plug k [(sz, false)]) fl →
  1 < num_page_chunks s →
  ∃ s', try_unmap (hole k) s = Ok (tt, s') ∧
        if whole_chunk k
        then heap_inv s' (x_before k ++ x_after k) (unlink (hole k) fl) ∧
             mapped s' = filter (λ r, r ≠ (x_base k, sz + PAGE_OVERHEAD)) (mapped s) ∧
             (x_base k, sz + PAGE_OVERHEAD) ∈ mapped s ∧
             x_base k = HDRP (hole k - OVERHEAD) - 8 ∧
             num_page_chunks s' = num_page_chunks s - 1 ∧
             map_multiplier s' = map_multiplier s ∧ pagesize s' = pagesize s
        else s' = s.
Proof.
  intros (Hrep & Hp & Hadj) Hn.
  pose proof (rep_heap_wf _ _ _ Hrep) as Hwf.
  destruct (nb_facts _ _ _ _ _ Hrep) as
    ((TL2 & TL1 & TB1 & TB2 & TR1) & (AL2 & AL1 & AB1 & AB2 & AR1 & AR2 & AN & AP) &
     (? & ? & ? & ? & ? & ? & ? & ? & ?)).
  unfold try_unmap.
  mstep. rewrite TL2, size_of_tag by lia.
  mstep. rewrite TB1, size_of_tag by lia.
  mstep. rewrite TL1, size_of_tag by lia.
  rewrite (left_is_sentinel k _ Hwf).
  unfold whole_chunk.
  destruct (x_left k) as [|xl l] eqn:El; simpl.
  2:{ mstep. rewrite mret_ok. eauto. }
  mstep. mstep. rewrite TR1, (right_is_terminator k _ Hwf).
  destruct (x_right k) as [|xr r] eqn:Er; simpl.
  2:{ rewrite mret_ok. eauto. }
  mstep. rewrite TB1, size_of_tag by lia.
  rewrite (wrap64_small (sz + PAGE_OVERHEAD))
    by (unfold PAGE_OVERHEAD, PAGE_PAD, OVERHEAD; lia).
  destruct (fl_facts _ _ _ [(sz, false)] _ Hrep Hp) as (Hacc & Hap & Hin & Hout);
    [done|by apply (plug_blocks_ok k _ Hwf)|].
  assert (hole k ∈ fl) as Hbin.
  { rewrite Hp. apply free_addrs_hole. by left. }
  assert (free_addrs (plug k [(sz, false)]) =
          free_addrs (x_before k) ++ hole k :: free_addrs (x_after k)) as Efa.
  { rewrite free_addrs_plug1. unfold interior_before, interior_after.
    rewrite El, Er. simpl. by rewrite app_nil_r. }
  assert (unlink (hole k) fl ≡ₚ free_addrs (x_before k ++ x_after k)) as Hp'.
  { rewrite (unlink_perm fl (free_addrs (x_before k)) (free_addrs (x_after k)));
      [|by rewrite Hp, Efa|apply Hap].
    unfold free_addrs, interior_blocks. by rewrite bind_app, addrs_of_app. }
  apply list_elem_of_split in Hbin as (l1 & l2 & ->).
  rewrite unlink_middle in * by apply Hap.
  destruct (del_free_spec s l1 (hole k) l2) as (s2 & E2 & Hd2 & Hh2 & Hg2 & Hfr2);
    try done.
  { apply (rep_links _ _ _ Hrep). }
  { apply (rep_head _ _ _ Hrep). }
  rewrite (bind_ok _ _ _ _ _ E2).
  assert (heap_rep s2 (plug k [(sz, false)]) (l1 ++ l2)) as Hrep2.
  { eapply rep_list_phase; try done.
    intros a Ha. rewrite <- Hp. solve_elem. }
  assert (plug k [(sz, false)] =
          x_before k ++ mkChunk (x_base k) [(sz, false)] :: x_after k) as Epl.
  { unfold plug. by rewrite El, Er. }
  assert (hole k = x_base k + PAGE_OVERHEAD) as Eh.
  { unfold hole. rewrite El. simpl. lia. }
  assert (region (mkChunk (x_base k) [(sz, false)]) = (x_base k, sz + PAGE_OVERHEAD))
    as Ereg.
  { unfold region. simpl. f_equal. lia. }
  rewrite Epl in Hwf.
  replace (hole k - (left_nb k).1 - (8 + PAGE_PAD)) with (x_base k).
  2:{ unfold left_nb. rewrite El, Eh. simpl.
      unfold PAGE_OVERHEAD, PAGE_PAD, OVERHEAD. lia. }
  assert ((x_base k, sz + PAGE_OVERHEAD) ∈ mapped s) as Hreg.
  { rewrite (rep_mapped _ _ _ Hrep), Epl, <- Ereg.
    apply list_elem_of_fmap_2. solve_elem. }
  rewrite (bind_ok _ _ _ _ _ (mem_unmap_ok s2 _ _ ltac:(by rewrite (proj1 Hg2)))).
  eexists. split; [reflexivity|]. msimpl.
  destruct Hg2 as (Em & En & Emm & Eps & Erp).
  pose proof (rep_count _ _ _ Hrep) as Hcnt.
  pose proof (rep_count_int _ _ _ Hrep) as Hcnt'.
  rewrite Epl, length_app in Hcnt, Hcnt'. simpl in Hcnt, Hcnt'.
  rewrite En, to_int_small by lia.
  split_and!; try done.
  - split; [|split; [done|]].
    + destruct Hrep2. split; msimpl.
      * by rewrite Em, (rep_mapped _ _ _ Hrep), Epl, <- Ereg, regions_filter.
      * apply (heap_wf_delete _ _ _ Hwf).
      * apply (heap_wf_delete _ _ _ Hwf).
      * unfold all_blocks in *. rewrite Epl, bind_app, bind_cons in rep_tags0.
        rewrite bind_app.
        apply Forall_app in rep_tags0 as [? [_ ?]%Forall_app]. by apply Forall_app.
      * done.
      * done.
      * rewrite length_app. lia.
      * rewrite length_app. lia.
    + rewrite Epl in Hadj.
      apply Forall_app in Hadj as [? [_ ?]%Forall_cons]. by apply Forall_app.
  - by rewrite Em.
  - rewrite Eh. unfold HDRP, PAGE_OVERHEAD, PAGE_PAD, OVERHEAD. lia.
Qed.

(** ** [mm_free] *)

Lemma mm_free_spec (s : state) (k : ctx) (sz : Z) (fl : list Z) :
  heap_inv s (plug k [(sz, true)]) fl →
  ∃ s', mm_free (hole k) s = Ok (tt, s') ∧
        heap_inv s' (free_heap k sz) (free_list_after k sz fl) ∧
        map_multiplier s' = map_multiplier s ∧ pagesize s' = pagesize s ∧
        (if unmaps k
         then mapped s' =
                filter (λ r, r ≠ (x_base k, coalesce_size k sz + PAGE_OVERHEAD))
                       (mapped s) ∧
              (x_base k, coalesce_size k sz + PAGE_OVERHEAD) ∈ mapped s ∧
              x_base k = HDRP (coalesce_addr k - OVERHEAD) - 8 ∧
              num_page_chunks s' = num_page_chunks s - 1
         else mapped s' = mapped s ∧ num_page_chunks s' = num_page_chunks s).
Proof.
  intros (Hrep & Hp & Hadj).
  pose proof (rep_heap_wf _ _ _ Hrep) as Hwf.
  destruct (nb_facts _ _ _ _ _ Hrep) as
    ((TL2 & TL1 & TB1 & TB2 & TR1) & (AL2 & AL1 & AB1 & AB2 & AR1 & AR2 & AN & AP) &
     (? & ? & ? & ? & ? & ? & ? & ? & ?)).
  destruct (fl_facts _ _ _ [(sz, true)] _ Hrep Hp) as (Hacc & Hap & Hin & Hout);
    [done|by apply (plug_blocks_ok k _ Hwf)|].
  unfold mm_free.
  mstep. rewrite TB1, size_of_tag by lia.
  mstep. mstep. rd_simpl. rewrite size_of_PACK0 by (try lia; zmod).
  mstep.
  lazymatch goal with |- context [mbind _ (coalesce _) ?st] => set (s1 := st) end.
  assert (heap_rep s1 (plug k [(sz, false)]) fl) as Hrep1.
  { eapply (rep_tag_phase s _ k [(sz, true)] [(sz, false)]); try done.
    - by apply (hole_block_ok k sz true).
    - intros y Hy. unfold s1. msimpl. simpl in Hy. unfold HDRP, OVERHEAD. by rd_simpl.
    - intros a Ha. unfold s1. msimpl. unfold HDRP, OVERHEAD, next_field, prev_field.
      destruct (Hout a Ha) as [Hh|Ho].
      + simpl in Hh. rewrite addrs_of_cons in Hh. simpl in Hh. by apply elem_of_nil in Hh.
      + simpl in Ho. by rd_simpl.
    - repeat constructor; unfold s1; msimpl; simpl; unfold HDRP, OVERHEAD; by rd_simpl. }
  destruct (coalesce_spec s1 k sz fl Hrep1 Hp Hadj)
    as (s2 & E2 & Hinv2 & Hg2 & Eaddr & Hlf & Hrf).
  rewrite (bind_ok _ _ _ _ _ E2). mstep.
  destruct Hg2 as (Em & En & Emm & Eps & Erp).
  change (mapped s1) with (mapped s) in Em.
  change (num_page_chunks s1) with (num_page_chunks s) in En.
  change (map_multiplier s1) with (map_multiplier s) in Emm.
  change (pagesize s1) with (pagesize s) in Eps.
  assert (num_page_chunks s2 = Z.of_nat (length (plug k []))) as Hn2.
  { by rewrite En, (rep_count _ _ _ Hrep), (length_plug k [] [(sz, true)]). }
  rewrite Hn2.
  unfold free_heap, free_list_after, unmaps.
  destruct (1 <? Z.of_nat (length (plug k []))) eqn:Hn; simpl.
  - rewrite <- Eaddr.
    destruct (try_unmap_spec s2 _ _ _ Hinv2) as (s3 & E3 & Hpost).
    { rewrite Hn2. by apply Z.ltb_lt. }
    rewrite E3. exists s3. split; [done|].
    destruct (whole_chunk (coalesce_ctx k)).
    + destruct Hpost as (Hinv3 & Hm3 & Hr3 & Hb3 & Hn3 & Hmm3 & Hps3).
      simpl in *. rewrite Em in *. split_and!; try done; congruence.
    + subst s3. split_and!; try done.
  - rewrite mret_ok. exists s2. split_and!; try done.
Qed.

Lemma mm_free_unfold (ptr : Z) (s : state) :
  mm_free ptr s =
  (clear_tags ptr ≫= λ _,
   leftmost ← coalesce ptr;
   n ← gets num_page_chunks;
   if 1 <? n then try_unmap leftmost else mret tt) s.
Proof.
  unfold mm_free, clear_tags. rewrite !bind_assoc.
  unfold mbind, M_bind, bind.
  destruct (GET_SIZE (HDRP ptr) s) as [[cursize s1]| |]; [|done|done].
  destruct (PUT (HDRP ptr) (PACK cursize 0) s1) as [[[] s2]| |]; [|done|done].
  destruct (FTRP ptr s2) as [[f s3]| |]; [|done|done].
  destruct (PUT f (PACK cursize 0) s3) as [[[] s4]| |]; done.
Qed.

(** The steps of [mm_free]: the tags are cleared, the block is
    coalesced, and the test for unmapping runs on the result when more
    than one chunk is live. *)
Lemma mm_free_steps (s : state) (k : ctx) (sz : Z) (fl : list Z) :
  heap_inv s (plug k [(sz, true)]) fl →
  ∃ s1 s2,
    clear_tags (hole k) s = Ok (tt, s1) ∧
    heap_rep s1 (plug k [(sz, false)]) fl ∧
    coalesce (hole k) s1 = Ok (coalesce_addr k, s2) ∧
    heap_inv s2 (plug (coalesce_ctx k) [(coalesce_size k sz, false)])
             (coalesce_list k sz fl) ∧
    hole (coalesce_ctx k) = coalesce_addr k ∧
    same_globals s s2 ∧
    mm_free (hole k) s =
      (if 1 <? num_page_chunks s2 then try_unmap (coalesce_addr k) else mret tt) s2.
Proof.
  intros (Hrep & Hp & Hadj).
  pose proof (rep_heap_wf _ _ _ Hrep) as Hwf.
  destruct (nb_facts _ _ _ _ _ Hrep) as
    ((TL2 & TL1 & TB1 & TB2 & TR1) & (AL2 & AL1 & AB1 & AB2 & AR1 & AR2 & AN & AP) &
     (? & ? & ? & ? & ? & ? & ? & ? & ?)).
  destruct (fl_facts _ _ _ [(sz, true)] _ Hrep Hp) as (Hacc & Hap & Hin & Hout);
    [done|by apply (plug_blocks_ok k _ Hwf)|].
  set (s1 := set_mem <[hole k + sz - OVERHEAD:=PACK sz 0]>
               (set_mem <[HDRP (hole k):=PACK sz 0]> s)).
  assert (clear_tags (hole k) s = Ok (tt, s1)) as E1.
  { unfold clear_tags.
    mstep. rewrite TB1, size_of_tag by lia.
    mstep. mstep. rd_simpl. rewrite size_of_PACK0 by (try lia; zmod).
    apply PUT_ok. msimpl. exact AB2. }
  assert (heap_rep s1 (plug k [(sz, false)]) fl) as Hrep1.
  { eapply (rep_tag_phase s _ k [(sz, true)] [(sz, false)]); try done.
    - by apply (hole_block_ok k sz true).
    - intros y Hy. unfold s1. msimpl. simpl in Hy. unfold HDRP, OVERHEAD. by rd_simpl.
    - intros a Ha. unfold s1. msimpl. unfold HDRP, OVERHEAD, next_field, prev_field.
      destruct (Hout a Ha) as [Hh|Ho].
      + simpl in Hh. rewrite addrs_of_cons in Hh. simpl in Hh. by apply elem_of_nil in Hh.
      + simpl in Ho. by rd_simpl.
    - repeat constructor; unfold s1; msimpl; simpl; unfold HDRP, OVERHEAD; by rd_simpl. }
  destruct (coalesce_spec s1 k sz fl Hrep1 Hp Hadj)
    as (s2 & E2 & Hinv2 & Hg2 & Eaddr & Hlf & Hrf).
  exists s1, s2. split_and!; try done.
  rewrite mm_free_unfold, (bind_ok _ _ _ _ _ E1), (bind_ok _ _ _ _ _ E2).
  by rewrite bind_gets.
Qed.

(** The test of [try_unmap] succeeds exactly on a block that is all of
    the interior of its chunk. *)
Lemma unmap_test_spec (s : state) (k : ctx) (sz : Z) (fl : list Z) :
  heap_rep s (plug k [(sz, false)]) fl →
  unmap_test (mem s) (hole k) = whole_chunk k ∧
  size_field (rd (mem s) (HDRP (hole k))) = sz ∧
  size_field (rd (mem s) (hole k - OVERHEAD)) = (left_nb k).1.
Proof.
  intros Hrep. pose proof (rep_heap_wf _ _ _ Hrep) as Hwf.
  destruct (nb_facts _ _ _ _ _ Hrep) as
    ((TL2 & TL1 & TB1 & TB2 & TR1) & _ & (? & ? & ? & ? & ? & ? & ? & ? & ?)).
  unfold unmap_test, size_field.
  rewrite TL2, TB1, !size_of_tag by lia. rewrite TL1, size_of_tag by lia.
  rewrite TR1, (left_is_sentinel k _ Hwf), (right_is_terminator k _ Hwf).
  split; [|done]. unfold whole_chunk.
  destruct (x_left k), (x_right k); done.
Qed.

(** [try_unmap] on a free block: when the test fails nothing changes;
    when it succeeds the block is unlinked, then the chunk is given
    back, then the chunk count is decremented. *)
Lemma try_unmap_steps (s : state) (k : ctx) (sz : Z) (fl : list Z) :
  heap_rep s (plug k [(sz, false)]) fl →
  try_unmap (hole k) s =
  if unmap_test (mem s) (hole k)
  then (del_free (hole k);;
        mem_unmap (HDRP (hole k - OVERHEAD) - 8)
                  (size_field (rd (mem s) (HDRP (hole k))) + PAGE_OVERHEAD);;
        modify (λ s, set_num_page_chunks (to_int (num_page_chunks s - 1)) s)) s
  else Ok (tt, s).
Proof.
  intros Hrep. pose proof (rep_heap_wf _ _ _ Hrep) as Hwf.
  destruct (unmap_test_spec _ _ _ _ Hrep) as (-> & -> & _).
  destruct (nb_facts _ _ _ _ _ Hrep) as
    ((TL2 & TL1 & TB1 & TB2 & TR1) & (AL2 & AL1 & AB1 & AB2 & AR1 & AR2 & AN & AP) &
     (? & ? & ? & ? & ? & ? & ? & ? & ?)).
  unfold try_unmap.
  mstep. rewrite TL2, size_of_tag by lia.
  mstep. rewrite TB1, size_of_tag by lia.
  mstep. rewrite TL1, size_of_tag by lia.
  rewrite (left_is_sentinel k _ Hwf).
  unfold whole_chunk.
  destruct (x_left k) as [|xl l] eqn:El; simpl.
  2:{ mstep. by rewrite mret_ok. }
  mstep. mstep. rewrite TR1, (right_is_terminator k _ Hwf).
  destruct (x_right k) as [|xr r] eqn:Er; simpl.
  2:{ by rewrite mret_ok. }
  mstep. rewrite TB1, size_of_tag by lia.
  rewrite (wrap64_small (sz + PAGE_OVERHEAD))
    by (unfold PAGE_OVERHEAD, PAGE_PAD, OVERHEAD; lia).
  replace (hole k - (left_nb k).1 - (8 + PAGE_PAD)) with (HDRP (hole k - OVERHEAD) - 8);
    [done|].
  unfold left_nb. rewrite El. simpl. unfold HDRP, PAGE_PAD, OVERHEAD. lia.
Qed.

(** ** Allocating a block *)

Lemma size_of_raw (sz : Z) :
  0 ≤ sz < 2 ^ 63 → sz mod 16 = 0 → Z.land sz (wrap64 (Z.lnot 15)) = sz.
Proof.
  intros. rewrite <- (Z.lor_0_r sz) at 1. by apply (size_of_tag sz false).
Qed.

(** Every word of an interior block, tags included, can be accessed. *)
Lemma block_accessible (s : state) (k : ctx) (c : Z) (al : bool) (fl : list Z) (p : Z) :
  heap_rep s (plug k [(c, al)]) fl →
  hole k - 8 ≤ p → p + 8 ≤ hole k + c - 8 → p mod 8 = 0 →
  accessible (mapped s) p = true.
Proof.
  intros Hrep H1 H2 H3. pose proof (rep_heap_wf _ _ _ Hrep) as Hwf.
  destruct (hole_bounds k _ Hwf) as (Hh1 & Hh2 & Hh3 & Hh4 & Hh5 & Hh6 & Hh7 & Hh8).
  simpl in *. rewrite Z.add_0_r in *.
  rewrite (rep_mapped _ _ _ Hrep).
  apply (chunk_accessible _ (mkChunk (x_base k) (x_left k ++ [(c, al)] ++ x_right k)));
    try done; simpl.
  - apply (chunk_in_plug k [(c, al)]).
  - lia.
  - lia.
Qed.

Lemma allocate_spec (s : state) (k : ctx) (c need : Z) (fl : list Z) :
  heap_inv s (plug k [(c, false)]) fl →
  MIN_BLOCK_SIZE ≤ need ≤ c → need mod 16 = 0 →
  ∃ s', allocate (hole k) need s = Ok (tt, s') ∧
        heap_inv s' (plug k (alloc_blocks c need)) (alloc_list k c need fl) ∧
        same_globals s s'.
Proof.
  intros (Hrep & Hp & Hadj) Hneed Hmod.
  pose proof (rep_heap_wf _ _ _ Hrep) as Hwf.
  destruct (nb_facts _ _ _ _ _ Hrep) as
    ((TL2 & TL1 & TB1 & TB2 & TR1) & (AL2 & AL1 & AB1 & AB2 & AR1 & AR2 & AN & AP) &
     (? & ? & ? & ? & ? & ? & ? & ? & ?)).
  destruct (fl_facts _ _ _ [(c, false)] _ Hrep Hp) as (Hacc & Hap & Hin & Hout);
    [done|by apply (plug_blocks_ok k _ Hwf)|].
  simpl in Hin, Hout. rewrite addrs_of_cons in Hin, Hout. simpl in Hin, Hout.
  rewrite Z.add_0_r in *.
  unfold MIN_BLOCK_SIZE, OVERHEAD, ALIGNMENT in Hneed.
  apply no_adjacent_plug in Hadj as (Hadj1 & Hadj2 & Hadj3).
  apply no_adjacent_hole in Hadj2 as (Hadj2 & Hadj4 & [HLa|?] & [?|HRa]); try done.
  assert (hole k ∈ fl) as Hbin.
  { rewrite Hp. apply free_addrs_hole. by left. }
  apply list_elem_of_split in Hbin as (l1 & l2 & Efl).
  assert (unlink (hole k) fl = l1 ++ l2) as Eul.
  { rewrite Efl. apply unlink_middle. rewrite <- Efl. apply Hap. }
  unfold allocate, alloc_blocks, alloc_list.
  mstep. rewrite TB1, size_of_tag by lia.
  rewrite (wrap64_small (c - need)) by lia.
  destruct (MIN_BLOCK_SIZE <=? c - need) eqn:Hsplit.
  - (* the block is split *)
    apply Z.leb_le in Hsplit. unfold MIN_BLOCK_SIZE, OVERHEAD, ALIGNMENT in Hsplit.
    assert (accessible (mapped s) (hole k + need - OVERHEAD) = true) as AF1.
    { apply (block_accessible s k c false fl); unfold OVERHEAD; try done; try lia. zmod. }
    assert (accessible (mapped s) (HDRP (hole k + need)) = true) as AH2.
    { apply (block_accessible s k c false fl); unfold HDRP; try done; try lia. zmod. }
    assert (accessible (mapped s) (next_field (hole k + need)) = true) as AN2.
    { apply (block_accessible s k c false fl); unfold next_field; try done; try lia. zmod. }
    assert (accessible (mapped s) (prev_field (hole k + need)) = true) as AP2.
    { apply (block_accessible s k c false fl); unfold prev_field; try done; try lia. zmod. }
    mstep. mstep. rd_simpl. rewrite size_of_raw by lia.
    mstep. mstep. rd_simpl. rewrite size_of_raw by lia.
    mstep. mstep. rd_simpl. rewrite size_of_PACK0 by (try lia; zmod).
    mstep.
    lazymatch goal with |- context [mbind _ (add_free _) ?st] => set (s1 := st) end.
    assert (heap_rep s1 (plug k [(need, false); (c - need, false)]) fl) as Hrep1.
    { eapply (rep_tag_phase s _ k [(c, false)] [(need, false); (c - need, false)]);
        try done.
      - simpl. lia.
      - repeat constructor; unfold MIN_BLOCK_SIZE, OVERHEAD, ALIGNMENT; simpl;
          try lia; zmod.
      - intros y Hy. unfold s1. msimpl. simpl in Hy. by rd_simpl.
      - intros a Ha. unfold s1. msimpl.
        destruct (Hout a Ha) as [Hh|Ho].
        + apply list_elem_of_singleton in Hh as ->. by rd_simpl.
        + by rd_simpl.
      - repeat constructor; unfold s1; msimpl; simpl; rd_simpl; try done.
        all: unfold tag, PACK; simpl; by rewrite Z.lor_0_r. }
    assert (∀ a, a ∈ fl → a + 16 ≤ hole k + need ∨ hole k + need + 16 ≤ a) as Hnsep.
    { intros a Ha. destruct (Hout a Ha) as [Hh|Ho].
      - apply list_elem_of_singleton in Hh as ->. lia.
      - lia. }
    destruct (add_free_spec s1 fl (hole k + need)) as (s2 & E2 & Hd2 & Hh2 & Hg2 & Hfr2);
      try done.
    { apply (rep_links _ _ _ Hrep1). }
    { apply (rep_head _ _ _ Hrep1). }
    { lia. }
    rewrite (bind_ok _ _ _ _ _ E2).
    assert (∀ a, a ∈ fl → a ∈ free_addrs (plug k [(need, false); (c - need, false)]))
      as Hfl1.
    { intros a Ha. rewrite free_addrs_plug. cbn [place fst snd].
      rewrite !addrs_of_cons. simpl.
      replace (need + (c - need + 0)) with c by lia.
      destruct (Hin a Ha) as [Hh|Hh]; [|solve_elem].
      apply list_elem_of_singleton in Hh as ->. solve_elem. }
    assert (hole k + need ∈ free_addrs (plug k [(need, false); (c - need, false)]))
      as Hnx1.
    { rewrite free_addrs_plug. cbn [place fst snd].
      rewrite !addrs_of_cons. simpl. solve_elem. }
    assert (heap_rep s2 (plug k [(need, false); (c - need, false)])
                     (hole k + need :: fl)) as Hrep2.
    { eapply rep_list_phase; try done.
      intros a [->|Ha]%elem_of_cons; auto. }
    destruct Hg2 as (Em2 & Hg2').
    change (mapped s1) with (mapped s) in Em2.
    assert (mkBlock (hole k) need false
              ∈ all_blocks (plug k [(need, false); (c - need, false)])) as Hb2.
    { rewrite all_blocks_plug. simpl. solve_elem. }
    destruct (rep_tag _ _ _ _ Hrep2 Hb2) as [T2 _]. simpl in T2.
    mstep_with ltac:(rewrite Em2; acc). rewrite T2, size_of_tag by lia.
    mstep_with ltac:(rewrite Em2; acc).
    mstep_with ltac:(rewrite Em2; acc). rd_simpl.
    rewrite size_of_PACK1 by (try lia; zmod).
    mstep_with ltac:(rewrite Em2; acc).
    lazymatch goal with |- context [del_free _ ?st] => set (s3 := st) end.
    assert (heap_rep s3 (plug k [(need, true); (c - need, false)])
                     (hole k + need :: fl)) as Hrep3.
    { eapply (rep_tag_phase s2 _ k [(need, false); (c - need, false)]
                            [(need, true); (c - need, false)]); try done.
      - repeat constructor; unfold MIN_BLOCK_SIZE, OVERHEAD, ALIGNMENT; simpl;
          try lia; zmod.
      - intros y Hy. unfold s3. msimpl. simpl in Hy. by rd_simpl.
      - intros a Ha. unfold s3. msimpl.
        apply elem_of_cons in Ha as [->|Ha]; [by rd_simpl|].
        destruct (Hout a Ha) as [Hh|Ho].
        + apply list_elem_of_singleton in Hh as ->. by rd_simpl.
        + by rd_simpl.
      - assert (mkBlock (hole k + need) (c - need) false
                  ∈ all_blocks (plug k [(need, false); (c - need, false)])) as Hb2'.
        { rewrite all_blocks_plug. simpl. solve_elem. }
        destruct (rep_tag _ _ _ _ Hrep2 Hb2') as [T3 T4]. simpl in T3, T4.
        repeat constructor; unfold s3; msimpl; simpl; rd_simpl; done. }
    assert (nodes_apart (hole k + need :: fl)) as Hap3.
    { destruct Hap as [Hnd Hpw]. split.
      - apply NoDup_cons. split; [|done]. intros Hx. destruct (Hnsep _ Hx); lia.
      - intros a b [->|Ha]%elem_of_cons [->|Hb]%elem_of_cons.
        + by left.
        + right. destruct (Hnsep _ Hb); lia.
        + right. destruct (Hnsep _ Ha); lia.
        + by apply Hpw. }
    assert (nodes_accessible (mapped s3) (hole k + need :: fl)) as Hacc3.
    { intros a Ha. unfold s3. msimpl. rewrite Em2.
      apply elem_of_cons in Ha as [->|Ha]; [done|by apply Hacc]. }
    rewrite Efl in Hrep3, Hap3, Hacc3, Hin, Hp.
    change (hole k + need :: l1 ++ hole k :: l2)
      with ((hole k + need :: l1) ++ hole k :: l2) in Hrep3, Hap3, Hacc3.
    destruct (nodes_apart_middle _ _ _ Hap3) as (_ & Hni & _).
    destruct (del_free_spec s3 (hole k + need :: l1) (hole k) l2
                (rep_links _ _ _ Hrep3) (rep_head _ _ _ Hrep3) Hacc3 Hap3)
      as (s4 & E4 & Hd4 & Hh4 & Hg4 & Hfr4).
    rewrite E4, Eul. exists s4. split; [done|].
    assert (free_addrs (plug k [(need, true); (c - need, false)]) =
            addrs_of false (interior_before k) ++
            (hole k + need) :: addrs_of false (interior_after k c)) as Efa.
    { rewrite free_addrs_plug. cbn [place fst snd]. rewrite !addrs_of_cons. simpl.
      by replace (need + (c - need + 0)) with c by lia. }
    split.
    + split; [|split].
      * eapply rep_list_phase; try done.
        intros a Ha. rewrite Efa.
        apply elem_of_app in Ha as [[->|Ha]%elem_of_cons|Ha]; [solve_elem| |].
        all: destruct (Hin a) as [Hh|Hh]; [solve_elem| |solve_elem].
        all: apply list_elem_of_singleton in Hh as ->.
        all: exfalso; apply Hni; solve_elem.
      * rewrite Efa, <- Permutation_middle. apply Permutation_skip.
        rewrite free_addrs_plug1 in Hp. simpl in Hp.
        eapply (Permutation_app_inv l1 l2 _ _ (hole k)). exact Hp.
      * apply no_adjacent_plug. split_and!; try done.
        rewrite no_adjacent_free_app. simpl app.
        rewrite !no_adjacent_free_cons. simpl. unfold right_nb in HRa. auto 10.
    + eapply same_globals_trans; [|exact Hg4].
      eapply same_globals_trans; [|by repeat split].
      eapply same_globals_trans; [|split; [exact Em2|exact Hg2']]. by repeat split.
  - (* the block is used whole *)
    apply Z.leb_gt in Hsplit. unfold MIN_BLOCK_SIZE, OVERHEAD, ALIGNMENT in Hsplit.
    mstep. mstep. rewrite TB1, size_of_tag by lia.
    mstep. mstep. rd_simpl. rewrite size_of_PACK1 by (try lia; zmod).
    mstep.
    lazymatch goal with |- context [del_free _ ?st] => set (s1 := st) end.
    assert (heap_rep s1 (plug k [(c, true)]) fl) as Hrep1.
    { eapply (rep_tag_phase s _ k [(c, false)] [(c, true)]); try done.
      - by apply (hole_block_ok k c false).
      - intros y Hy. unfold s1. msimpl. simpl in Hy. unfold HDRP, OVERHEAD. by rd_simpl.
      - intros a Ha. unfold s1. msimpl. unfold HDRP, OVERHEAD, next_field, prev_field.
        destruct (Hout a Ha) as [Hh|Ho].
        + apply list_elem_of_singleton in Hh as ->. by rd_simpl.
        + by rd_simpl.
      - repeat constructor; unfold s1; msimpl; simpl; unfold HDRP, OVERHEAD; by rd_simpl. }
    rewrite Efl in Hrep1, Hacc, Hap, Hin, Hout, Hp.
    destruct (nodes_apart_middle _ _ _ Hap) as (_ & Hni & _).
    destruct (del_free_spec s1 l1 (hole k) l2) as (s2 & E2 & Hd2 & Hh2 & Hg2 & Hfr2);
      try done.
    { apply (rep_links _ _ _ Hrep1). }
    { apply (rep_head _ _ _ Hrep1). }
    rewrite E2, Eul. exists s2. split; [done|]. split.
    + split; [|split].
      * eapply rep_list_phase; try done.
        intros a Ha. rewrite free_addrs_plug1. simpl.
        destruct (Hin a) as [Hh|Hh]; [solve_elem| |solve_elem].
        apply list_elem_of_singleton in Hh as ->. exfalso. apply Hni. done.
      * rewrite free_addrs_plug1 in Hp |- *. simpl in *.
        eapply (Permutation_app_inv l1 l2 _ _ (hole k)). exact Hp.
      * apply no_adjacent_plug. split_and!; try done.
        apply no_adjacent_hole. auto.
    + eapply same_globals_trans; [|exact Hg2]. by repeat split.
Qed.

(** ** First fit *)

Lemma size_at_block (H : list chunk) (b : pblock) :
  heap_wf H → b ∈ interior_blocks H → size_at H (b_addr b) = b_size b.
Proof.
  intros Hwf Hb. unfold size_at.
  assert (b ∈ filter (λ b', b_addr b' = b_addr b) (interior_blocks H)) as Hin.
  { by apply list_elem_of_filter. }
  destruct (filter _ _) as [|x l] eqn:E; [by apply elem_of_nil in Hin|].
  simpl. assert (x ∈ filter (λ b', b_addr b' = b_addr b) (interior_blocks H)) as Hx.
  { rewrite E. by left. }
  apply list_elem_of_filter in Hx as [Hx1 Hx2].
  destruct (interior_blocks_apart H x b Hwf Hx2 Hb) as [->|?]; [done|lia].
Qed.

(** Every interior block sits in the hole of some context. *)
Lemma block_ctx (H : list chunk) (b : pblock) :
  b ∈ interior_blocks H →
  ∃ k, H = plug k [(b_size b, b_alloc b)] ∧ hole k = b_addr b.
Proof.
  intros (c & Hb & Hc)%list_elem_of_bind.
  apply list_elem_of_split in Hc as (H1 & H2 & ->).
  apply elem_of_place in Hb as (l1 & l2 & E & Ea).
  exists (mkCtx H1 (c_base c) l1 l2 H2). unfold plug, hole. simpl.
  rewrite <- E. split; [by destruct c|]. done.
Qed.

Lemma free_block_ctx (s : state) (H : list chunk) (fl : list Z) (a : Z) :
  heap_inv s H fl → a ∈ fl →
  ∃ k c, H = plug k [(c, false)] ∧ hole k = a ∧ size_at H a = c.
Proof.
  intros (Hrep & Hp & _) Ha. rewrite Hp in Ha.
  apply elem_of_addrs_of in Ha as (b & Hb & <- & Hal).
  destruct (block_ctx H b Hb) as (k & E & Eh). rewrite Hal in E.
  exists k, (b_size b). split_and!; try done.
  apply size_at_block; [|done]. by eapply rep_heap_wf.
Qed.

Lemma first_fit_cons (H : list chunk) (need a : Z) (l : list Z) :
  first_fit H need (a :: l) =
  if need <=? size_at H a then Some a else first_fit H need l.
Proof.
  unfold first_fit. rewrite filter_cons.
  destruct (Z.leb_spec need (size_at H a)); case_decide; try lia; done.
Qed.

(** The loop of [find_free_block] allocates the first fit, if any. *)
Lemma find_from_spec (s : state) (H : list chunk) (fl : list Z) (need : Z)
    (fuel : nat) (pre l : list Z) :
  heap_inv s H fl → fl = pre ++ l → (length l ≤ fuel)%nat →
  find_free_block_from fuel (hd 0 l) need s =
  match first_fit H need l with
  | Some a => (allocate a need ≫= λ _, mret a) s
  | None => Ok (0, s)
  end.
Proof.
  intros Hinv. revert fuel pre. induction l as [|a l IH]; intros fuel pre Efl Hfuel.
  - by destruct fuel.
  - destruct (free_block_ctx s H fl a Hinv) as (k & c & EH & Eh & Esz);
      [rewrite Efl; solve_elem|].
    destruct Hinv as (Hrep & Hp & Hadj).
    pose proof (rep_links _ _ _ Hrep) as Hd. rewrite Efl in Hd.
    apply dseg_app in Hd as [_ Hd]. simpl in Hd. destruct Hd as (Ha0 & _ & Hnx & _).
    rewrite EH in Hrep.
    destruct (nb_facts _ _ _ _ _ Hrep) as
      ((TL2 & TL1 & TB1 & TB2 & TR1) & (AL2 & AL1 & AB1 & AB2 & AR1 & AR2 & AN & AP) &
       (? & ? & ? & ? & ? & ? & ? & ? & ?)).
    rewrite Eh in *. rewrite first_fit_cons, Esz.
    destruct fuel as [|fuel]; [simpl in Hfuel; lia|].
    simpl. apply Z.eqb_neq in Ha0. rewrite Ha0.
    mstep. rewrite TB1, size_of_tag by lia.
    destruct (need <=? c); [done|].
    mstep. rewrite Hnx.
    apply (IH fuel (pre ++ [a])).
    + by rewrite <- app_assoc.
    + simpl in Hfuel. lia.
Qed.

(** ** Growing the heap *)

Lemma PAGE_ALIGN_spec (e x : Z) :
  4 ≤ e ≤ 25 → 0 ≤ x → x + 2 ^ e ≤ 2 ^ 31 →
  PAGE_ALIGN (2 ^ e) x = page_align (2 ^ e) x.
Proof.
  intros He Hx Hb. unfold PAGE_ALIGN, page_align.
  assert (0 < 2 ^ e) by (apply Z.pow_pos_nonneg; lia).
  rewrite (wrap64_small (2 ^ e - 1)) by lia.
  rewrite (wrap64_small (x + (2 ^ e - 1))) by lia.
  rewrite land_mask by lia.
  pose proof (Z.div_mod (x + (2 ^ e - 1)) (2 ^ e)).
  replace (x + 2 ^ e - 1) with (x + (2 ^ e - 1)) by lia. lia.
Qed.

Lemma page_align_props (ps x : Z) :
  0 < ps → x ≤ page_align ps x < x + ps ∧ page_align ps x mod ps = 0.
Proof.
  intros Hps. unfold page_align. split; [|by apply Z.mod_mul; lia].
  pose proof (Z.div_mod (x + ps - 1) ps). pose proof (Z.mod_pos_bound (x + ps - 1) ps).
  lia.
Qed.

Lemma pow2_mod16 (e : Z) (x : Z) : 4 ≤ e → x mod 2 ^ e = 0 → x mod 16 = 0.
Proof.
  intros He Hx. apply Z.mod_divide in Hx; [|by apply Z.pow_nonzero; lia].
  destruct Hx as [q ->]. replace e with (e - 4 + 4) by lia.
  rewrite Z.pow_add_r by lia. change (2 ^ 4) with 16.
  rewrite Z.mul_assoc. apply Z.mod_mul. lia.
Qed.

(** The size [extend] asks the pager for. *)
Lemma extend_request_spec (s : state) (need : Z) :
  params_ok s → 0 ≤ need → need + PAGE_OVERHEAD + pagesize s ≤ 2 ^ 31 →
  extend_request need s =
    Z.max (page_align (pagesize s) (need + PAGE_OVERHEAD))
          (map_multiplier s * pagesize s) ∧
  need + PAGE_OVERHEAD ≤ extend_request need s < 2 ^ 31 ∧
  extend_request need s mod 16 = 0.
Proof.
  intros [(e & He & Eps) (j & Hj & Em)] Hn Hb.
  unfold extend_request. rewrite Eps, Em in *.
  assert (0 < 2 ^ e) by (apply Z.pow_pos_nonneg; lia).
  assert (2 ^ e ≤ 2 ^ 25) by (apply Z.pow_le_mono_r; lia).
  assert (1 ≤ 2 ^ j ≤ 2 ^ 5) as Hm.
  { split; [|apply Z.pow_le_mono_r; lia].
    assert (0 < 2 ^ j) by (apply Z.pow_pos_nonneg; lia). lia. }
  unfold PAGE_OVERHEAD, PAGE_PAD, OVERHEAD in *.
  rewrite (wrap64_small (need + (8 + (8 + 8) + 8))) by lia.
  rewrite PAGE_ALIGN_spec by lia.
  destruct (page_align_props (2 ^ e) (need + (8 + (8 + 8) + 8))) as [Hpa Hpm]; [done|].
  rewrite (to_int_small (page_align _ _)) by lia.
  assert (2 ^ j * 2 ^ e ≤ 2 ^ 5 * 2 ^ 25) by nia.
  assert (1 * 2 ^ e ≤ 2 ^ j * 2 ^ e) by nia.
  rewrite (to_int_small (2 ^ j * 2 ^ e)) by lia.
  assert ((2 ^ j * 2 ^ e) mod 2 ^ e = 0) by (apply Z.mod_mul; lia).
  destruct (Z.ltb_spec (2 ^ j * 2 ^ e) (page_align (2 ^ e) (need + (8 + (8 + 8) + 8)))).
  - rewrite Z.max_l by lia. split_and!; try lia. apply (pow2_mod16 e); [lia|done].
  - rewrite Z.max_r by lia. split_and!; try lia. apply (pow2_mod16 e); [lia|done].
Qed.

Lemma accessible_cons (r : Z * Z) (regions : list (Z * Z)) (p : Z) :
  accessible regions p = true → accessible (r :: regions) p = true.
Proof.
  unfold accessible. intros [H1 H2]%andb_prop. rewrite H1. simpl.
  rewrite H2. apply orb_true_r.
Qed.

Lemma accessible_here (base n : Z) (regions : list (Z * Z)) (p : Z) :
  base ≤ p → p + 8 ≤ base + n → p mod 8 = 0 →
  accessible ((base, n) :: regions) p = true.
Proof.
  intros. apply (accessible_intro _ (base, n)); try done. by left.
Qed.

Lemma fresh_cell (regions : list (Z * Z)) (base n p : Z) :
  Forall (apart (base, n)) regions → accessible regions p = true →
  p + 8 ≤ base ∨ base + n ≤ p.
Proof.
  intros Hap (_ & r & Hr & H1 & H2)%accessible_elim.
  rewrite Forall_forall in Hap. specialize (Hap r Hr).
  unfold apart in Hap. simpl in Hap. lia.
Qed.

Ltac rd_lia :=
  repeat first
    [ rewrite rd_insert_ne by lia
    | match goal with
      | |- context [rd (<[?k:=?v]> ?m) ?p] =>
          replace p with k by lia; rewrite rd_insert_eq
      end ].

Lemma next_multiplier_ok (j : Z) :
  0 ≤ j ≤ 5 → ∃ j', 0 ≤ j' ≤ 5 ∧ next_multiplier (2 ^ j) = 2 ^ j'.
Proof.
  intros Hj. unfold next_multiplier, MAX_PAGE_PER_MAP.
  assert (j = 0 ∨ j = 1 ∨ j = 2 ∨ j = 3 ∨ j = 4 ∨ j = 5) as Hc by lia.
  destruct Hc as [->|[->|[->|[->|[->| ->]]]]]; simpl.
  - exists 1. done.
  - exists 2. done.
  - exists 3. done.
  - exists 4. done.
  - exists 5. done.
  - exists 5. done.
Qed.

Lemma extend_spec (s : state) (H : list chunk) (fl : list Z) (mem_map : Z → Z)
    (need : Z) :
  heap_inv s H fl → params_ok s → pager_ok s mem_map →
  0 ≤ need → need + PAGE_OVERHEAD + pagesize s ≤ 2 ^ 31 →
  MIN_BLOCK_SIZE + PAGE_OVERHEAD ≤ extend_request need s →
  Z.of_nat (length H) + 1 < 2 ^ 31 →
  let n := extend_request need s in
  let base := mem_map n in
  if base =? 0
  then extend mem_map need s =
       Ok (0, set_map_multiplier (next_multiplier (map_multiplier s)) s)
  else ∃ s', extend mem_map need s = Ok (base + PAGE_OVERHEAD, s') ∧
             heap_inv s' (mkChunk base [(n - PAGE_OVERHEAD, false)] :: H)
                      (base + PAGE_OVERHEAD :: fl) ∧
             map_multiplier s' = next_multiplier (map_multiplier s) ∧
             pagesize s' = pagesize s.
Proof.
  intros (Hrep & Hp & Hadj) Hpar Hpg Hn0 Hb Hmin Hcnt n base.
  destruct (extend_request_spec s need Hpar Hn0 Hb) as (_ & [Hn1 Hn2] & Hn3).
  fold n in Hn1, Hn2, Hn3, Hmin.
  destruct Hpar as [(e & He & Eps) (j & Hj & Emul)].
  assert (1 ≤ map_multiplier s ≤ 32) as Hmul.
  { rewrite Emul. split.
    - assert (0 < 2 ^ j) by (apply Z.pow_pos_nonneg; lia). lia.
    - change 32 with (2 ^ 5). apply Z.pow_le_mono_r; lia. }
  unfold MIN_BLOCK_SIZE, PAGE_OVERHEAD, PAGE_PAD, OVERHEAD, ALIGNMENT in *.
  unfold extend. mstep. fold n. mstep.
  assert ((if map_multiplier s <? MAX_PAGE_PER_MAP
           then to_int (map_multiplier s * 2) else map_multiplier s) =
          next_multiplier (map_multiplier s)) as Enm.
  { unfold next_multiplier, MAX_PAGE_PER_MAP.
    destruct (map_multiplier s <? 32); [|done]. rewrite to_int_small; lia. }
  set (s0 := set_map_multiplier (next_multiplier (map_multiplier s)) s).
  rewrite (wrap64_small n) by lia. fold base.
  assert (∀ (k : unit → M Z),
    ((if map_multiplier s <? MAX_PAGE_PER_MAP
      then modify (set_map_multiplier (to_int (map_multiplier s * 2)))
      else mret ()) ≫= k) s = k tt s0) as Estep.
  { intros k. unfold s0. rewrite <- Enm.
    destruct (map_multiplier s <? MAX_PAGE_PER_MAP); [done|].
    rewrite bind_mret. by destruct s. }
  rewrite Estep.
  destruct (base =? 0) eqn:Hbase; [done|].
  apply Z.eqb_neq in Hbase. destruct (Hpg n Hbase) as (Hb0 & Hbm & Hbd).
  fold base in Hb0, Hbm, Hbd.
  assert (base mod 16 = 0) as Hb16.
  { apply (pow2_mod16 e); [lia|]. by rewrite <- Eps. }
  do 3 mstep.
  change (num_page_chunks s0) with (num_page_chunks s).
  change (mapped s0) with (mapped s).
  unfold PAGE_OVERHEAD, PAGE_PAD, OVERHEAD.
  rewrite (to_int_small (num_page_chunks s + 1))
    by (rewrite (rep_count _ _ _ Hrep); lia).
  rewrite (wrap64_small (n - (8 + (8 + 8) + 8))) by lia.
  rewrite (to_int_small (n - (8 + (8 + 8) + 8))) by lia.
  unfold PACK at 4 5. rewrite Z.lor_0_r.
  rewrite (wrap64_small (n - (8 + (8 + 8) + 8))) by lia.
  replace (base + 8 + (8 + 8) + 8) with (base + 32) by lia.
  assert (∀ p, base ≤ p → p + 8 ≤ base + n → p mod 8 = 0 →
               accessible ((base, n) :: mapped s) p = true) as Hnew.
  { intros. by apply accessible_here. }
  do 4 (mstep_with ltac:(apply Hnew; unfold HDRP; [lia|lia|zmod])).
  rewrite bind_FTRP. 2:{ msimpl. apply Hnew; unfold HDRP; [lia|lia|zmod]. }
  msimpl. rd_simpl. rewrite size_of_raw by (try lia; zmod).
  unfold OVERHEAD.
  replace (base + 32 + (n - (8 + (8 + 8) + 8)) - (8 + 8)) with (base + n - 16) by lia.
  mstep_with ltac:(apply Hnew; [lia|lia|zmod]).
  set (c := mkChunk base [(n - (8 + (8 + 8) + 8), false)]).
  set (s1 := set_mem <[base + n - 16:=_]> _).
  assert (heap_wf H) as Hwf by (by eapply rep_heap_wf).
  assert (∀ p, accessible (mapped s) p = true →
               rd (mem s1) p = rd (mem s) p) as Hold.
  { intros p Hacc. destruct (fresh_cell _ base n p Hbd Hacc).
    - subst s1. msimpl. rewrite !rd_insert_ne by (unfold HDRP; lia). done.
    - subst s1. msimpl. rewrite !rd_insert_ne by (unfold HDRP; lia). done. }
  assert (chunk_wf c) as Hc.
  { unfold chunk_wf, c, block_ok, ALIGNMENT, MIN_BLOCK_SIZE, PAGE_OVERHEAD,
      PAGE_PAD, OVERHEAD. simpl. split_and!; try lia.
    apply Forall_singleton. unfold ALIGNMENT. simpl. split; [lia|zmod]. }
  assert (region c = (base, n)) as Ereg.
  { unfold region, c, PAGE_OVERHEAD, PAGE_PAD, OVERHEAD. simpl. f_equal. lia. }
  assert (heap_rep s1 (c :: H) fl) as Hrep1.
  { split.
    - rewrite fmap_cons, Ereg, <- (rep_mapped _ _ _ Hrep). done.
    - constructor; [done|]. apply Hwf.
    - rewrite fmap_cons, Ereg. split; [|apply Hwf].
      by rewrite <- (rep_mapped _ _ _ Hrep).
    - change (all_blocks (c :: H)) with (chunk_blocks c ++ all_blocks H).
      apply Forall_app. split.
      + unfold chunk_blocks, layout, c, sentinel, terminator, tag_ok, tag,
          HDRP, PAGE_PAD, OVERHEAD. simpl.
        repeat constructor; simpl; subst s1; msimpl; unfold HDRP, PACK;
          simpl Z.b2z; rewrite ?Z.lor_0_r; rd_lia; done.
      + apply Forall_forall. intros b Hin.
        destruct (rep_tag _ _ _ _ Hrep Hin) as [T1 T2].
        destruct (rep_tag_accessible _ _ _ _ Hrep Hin) as [A1 A2].
        split; by rewrite Hold.
    - apply (dseg_agree (mem s)); [|apply Hrep].
      intros a Ha. rewrite Hp in Ha.
      destruct (free_addrs_accessible H Hwf a Ha) as [A1 A2].
      rewrite <- (rep_mapped _ _ _ Hrep) in A1, A2.
      split; by apply Hold.
    - apply Hrep.
    - subst s1. msimpl. rewrite (rep_count _ _ _ Hrep). simpl length. lia.
    - simpl length. lia. }
  replace (base + (8 + (8 + 8) + 8)) with (base + 32) by lia.
  assert (free_addrs (c :: H) = base + 32 :: free_addrs H) as Efree.
  { unfold free_addrs.
    change (interior_blocks (c :: H)) with (interior c ++ interior_blocks H).
    rewrite addrs_of_app. done. }
  assert (heap_wf (c :: H)) as Hwf1 by (by eapply rep_heap_wf).
  pose proof (free_addrs_apart _ Hwf1) as Hap1. rewrite Efree in Hap1.
  apply nodes_apart_cons in Hap1 as (Hap & Hni & Hfar).
  destruct (add_free_spec s1 fl (base + 32)) as (s' & E & Hd & Hh & Hg & Hfr).
  - apply Hrep1.
  - apply Hrep1.
  - lia.
  - apply Hnew; unfold next_field; [lia|lia|zmod].
  - apply Hnew; unfold prev_field; [lia|lia|zmod].
  - intros a Ha. rewrite Hp in Ha.
    destruct (free_addrs_accessible H Hwf a Ha) as [A1 A2].
    rewrite <- (rep_mapped _ _ _ Hrep) in A1, A2.
    split; by apply accessible_cons.
  - by apply (nodes_apart_perm (free_addrs H)).
  - intros a Ha. rewrite Hp in Ha. destruct (Hfar a Ha); lia.
  - exists s'. rewrite (bind_ok _ _ _ _ _ E).
    split; [done|]. split; [split; [|split]|].
    + apply (rep_list_phase s1 s' (c :: H) fl (base + 32 :: fl) (base + 32 :: fl));
        try done.
      intros a Ha. rewrite Efree. rewrite <- Hp. done.
    + rewrite Efree. by constructor.
    + constructor; [done|]. done.
    + destruct Hg as (_ & _ & -> & -> & _). done.
Qed.

(** ** Serving a request *)

(** For a request of [r] bytes whose block size fits an [int],
    [request_size] is [r + 16] rounded up to a multiple of 16. *)
Lemma request_size_spec (r : Z) :
  0 ≤ r → r + 31 < 2 ^ 31 →
  request_size r = (r + 31) / 16 * 16 ∧
  r + OVERHEAD ≤ request_size r ≤ r + 31 ∧ request_size r mod 16 = 0.
Proof.
  intros Hr Hb. unfold request_size, ALIGN, OVERHEAD, ALIGNMENT.
  rewrite (wrap64_small (r + (8 + 8))) by lia.
  rewrite (wrap64_small (r + (8 + 8) + (16 - 1))) by lia.
  change (16 - 1) with (2 ^ 4 - 1). rewrite land_mask by lia.
  change (2 ^ 4) with 16. change (16 - 1) with 15.
  pose proof (Z.div_mod (r + (8 + 8) + 15) 16).
  pose proof (Z.mod_pos_bound (r + (8 + 8) + 15) 16).
  rewrite to_int_small by lia.
  replace (r + (8 + 8) + 15) with (r + 31) in * by lia.
  split_and!; try lia. zmod.
Qed.

Lemma first_fit_Some (H : list chunk) (need : Z) (fl : list Z) (a : Z) :
  first_fit H need fl = Some a → a ∈ fl ∧ need ≤ size_at H a.
Proof.
  unfold first_fit. intros E. apply head_Some_elem_of in E.
  by apply list_elem_of_filter in E as [? ?].
Qed.

(** The search, on heap descriptions: the first fitting block of the
    list is allocated; without one the state is unchanged. *)
Lemma find_spec (s : state) (H : list chunk) (fl : list Z) (need : Z) (fuel : nat) :
  heap_inv s H fl → (length fl ≤ fuel)%nat →
  MIN_BLOCK_SIZE ≤ need → need mod 16 = 0 →
  match first_fit H need fl with
  | Some a =>
      ∃ k c s', H = plug k [(c, false)] ∧ hole k = a ∧ need ≤ c ∧ a ≠ 0 ∧
                find_free_block fuel need s = Ok (a, s') ∧
                heap_inv s' (plug k (alloc_blocks c need)) (alloc_list k c need fl) ∧
                same_globals s s'
  | None => find_free_block fuel need s = Ok (0, s)
  end.
Proof.
  intros Hinv Hfuel Hmin Hmod. unfold find_free_block. rewrite bind_gets.
  pose proof Hinv as (Hrep & _ & _). rewrite (rep_head _ _ _ Hrep).
  rewrite (find_from_spec s H fl need fuel [] fl Hinv eq_refl Hfuel).
  destruct (first_fit H need fl) as [a|] eqn:E; [|done].
  apply first_fit_Some in E as [Ha Hsz].
  destruct (free_block_ctx s H fl a Hinv Ha) as (k & c & -> & <- & Ec).
  rewrite Ec in Hsz. exists k, c.
  destruct (allocate_spec s k c need fl Hinv) as (s' & Ea & Hinv' & Hg);
    [lia|done|].
  exists s'. rewrite (bind_ok _ _ _ _ _ Ea). split_and!; try done.
  pose proof (dseg_nonzero _ _ _ _ (rep_links _ _ _ Hrep)) as Hnz.
  rewrite Forall_forall in Hnz. by apply Hnz.
Qed.

Lemma find_hit (s : state) (k : ctx) (c : Z) (fl : list Z) (need : Z) (fuel : nat) :
  heap_inv s (plug k [(c, false)]) fl → (length fl ≤ fuel)%nat →
  MIN_BLOCK_SIZE ≤ need ≤ c → need mod 16 = 0 →
  first_fit (plug k [(c, false)]) need fl = Some (hole k) →
  ∃ s', find_free_block fuel need s = Ok (hole k, s') ∧
        heap_inv s' (plug k (alloc_blocks c need)) (alloc_list k c need fl) ∧
        same_globals s s'.
Proof.
  intros Hinv Hfuel Hmin Hmod E. unfold find_free_block. rewrite bind_gets.
  pose proof Hinv as (Hrep & _ & _). rewrite (rep_head _ _ _ Hrep).
  rewrite (find_from_spec s _ fl need fuel [] fl Hinv eq_refl Hfuel), E.
  destruct (allocate_spec s k c need fl Hinv) as (s' & Ea & Hinv' & Hg);
    [lia|done|].
  exists s'. by rewrite (bind_ok _ _ _ _ _ Ea).
Qed.

(** [mm_malloc] on heap descriptions, for a request of [r] bytes with
    [1 ≤ r] whose sizes fit an [int].  With a fitting block on the free
    list the first one is allocated.  Without one, [extend] asks the
    pager for a chunk; when the pager refuses, null is returned and only
    the multiplier has changed; otherwise the block of the new chunk
    serves the request. *)
Lemma mm_malloc_spec (s : state) (H : list chunk) (fl : list Z) (mem_map : Z → Z)
    (fuel : nat) (r : Z) :
  heap_inv s H fl → params_ok s → pager_ok s mem_map →
  1 ≤ r → r + 31 + PAGE_OVERHEAD + pagesize s ≤ 2 ^ 31 →
  (S (length fl) ≤ fuel)%nat → Z.of_nat (length H) + 1 < 2 ^ 31 →
  let need := request_size r in
  match first_fit H need fl with
  | Some a =>
      ∃ k c s', H = plug k [(c, false)] ∧ hole k = a ∧ need ≤ c ∧
                mm_malloc fuel mem_map r s = Ok (a, s') ∧
                heap_inv s' (plug k (alloc_blocks c need)) (alloc_list k c need fl) ∧
                same_globals s s'
  | None =>
      let n := extend_request need s in
      let base := mem_map n in
      if base =? 0
      then mm_malloc fuel mem_map r s =
           Ok (0, set_map_multiplier (next_multiplier (map_multiplier s)) s)
      else ∃ s', mm_malloc fuel mem_map r s = Ok (base + PAGE_OVERHEAD, s') ∧
                 heap_inv s'
                   (plug (mkCtx [] base [] [] H)
                         (alloc_blocks (n - PAGE_OVERHEAD) need))
                   (alloc_list (mkCtx [] base [] [] H) (n - PAGE_OVERHEAD) need
                               (base + PAGE_OVERHEAD :: fl)) ∧
                 need ≤ n - PAGE_OVERHEAD ∧
                 map_multiplier s' = next_multiplier (map_multiplier s) ∧
                 pagesize s' = pagesize s
  end.
Proof.
  intros Hinv Hpar Hpg Hr Hb Hfuel Hcnt need.
  assert (0 < pagesize s) as Hps.
  { destruct Hpar as [(e & He & ->) _]. apply Z.pow_pos_nonneg; lia. }
  pose proof Hb as Hb'. unfold PAGE_OVERHEAD, PAGE_PAD, OVERHEAD in Hb'.
  destruct (request_size_spec r) as (_ & [Hn1 Hn2] & Hn3); [lia|lia|].
  fold need in Hn1, Hn2, Hn3. unfold OVERHEAD in Hn1.
  assert (length fl ≤ fuel)%nat as Hfuel' by lia.
  assert (MIN_BLOCK_SIZE ≤ need) as Hmin.
  { unfold MIN_BLOCK_SIZE, OVERHEAD, ALIGNMENT. zmod. }
  unfold mm_malloc. fold need. rewrite (wrap64_small need) by lia.
  pose proof (find_spec s H fl need fuel Hinv) as Hfind.
  destruct (first_fit H need fl) as [a|] eqn:Efit.
  - destruct Hfind as (k & c & s' & -> & <- & Hc & Hnz & E & Hinv' & Hg);
      [done|done|done|].
    exists k, c, s'. rewrite (bind_ok _ _ _ _ _ E).
    apply Z.eqb_neq in Hnz. rewrite Hnz. done.
  - set (n := extend_request need s). set (base := mem_map n).
    rewrite (bind_ok _ _ _ _ _ (Hfind Hfuel' Hmin Hn3)).
    cbn [Z.eqb].
    pose proof (extend_spec s H fl mem_map need Hinv Hpar Hpg) as Hext.
    destruct (extend_request_spec s need Hpar) as (_ & [Hm1 Hm2] & Hm3);
      [lia|lia|]. fold n in Hm1, Hm2, Hm3.
    simpl in Hext. fold n base in Hext.
    unfold MIN_BLOCK_SIZE, PAGE_OVERHEAD, PAGE_PAD, OVERHEAD, ALIGNMENT in *.
    destruct (base =? 0) eqn:Hbase.
    + rewrite (bind_ok _ _ _ _ _ (Hext ltac:(lia) ltac:(lia) ltac:(lia) Hcnt)).
      done.
    + destruct Hext as (s1 & E1 & Hinv1 & Hmul & Hpsz); [lia|lia|lia|done|].
      rewrite (bind_ok _ _ _ _ _ E1).
      apply Z.eqb_neq in Hbase.
      pose proof Hinv1 as (Hrep1 & _ & _).
      pose proof (rep_heap_wf _ _ _ Hrep1) as Hwf1.
      assert (0 < base) as Hb0.
      { destruct Hwf1 as [Hw _]. apply Forall_cons in Hw as [Hc _]. apply Hc. }
      destruct (base + (8 + (8 + 8) + 8) =? 0) eqn:Hz; [apply Z.eqb_eq in Hz; lia|].
      set (k0 := mkCtx [] base [] [] H).
      assert (hole k0 = base + (8 + (8 + 8) + 8)) as Ehole.
      { unfold hole, PAGE_OVERHEAD, PAGE_PAD, OVERHEAD. simpl. lia. }
      destruct (find_hit s1 k0 (n - (8 + (8 + 8) + 8)) (base + (8 + (8 + 8) + 8) :: fl)
                  need fuel) as (s' & E2 & Hinv2 & Hg2).
      * exact Hinv1.
      * simpl. lia.
      * unfold MIN_BLOCK_SIZE, OVERHEAD, ALIGNMENT. lia.
      * done.
      * rewrite first_fit_cons.
        assert (size_at (plug k0 [(n - (8 + (8 + 8) + 8), false)])
                        (base + (8 + (8 + 8) + 8)) = n - (8 + (8 + 8) + 8)) as ->.
        { apply (size_at_block _ (mkBlock (base + (8 + (8 + 8) + 8))
                                          (n - (8 + (8 + 8) + 8)) false) Hwf1).
          apply list_elem_of_bind. eexists. split; [|by left]. by left. }
        destruct (need <=? n - (8 + (8 + 8) + 8)) eqn:El; [by rewrite Ehole|].
        apply Z.leb_gt in El. lia.
      * rewrite Ehole in E2. exists s'. split; [exact E2|]. split; [exact Hinv2|].
        destruct Hg2 as (_ & _ & -> & -> & _). split; [lia|done].
Qed.

(** A request served by a block of the free list: no call of [extend],
    hence no assumption on the pager. *)
Lemma mm_malloc_fit (s : state) (H : list chunk) (fl : list Z) (mem_map : Z → Z)
    (fuel : nat) (r a : Z) :
  heap_inv s H fl → (length fl ≤ fuel)%nat → 1 ≤ r → r + 31 < 2 ^ 31 →
  first_fit H (request_size r) fl = Some a →
  ∃ k c s', H = plug k [(c, false)] ∧ hole k = a ∧
            MIN_BLOCK_SIZE ≤ request_size r ≤ c ∧
            mm_malloc fuel mem_map r s = Ok (a, s') ∧
            heap_inv s' (plug k (alloc_blocks c (request_size r)))
                     (alloc_list k c (request_size r) fl) ∧
            same_globals s s'.
Proof.
  intros Hinv Hfuel Hr Hb Efit.
  destruct (request_size_spec r) as (_ & [Hn1 Hn2] & Hn3); [lia|lia|].
  unfold OVERHEAD in Hn1.
  assert (MIN_BLOCK_SIZE ≤ request_size r) as Hmin.
  { unfold MIN_BLOCK_SIZE, OVERHEAD, ALIGNMENT. zmod. }
  unfold mm_malloc. rewrite (wrap64_small (request_size r)) by lia.
  pose proof (find_spec s H fl (request_size r) fuel Hinv Hfuel Hmin Hn3) as Hfind.
  rewrite Efit in Hfind.
  destruct Hfind as (k & c & s' & -> & <- & Hc & Hnz & E & Hinv' & Hg).
  exists k, c, s'. rewrite (bind_ok _ _ _ _ _ E).
  apply Z.eqb_neq in Hnz. rewrite Hnz. done.
Qed.

(** The neighbours of a free block are allocated. *)
Lemma free_hole_neighbours (k : ctx) (c : Z) :
  Forall (λ c, no_adjacent_free (c_blocks c)) (plug k [(c, false)]) →
  (left_nb k).2 = true ∧ (right_nb k).2 = true.
Proof.
  intros (_ & Hmid & _)%no_adjacent_plug.
  apply no_adjacent_hole in Hmid as (_ & _ & [?|?] & [?|?]); done.
Qed.

Lemma ctx_eta (k : ctx) :
  mkCtx (x_before k) (x_base k) (x_left k) (x_right k) (x_after k) = k.
Proof. by destruct k. Qed.

Lemma unlink_head (a : Z) (l : list Z) : NoDup (a :: l) → unlink a (a :: l) = l.
Proof. intros Hnd. apply (unlink_middle [] l a Hnd). Qed.

Lemma unlink_cons_unlink (a : Z) (l : list Z) :
  unlink a (a :: unlink a l) = unlink a l.
Proof.
  unfold unlink. rewrite filter_cons_False by (intros ?; done).
  apply filter_all. by intros x [? _]%list_elem_of_filter.
Qed.

(** ** The multiplier *)

Lemma keeps_bind {A B : Type} (c : M A) (k : A → M B) :
  keeps_multiplier c → (∀ a, keeps_multiplier (k a)) → keeps_multiplier (c ≫= k).
Proof.
  intros Hc Hk s r s' E. unfold mbind, M_bind, bind in E.
  destruct (c s) as [[a s1]| |] eqn:Ec; [|done|done].
  rewrite (Hk a s1 r s' E). by eapply Hc.
Qed.

Lemma keeps_mret {A : Type} (a : A) : keeps_multiplier (mret a).
Proof. intros s r s' E. cbv in E. by simplify_eq. Qed.

Lemma keeps_gets {A : Type} (f : state → A) : keeps_multiplier (gets f).
Proof. intros s r s' E. cbv in E. by simplify_eq. Qed.

Lemma keeps_modify (f : state → state) :
  (∀ s, map_multiplier (f s) = map_multiplier s) → keeps_multiplier (modify f).
Proof. intros Hf s r s' E. unfold modify in E. simplify_eq. apply Hf. Qed.

Lemma keeps_GET (p : Z) : keeps_multiplier (GET p).
Proof.
  intros s r s' E. unfold GET in E.
  destruct (accessible (mapped s) p); [|done]. by simplify_eq.
Qed.

Lemma keeps_PUT (p v : Z) : keeps_multiplier (PUT p v).
Proof.
  intros s r s' E. unfold PUT in E.
  destruct (accessible (mapped s) p); [|done]. by simplify_eq.
Qed.

Lemma keeps_mem_unmap (base n : Z) : keeps_multiplier (mem_unmap base n).
Proof.
  intros s r s' E. unfold mem_unmap in E.
  case_bool_decide; [|done]. by simplify_eq.
Qed.

Ltac keeps :=
  cbv zeta;
  repeat first
    [ apply keeps_mret | apply keeps_gets | apply keeps_GET | apply keeps_PUT
    | apply keeps_mem_unmap
    | apply keeps_modify; by intros []
    | apply keeps_bind; [|intros ?]
    | match goal with
      | |- keeps_multiplier (if ?b then _ else _) => destruct b
      | |- keeps_multiplier (match ?b with _ => _ end) => destruct b
      end
    | match goal with H : _ |- _ => apply H end ].

Lemma keeps_GET_SIZE (p : Z) : keeps_multiplier (GET_SIZE p).
Proof. unfold GET_SIZE. keeps. Qed.

Lemma keeps_GET_ALLOC (p : Z) : keeps_multiplier (GET_ALLOC p).
Proof. unfold GET_ALLOC. keeps. Qed.

Lemma keeps_FTRP (p : Z) : keeps_multiplier (FTRP p).
Proof. unfold FTRP, GET_SIZE. keeps. Qed.

Lemma keeps_NEXT_BLKP (p : Z) : keeps_multiplier (NEXT_BLKP p).
Proof. unfold NEXT_BLKP, GET_SIZE. keeps. Qed.

Lemma keeps_PREV_BLKP (p : Z) : keeps_multiplier (PREV_BLKP p).
Proof. unfold PREV_BLKP, GET_SIZE. keeps. Qed.

Lemma keeps_add_free (p : Z) : keeps_multiplier (add_free p).
Proof. unfold add_free. keeps. Qed.

Lemma keeps_del_free (p : Z) : keeps_multiplier (del_free p).
Proof. unfold del_free. keeps. Qed.

Lemma keeps_allocate (bp size : Z) : keeps_multiplier (allocate bp size).
Proof.
  unfold allocate, FTRP, NEXT_BLKP, GET_SIZE.
  pose proof keeps_add_free. pose proof keeps_del_free. keeps.
Qed.

Lemma keeps_find_from (fuel : nat) (n reqsize : Z) :
  keeps_multiplier (find_free_block_from fuel n reqsize).
Proof.
  revert n. induction fuel as [|fuel IH]; intros n; simpl.
  - destruct (n =? 0); [apply keeps_mret|]. by intros s r s' E.
  - pose proof keeps_allocate. unfold GET_SIZE. keeps.
Qed.

Lemma keeps_find (fuel : nat) (reqsize : Z) :
  keeps_multiplier (find_free_block fuel reqsize).
Proof. unfold find_free_block. pose proof keeps_find_from. keeps. Qed.

Lemma keeps_coalesce (ptr : Z) : keeps_multiplier (coalesce ptr).
Proof.
  unfold coalesce, PREV_BLKP, NEXT_BLKP, FTRP, GET_SIZE, GET_ALLOC.
  pose proof keeps_add_free. pose proof keeps_del_free. keeps.
Qed.

Lemma keeps_try_unmap (bp : Z) : keeps_multiplier (try_unmap bp).
Proof.
  unfold try_unmap, PREV_BLKP, NEXT_BLKP, GET_SIZE.
  pose proof keeps_del_free. keeps.
Qed.

Lemma keeps_mm_free (ptr : Z) : keeps_multiplier (mm_free ptr).
Proof.
  unfold mm_free, FTRP, GET_SIZE.
  pose proof keeps_coalesce. pose proof keeps_try_unmap. keeps.
Qed.

Lemma bind_split {A B : Type} (c : M A) (k : A → M B) (s : state) (r : B) (s' : state) :
  (c ≫= k) s = Ok (r, s') → ∃ a s1, c s = Ok (a, s1) ∧ k a s1 = Ok (r, s').
Proof.
  unfold mbind, M_bind, bind. destruct (c s) as [[a s1]| |]; [|done|done].
  intros E. by exists a, s1.
Qed.

(** The multiplier [extend] leaves, as the code computes it. *)
Lemma extend_multiplier (s : state) (mem_map : Z → Z) (need r : Z) (s' : state) :
  extend mem_map need s = Ok (r, s') →
  map_multiplier s' =
  if map_multiplier s <? MAX_PAGE_PER_MAP then to_int (map_multiplier s * 2)
  else map_multiplier s.
Proof.
  unfold extend. rewrite !bind_gets. intros E.
  apply bind_split in E as ([] & s1 & E1 & E2).
  match type of E2 with ?c _ = _ => assert (keeps_multiplier c) as Hk end.
  { unfold FTRP, GET_SIZE. pose proof keeps_add_free. keeps. }
  rewrite (Hk _ _ _ E2).
  destruct (map_multiplier s <? MAX_PAGE_PER_MAP).
  - unfold modify in E1. by simplify_eq.
  - cbv in E1. by simplify_eq.
Qed.

(** When the pager refuses, [extend] returns null and has advanced the
    multiplier; nothing else has changed. *)
Lemma extend_refused (s : state) (mem_map : Z → Z) (need : Z) :
  mem_map (wrap64 (extend_request need s)) = 0 →
  extend mem_map need s =
  Ok (0, if map_multiplier s <? MAX_PAGE_PER_MAP
         then set_map_multiplier (to_int (map_multiplier s * 2)) s
         else s).
Proof.
  intros E. unfold extend. rewrite !bind_gets.
  destruct (map_multiplier s <? MAX_PAGE_PER_MAP).
  - rewrite bind_modify. cbv zeta. by rewrite E.
  - rewrite bind_mret. cbv zeta. by rewrite E.
Qed.

(** [mm_malloc] changes the multiplier only through [extend]. *)
Lemma mm_malloc_multiplier (fuel : nat) (mem_map : Z → Z) (size : Z)
    (s : state) (r : Z) (s' : state) :
  mm_malloc fuel mem_map size s = Ok (r, s') →
  map_multiplier s' = map_multiplier s ∨
  map_multiplier s' =
    if map_multiplier s <? MAX_PAGE_PER_MAP then to_int (map_multiplier s * 2)
    else map_multiplier s.
Proof.
  unfold mm_malloc. intros E.
  apply bind_split in E as (p & s1 & E1 & E2).
  apply keeps_find in E1.
  destruct (p =? 0).
  - right. apply bind_split in E2 as (p' & s2 & E2 & E3).
    apply extend_multiplier in E2. rewrite E1 in E2. rewrite <- E2.
    destruct (p' =? 0).
    + cbv in E3. by simplify_eq.
    + by apply keeps_find in E3.
  - left. cbv in E2. by simplify_eq.
Qed.

Lemma next_multiplier_props (m : Z) :
  mult_ok m →
  mult_ok (next_multiplier m) ∧
  (if m <? MAX_PAGE_PER_MAP then to_int (m * 2) else m) = next_multiplier m ∧
  m ≤ next_multiplier m ≤ MAX_PAGE_PER_MAP ∧
  (m < MAX_PAGE_PER_MAP → next_multiplier m = 2 * m) ∧
  (m = MAX_PAGE_PER_MAP → next_multiplier m = MAX_PAGE_PER_MAP).
Proof.
  intros (j & Hj & ->).
  destruct (next_multiplier_ok j Hj) as (j' & Hj' & E).
  unfold mult_ok. split; [by eauto|].
  unfold next_multiplier, MAX_PAGE_PER_MAP in *.
  assert (j = 0 ∨ j = 1 ∨ j = 2 ∨ j = 3 ∨ j = 4 ∨ j = 5) as Hc by lia.
  destruct Hc as [->|[->|[->|[->|[->| ->]]]]]; by vm_compute.
Qed.

(** * The claims *)

(** ** Shared facts *)

(** The block in the hole of a heap description: its tags are in
    memory; when it is free it is on the free list, once. *)
Lemma hole_block_facts (s : state) (k : ctx) (sz : Z) (al : bool) (fl : list Z) :
  heap_rep s (plug k [(sz, al)]) fl →
  rd (mem s) (HDRP (hole k)) = PACK sz (Z.b2z al) ∧
  rd (mem s) (hole k + sz - OVERHEAD) = PACK sz (Z.b2z al) ∧
  0 < hole k ∧ hole k mod 16 = 0 ∧ 32 ≤ sz < 2 ^ 31 ∧ sz mod 16 = 0.
Proof.
  intros Hrep. pose proof (rep_heap_wf _ _ _ Hrep) as Hwf.
  assert (mkBlock (hole k) sz al ∈ interior_blocks (plug k [(sz, al)])) as Hin.
  { rewrite interior_blocks_plug. simpl. solve_elem. }
  destruct (rep_tag _ _ _ _ Hrep (interior_in_all _ _ Hin)) as [T1 T2].
  destruct (interior_block_props _ _ Hwf Hin) as (? & ? & ? & ?).
  simpl in *. done.
Qed.

Lemma hole_on_list (s : state) (k : ctx) (sz : Z) (fl : list Z) :
  heap_inv s (plug k [(sz, false)]) fl → hole k ∈ fl ∧ NoDup fl.
Proof.
  intros (Hrep & Hp & _). pose proof (rep_heap_wf _ _ _ Hrep) as Hwf. split.
  - rewrite Hp. apply free_addrs_hole. by left.
  - rewrite Hp. by apply NoDup_addrs_of.
Qed.

Lemma inv_NoDup (s : state) (H : list chunk) (fl : list Z) :
  heap_inv s H fl → NoDup fl.
Proof.
  intros (Hrep & Hp & _). rewrite Hp. apply NoDup_addrs_of.
  by eapply rep_heap_wf.
Qed.

(** ** C3: the coalescing table *)

(** C3: [coalesce] of a just-freed block [ptr] of size [sz] (tags
    cleared, not yet on the list) with left neighbour [L] and right
    neighbour [R] follows the four-case table.  With both neighbours
    allocated [ptr] is inserted at the head of the list and returned;
    with only [L] free the block of [L] gets the size
    [size L + sz], the list is unchanged and [L] is returned; with only
    [R] free the block of [ptr] gets the size [sz + size R], [R] is
    unlinked, [ptr] inserted and returned; with both free the block of
    [L] gets the size [size L + sz + size R], [R] is unlinked and [L]
    returned.  In every case header and footer of the resulting block
    hold the new size with the allocated bit clear, the block is on the
    free list exactly once, and both its neighbours are allocated. *)
Theorem coalesce_four_cases (s : state) (k : ctx) (sz : Z) (fl : list Z) :
  heap_rep s (plug k [(sz, false)]) fl →
  fl ≡ₚ free_addrs (plug k [(sz, true)]) →
  Forall (λ c, no_adjacent_free (c_blocks c)) (plug k [(sz, true)]) →
  let ptr := hole k in
  let L := left_nb k in
  let R := right_nb k in
  ∃ res size fl' s',
    coalesce ptr s = Ok (res, s') ∧
    (res, size, fl') =
      match L.2, R.2 with
      | true, true => (ptr, sz, ptr :: fl)
      | false, true => (ptr - L.1, L.1 + sz, fl)
      | true, false => (ptr, sz + R.1, ptr :: unlink (ptr + sz) fl)
      | false, false => (ptr - L.1, L.1 + sz + R.1, unlink (ptr + sz) fl)
      end ∧
    heap_inv s' (plug (coalesce_ctx k) [(size, false)]) fl' ∧
    hole (coalesce_ctx k) = res ∧
    rd (mem s') (HDRP res) = PACK size 0 ∧
    rd (mem s') (res + size - OVERHEAD) = PACK size 0 ∧
    res ∈ fl' ∧ NoDup fl' ∧
    (left_nb (coalesce_ctx k)).2 = true ∧ (right_nb (coalesce_ctx k)).2 = true.
Proof.
  intros Hrep Hp Hadj ptr L R.
  destruct (coalesce_spec s k sz fl Hrep Hp Hadj)
    as (s' & E & Hinv & _ & Eh & El & Er).
  exists (coalesce_addr k), (coalesce_size k sz), (coalesce_list k sz fl), s'.
  pose proof Hinv as (Hrep' & _ & _).
  destruct (hole_block_facts _ _ _ _ _ Hrep') as (T1 & T2 & _).
  destruct (hole_on_list _ _ _ _ Hinv) as [Hin Hnd].
  rewrite Eh in T1, T2, Hin.
  apply negb_false_iff in El, Er.
  split_and!; try done.
  unfold coalesce_addr, coalesce_size, coalesce_list, lfree, rfree.
  fold L R ptr. destruct (L.2), (R.2); simpl; repeat first [done | lia | progress f_equal].
Qed.

Ltac by_eval_core :=
  repeat first
    [ reflexivity | done | lia | split
    | match goal with |- Forall _ _ => constructor end
    | solve [apply perm_swap]
    | progress vm_compute
    | solve [left; by_eval_core] | solve [right; by_eval_core] ].
Ltac by_eval := vm_compute; by_eval_core.
Ltac forall_eval :=
  match goal with
  | |- Forall ?P ?l => let l' := eval vm_compute in l in change (Forall P l')
  end;
  repeat (apply Forall_cons; split; [by_eval|]); by apply Forall_nil.
Ltac disjoint_eval :=
  match goal with
  | |- regions_disjoint ?l =>
      let l' := eval vm_compute in l in change (regions_disjoint l')
  end;
  cbn [regions_disjoint]; by_eval_core.
Ltac eval_state s :=
  let v := eval vm_compute in s in
  let E := fresh "E" in
  assert (s = v) as E by (vm_compute; reflexivity); rewrite E; clear E.
Ltac concrete_rep :=
  split;
  [ by_eval | forall_eval | disjoint_eval | forall_eval
  | by_eval | by_eval | by_eval | by_eval ].
Ltac concrete_inv := split; [concrete_rep | split; [by_eval | forall_eval]].
Lemma coalesce_four_cases_witness :
  let s := exec (clear_tags 65600) st_three in
  let k := mkCtx [] 65536 [(32, false)] [(4000, false)] [] in
  let fl := [65568; 65632] in
  heap_rep s (plug k [(32, false)]) fl ∧
  fl ≡ₚ free_addrs (plug k [(32, true)]) ∧
  Forall (λ c, no_adjacent_free (c_blocks c)) (plug k [(32, true)]) ∧
  ∃ s', coalesce 65600 s = Ok (65568, s') ∧
        heap_inv s' [mkChunk 65536 [(4064, false)]] [65568].
Proof.
  intros s k fl.
  assert (heap_rep s (plug k [(32, false)]) fl) as H1.
  { subst s. eval_state (exec (clear_tags 65600) st_three). concrete_rep. }
  assert (fl ≡ₚ free_addrs (plug k [(32, true)])) as H2.
  { by_eval. }
  assert (Forall (λ c, no_adjacent_free (c_blocks c)) (plug k [(32, true)])) as H3.
  { forall_eval. }
  split_and!; try done.
  destruct (coalesce_four_cases s k 32 fl H1 H2 H3)
    as (res & size & fl' & s' & E & Et & Hinv & _).
  exists s'. injection Et as -> -> ->. split; [exact E|exact Hinv].
Defined.

(** ** C4: giving a chunk back *)

(** C4: [mm_free] of an allocated block clears its tags, coalesces it
    into the block [bp], and runs [try_unmap] on [bp] when the chunk
    count is above 1.  [try_unmap] gives the chunk back exactly when the
    size in the previous block's header is [OVERHEAD] (the sentinel) and
    the next block's header word is 9 (the terminator).  So the chunk of
    [bp] is unmapped if and only if both hold and the count is above 1.
    When it is, [bp] is first unlinked from the free list, the pager is
    given the base [address of the sentinel header - 8] and the size
    [size bp + PAGE_OVERHEAD], which is a live mapping, and the count is
    decremented.  Otherwise mappings and count are unchanged.  The count
    stays positive. *)
Theorem unmap_whole_chunk (s : state) (k : ctx) (sz : Z) (fl : list Z) :
  heap_inv s (plug k [(sz, true)]) fl →
  ∃ s1 bp s2 fl2 s',
    clear_tags (hole k) s = Ok (tt, s1) ∧
    coalesce (hole k) s1 = Ok (bp, s2) ∧
    dseg (mem s2) 0 fl2 0 ∧ free_list s2 = hd 0 fl2 ∧
    mm_free (hole k) s =
      (if 1 <? num_page_chunks s then try_unmap bp else mret tt) s2 ∧
    let size := size_field (rd (mem s2) (HDRP bp)) in
    let base := HDRP (bp - OVERHEAD) - 8 in
    try_unmap bp s2 =
      (if unmap_test (mem s2) bp
       then (del_free bp;;
             mem_unmap base (size + PAGE_OVERHEAD);;
             modify (λ s, set_num_page_chunks (to_int (num_page_chunks s - 1)) s)) s2
       else Ok (tt, s2)) ∧
    mm_free (hole k) s = Ok (tt, s') ∧
    0 < num_page_chunks s' ∧
    if unmap_test (mem s2) bp && (1 <? num_page_chunks s)
    then (base, size + PAGE_OVERHEAD) ∈ mapped s ∧
         mapped s' = filter (λ r, r ≠ (base, size + PAGE_OVERHEAD)) (mapped s) ∧
         bp ∈ fl2 ∧
         dseg (mem s') 0 (unlink bp fl2) 0 ∧ free_list s' = hd 0 (unlink bp fl2) ∧
         num_page_chunks s' = num_page_chunks s - 1
    else mapped s' = mapped s ∧ num_page_chunks s' = num_page_chunks s.
Proof.
  intros Hinv.
  destruct (mm_free_steps s k sz fl Hinv)
    as (s1 & s2 & E1 & Hrep1 & E2 & Hinv2 & Eh & Hg & Efree).
  destruct (mm_free_spec s k sz fl Hinv) as (s' & E & Hinv' & _ & _ & Hpost).
  pose proof Hinv as (Hrep & _ & _). pose proof Hinv2 as (Hrep2 & _ & _).
  pose proof Hinv' as (Hrep' & _ & _).
  destruct (unmap_test_spec _ _ _ _ Hrep2) as (Et & Es & _).
  pose proof (try_unmap_steps _ _ _ _ Hrep2) as Etry.
  rewrite Eh in Et, Es, Etry.
  destruct (hole_on_list _ _ _ _ Hinv2) as [Hin _]. rewrite Eh in Hin.
  destruct Hg as (Em & En & _).
  exists s1, (coalesce_addr k), s2, (coalesce_list k sz fl), s'.
  rewrite En in Efree. cbv zeta. rewrite Es, Et.
  assert (0 < num_page_chunks s) as Hpos.
  { rewrite (rep_count _ _ _ Hrep). unfold plug. rewrite length_app. simpl. lia. }
  assert ((1 <? num_page_chunks s) = (1 <? Z.of_nat (length (plug k [])))) as En1.
  { by rewrite (rep_count _ _ _ Hrep), (length_plug k [] [(sz, true)]). }
  split_and!; try done; try apply Hrep2.
  - by rewrite Es, Et in Etry.
  - unfold unmaps in Hpost. rewrite <- En1 in Hpost.
    destruct (1 <? num_page_chunks s) eqn:Hn; simpl in Hpost.
    + destruct (whole_chunk (coalesce_ctx k)).
      * destruct Hpost as (_ & _ & _ & ->). apply Z.ltb_lt in Hn. lia.
      * destruct Hpost as [_ ->]. done.
    + destruct Hpost as [_ ->]. done.
  - unfold free_list_after in Hrep'. unfold unmaps in Hpost, Hrep'.
    rewrite <- En1 in Hpost, Hrep'. rewrite andb_comm.
    destruct (1 <? num_page_chunks s) eqn:Hn; simpl in *; [|done].
    destruct (whole_chunk (coalesce_ctx k)); [|done].
    destruct Hpost as (Hm & Hr & <- & Hc).
    split_and!; try done; apply Hrep'.
Qed.



Lemma unmap_whole_chunk_witness :
  let k := mkCtx [mkChunk 131072 [(5024, true); (3136, false)]] 65536 []
                 [(848, false)] [] in
  heap_inv st_two_b (plug k [(3216, true)]) [68784; 136128] ∧
  ∃ s', mm_free 65568 st_two_b = Ok (tt, s') ∧ 0 < num_page_chunks s'.
Proof.
  intros k.
  assert (heap_inv st_two_b (plug k [(3216, true)]) [68784; 136128]) as H1.
  { eval_state st_two_b. concrete_inv. }
  split; [exact H1|].
  destruct (unmap_whole_chunk st_two_b k 3216 _ H1)
    as (s1 & bp & s2 & fl2 & s' & _ & _ & _ & _ & _ & _ & E & Hpos & _).
  exists s'. split; [exact E|exact Hpos].
Defined.

(** ** C10: the result of coalesce *)

(** C10: [coalesce] never returns null.  For an allocated block of a
    well-formed heap, [mm_free] clears the tags and [coalesce] then
    returns the block itself or its left neighbour: a non-null,
    16-aligned payload address of a free block of the resulting heap,
    which is the pointer [mm_free] passes to the unmap check.  The four
    tests on [lfree] and [rfree] cover every case, so the final
    return of null is not reached. *)
Theorem coalesce_never_null (s : state) (k : ctx) (sz : Z) (fl : list Z) :
  heap_inv s (plug k [(sz, true)]) fl →
  (∀ l r : bool,
     (negb l && negb r) || (l && negb r) || (negb l && r) || (l && r) = true) ∧
  ∃ s1 bp s2 H' fl',
    clear_tags (hole k) s = Ok (tt, s1) ∧
    coalesce (hole k) s1 = Ok (bp, s2) ∧
    bp ≠ 0 ∧ bp mod 16 = 0 ∧
    (bp = hole k ∨ bp = hole k - (left_nb k).1) ∧
    heap_inv s2 H' fl' ∧ bp ∈ free_addrs H' ∧
    mm_free (hole k) s =
      (if 1 <? num_page_chunks s2 then try_unmap bp else mret tt) s2.
Proof.
  intros Hinv. split; [by intros [] []|].
  destruct (mm_free_steps s k sz fl Hinv)
    as (s1 & s2 & E1 & Hrep1 & E2 & Hinv2 & Eh & Hg & Efree).
  pose proof Hinv2 as (Hrep2 & Hp2 & _).
  destruct (hole_block_facts _ _ _ _ _ Hrep2) as (_ & _ & Hpos & Hal & _).
  destruct (hole_on_list _ _ _ _ Hinv2) as [Hin _].
  rewrite Eh in Hpos, Hal, Hin. rewrite Hp2 in Hin.
  exists s1, (coalesce_addr k), s2. eexists _, _.
  split_and!; try done; [lia|].
  unfold coalesce_addr. destruct (lfree k); auto.
Qed.

Lemma coalesce_never_null_witness :
  let k := mkCtx [mkChunk 131072 [(5024, true); (3136, false)]] 65536 []
                 [(848, false)] [] in
  heap_inv st_two_b (plug k [(3216, true)]) [68784; 136128] ∧
  ∃ s1 bp s2, clear_tags 65568 st_two_b = Ok (tt, s1) ∧
              coalesce 65568 s1 = Ok (bp, s2) ∧ bp ≠ 0.
Proof.
  intros k.
  assert (heap_inv st_two_b (plug k [(3216, true)]) [68784; 136128]) as H1.
  { eval_state st_two_b. concrete_inv. }
  split; [exact H1|].
  destruct (coalesce_never_null st_two_b k 3216 _ H1)
    as (_ & s1 & bp & s2 & H' & fl' & E1 & E2 & Hnz & _).
  exists s1, bp, s2. split; [exact E1|]. split; [exact E2|exact Hnz].
Defined.

(** ** C9: the multiplier *)

(** C9: let [m] be the multiplier, one of 1, 2, 4, 8, 16, 32.  Every
    call of [extend] that returns leaves the multiplier [2 * m] when
    [m < 32] and [m] when [m = 32], so it never decreases and saturates
    at 32; a call on a well-formed heap returns.  When the pager
    refuses, [extend] returns null with the multiplier advanced all the
    same and nothing else changed.  [mm_free] leaves the multiplier as
    it is, also when it unmaps a chunk, and [mm_malloc] never lowers
    it. *)
Theorem multiplier_doubles_and_saturates (s : state) :
  mult_ok (map_multiplier s) →
  let m := map_multiplier s in
  (∀ mem_map need r s',
     extend mem_map need s = Ok (r, s') → map_multiplier s' = next_multiplier m) ∧
  (∀ mem_map need,
     mem_map (wrap64 (extend_request need s)) = 0 →
     extend mem_map need s = Ok (0, set_map_multiplier (next_multiplier m) s)) ∧
  (∀ H fl mem_map need,
     heap_inv s H fl → params_ok s → pager_ok s mem_map →
     MIN_BLOCK_SIZE ≤ need → need + PAGE_OVERHEAD + pagesize s ≤ 2 ^ 31 →
     Z.of_nat (length H) + 1 < 2 ^ 31 →
     ∃ r s', extend mem_map need s = Ok (r, s') ∧
             map_multiplier s' = next_multiplier m) ∧
  (m < MAX_PAGE_PER_MAP → next_multiplier m = 2 * m) ∧
  (m = MAX_PAGE_PER_MAP → next_multiplier m = MAX_PAGE_PER_MAP) ∧
  m ≤ next_multiplier m ≤ MAX_PAGE_PER_MAP ∧
  mult_ok (next_multiplier m) ∧
  (∀ ptr r s', mm_free ptr s = Ok (r, s') → map_multiplier s' = m) ∧
  (∀ k sz fl,
     heap_inv s (plug k [(sz, true)]) fl →
     ∃ s', mm_free (hole k) s = Ok (tt, s') ∧ map_multiplier s' = m ∧
           (unmaps k = true → num_page_chunks s' = num_page_chunks s - 1)) ∧
  (∀ fuel mem_map size r s',
     mm_malloc fuel mem_map size s = Ok (r, s') →
     m ≤ map_multiplier s' ≤ MAX_PAGE_PER_MAP ∧ mult_ok (map_multiplier s')).
Proof.
  intros Hm m.
  destruct (next_multiplier_props m Hm) as (Hok & En & [Hle1 Hle2] & Hlt & Heq).
  split_and!; try done.
  - intros mem_map need r s' E. by rewrite (extend_multiplier _ _ _ _ _ E).
  - intros mem_map need E. rewrite (extend_refused _ _ _ E). fold m.
    rewrite <- En. destruct (m <? MAX_PAGE_PER_MAP); [done|]. by destruct s.
  - intros H fl mem_map need Hinv Hpar Hpg Hmin Hb Hcnt.
    destruct (extend_request_spec s need Hpar) as (_ & [Hn1 _] & _);
      [unfold MIN_BLOCK_SIZE, OVERHEAD, ALIGNMENT in Hmin; lia|done|].
    pose proof (extend_spec s H fl mem_map need Hinv Hpar Hpg) as Hext.
    cbv zeta in Hext.
    destruct (mem_map (extend_request need s) =? 0).
    + eexists _, _. split; [apply Hext|done]; try done;
        unfold MIN_BLOCK_SIZE, OVERHEAD, ALIGNMENT in *; lia.
    + destruct Hext as (s' & E & _ & Em & _); try done;
        [unfold MIN_BLOCK_SIZE, OVERHEAD, ALIGNMENT in *; lia..|].
      by exists (mem_map (extend_request need s) + PAGE_OVERHEAD), s'.
  - intros ptr r s' E. by apply keeps_mm_free in E.
  - intros k sz fl Hinv.
    destruct (mm_free_spec s k sz fl Hinv) as (s' & E & _ & Em & _ & Hpost).
    exists s'. split_and!; try done. intros Hu. rewrite Hu in Hpost. apply Hpost.
  - intros fuel mem_map size r s' E.
    destruct (mm_malloc_multiplier _ _ _ _ _ _ E) as [->| ->].
    + fold m. split; [lia|done].
    + fold m. rewrite En. done.
Qed.

Lemma multiplier_doubles_and_saturates_witness :
  mult_ok (map_multiplier st_init) ∧
  extend (λ _, 0) 32 st_init = Ok (0, set_map_multiplier 2 st_init).
Proof.
  assert (mult_ok (map_multiplier st_init)) as H1 by (exists 0; by vm_compute).
  split; [exact H1|].
  destruct (multiplier_doubles_and_saturates st_init H1) as (_ & Href & _).
  by apply (Href (λ _, 0) 32).
Defined.

(** ** C8: allocate, then free *)

(** C8, as stated, fails.  In [st_three] the free list is 65568 (32
    bytes), 65632 (4000 bytes): a request of 100 bytes is served by the
    second block, and freeing it puts that block at the head of the
    list.  In [st_two] the first chunk is one free block and a second
    chunk is live: a request of 3200 bytes is served by the first chunk,
    and freeing it unmaps that chunk. *)
Lemma round_trip_counterexample :
  ¬ round_trip_restores 10 pager_by_size st_three 100 ∧
  ¬ round_trip_restores 10 pager_by_size st_two 3200.
Proof.
  split.
  - intros Hrt.
    destruct (Hrt 65632 (exec (mm_malloc 10 pager_by_size 100) st_three)
                (exec (mm_malloc 10 pager_by_size 100;; mm_free 65632) st_three))
      as [Hl _]; [by vm_compute..|].
    vm_compute in Hl. discriminate Hl.
  - intros Hrt.
    destruct (Hrt 65568 (exec (mm_malloc 10 pager_by_size 3200) st_two)
                (exec (mm_malloc 10 pager_by_size 3200;; mm_free 65568) st_two))
      as [_ Hc]; [by vm_compute..|].
    vm_compute in Hc. discriminate Hc.
Qed.

(** C8, amended: let a request of [n] bytes, [1 ≤ n] with a block size
    that fits an [int], be served by the block [a] that first-fit finds
    in the existing heap.  Then [p = mm_malloc(n); mm_free(p)] maps
    nothing and leaves the multiplier as it is.  When the block found is
    all of the interior of its chunk and more than one chunk is live,
    the chunk is unmapped: the heap is the heap before without that
    chunk, the free list the list before without [a], the chunk count
    one less.  Otherwise the blocks and their tags, the mappings and the
    chunk count are as before, and the free list holds the same blocks
    with [a] moved to the head. *)
Theorem round_trip_moves_block_to_head (s : state) (H : list chunk) (fl : list Z)
    (mem_map : Z → Z) (fuel : nat) (n a : Z) :
  heap_inv s H fl → (length fl ≤ fuel)%nat → 1 ≤ n → n + 31 < 2 ^ 31 →
  first_fit H (request_size n) fl = Some a →
  ∃ k c s1 s2,
    H = plug k [(c, false)] ∧ hole k = a ∧
    mm_malloc fuel mem_map n s = Ok (a, s1) ∧ mapped s1 = mapped s ∧
    mm_free a s1 = Ok (tt, s2) ∧
    map_multiplier s2 = map_multiplier s ∧ pagesize s2 = pagesize s ∧
    if (1 <? num_page_chunks s) && whole_chunk k
    then heap_inv s2 (x_before k ++ x_after k) (unlink a fl) ∧
         num_page_chunks s2 = num_page_chunks s - 1
    else heap_inv s2 H (a :: unlink a fl) ∧
         num_page_chunks s2 = num_page_chunks s ∧ mapped s2 = mapped s.
Proof.
  intros Hinv Hfuel Hn Hb Efit.
  destruct (mm_malloc_fit s H fl mem_map fuel n a Hinv Hfuel Hn Hb Efit)
    as (k & c & s1 & -> & <- & [Hmin Hc] & E1 & Hinv1 & Hg1).
  destruct Hinv as (Hrep & Hp & Hadj).
  destruct (free_hole_neighbours k c Hadj) as [HL HR].
  destruct Hg1 as (Em1 & En1 & Emm1 & Eps1 & _).
  assert ((1 <? num_page_chunks s) = (1 <? Z.of_nat (length (plug k [])))) as Ecnt.
  { by rewrite (rep_count _ _ _ Hrep), (length_plug k [] [(c, false)]). }
  exists k, c, s1.
  set (need := request_size n) in *.
  unfold alloc_blocks, alloc_list in Hinv1.
  destruct (MIN_BLOCK_SIZE <=? c - need) eqn:Hsplit.
  - (* the block was split *)
    set (k' := mkCtx (x_before k) (x_base k) (x_left k)
                     ((c - need, false) :: x_right k) (x_after k)).
    assert (plug k [(need, true); (c - need, false)] = plug k' [(need, true)]) as Epl.
    { destruct (plug_right k' (c - need, false) (x_right k) [(need, true)] eq_refl)
        as [-> _]. simpl. by rewrite ctx_eta. }
    rewrite Epl in Hinv1.
    pose proof (inv_NoDup _ _ _ Hinv1) as Hnd.
    destruct (mm_free_spec s1 k' need _ Hinv1) as (s2 & E2 & Hinv2 & Emm2 & Eps2 & Hpost).
    change (hole k') with (hole k) in E2.
    assert (lfree k' = false) as El by (unfold lfree; change (left_nb k') with (left_nb k); by rewrite HL).
    assert (rfree k' = true) as Er by done.
    assert (coalesce_ctx k' = k) as Ek.
    { unfold coalesce_ctx. rewrite El, Er. simpl. apply ctx_eta. }
    assert (coalesce_size k' need = c) as Es.
    { unfold coalesce_size. rewrite El, Er. simpl. lia. }
    assert (coalesce_addr k' = hole k) as Ea.
    { unfold coalesce_addr. by rewrite El. }
    assert (coalesce_list k' need (hole k + need :: unlink (hole k) fl) =
            hole k :: unlink (hole k) fl) as Efl.
    { unfold coalesce_list. rewrite El, Er. change (hole k') with (hole k).
      by rewrite unlink_head. }
    unfold free_heap, free_list_after in Hinv2. unfold unmaps in Hinv2, Hpost.
    rewrite Ek, Es, Ea, Efl in *.
    assert (length (plug k' []) = length (plug k [])) as Elen
      by (unfold plug; by rewrite !length_app).
    rewrite Elen, <- Ecnt in Hinv2, Hpost.
    exists s2. rewrite Emm2, Eps2, Em1, En1 in *.
    split_and!; try done.
    destruct ((1 <? num_page_chunks s) && whole_chunk k).
    + split; [|apply Hpost]. by rewrite unlink_cons_unlink in Hinv2.
    + by destruct Hpost.
  - (* the block was used whole *)
    destruct (mm_free_spec s1 k c _ Hinv1) as (s2 & E2 & Hinv2 & Emm2 & Eps2 & Hpost).
    assert (lfree k = false) as El by (unfold lfree; by rewrite HL).
    assert (rfree k = false) as Er by (unfold rfree; by rewrite HR).
    assert (coalesce_ctx k = k) as Ek.
    { unfold coalesce_ctx. rewrite El, Er. apply ctx_eta. }
    assert (coalesce_size k c = c) as Es.
    { unfold coalesce_size. rewrite El, Er. lia. }
    assert (coalesce_addr k = hole k) as Ea.
    { unfold coalesce_addr. by rewrite El. }
    assert (coalesce_list k c (unlink (hole k) fl) = hole k :: unlink (hole k) fl)
      as Efl.
    { unfold coalesce_list. by rewrite El, Er. }
    unfold free_heap, free_list_after in Hinv2. unfold unmaps in Hinv2, Hpost.
    rewrite Ek, Es, Ea, Efl in *.
    rewrite <- Ecnt in Hinv2, Hpost.
    exists s2. rewrite Emm2, Eps2, Em1, En1 in *.
    split_and!; try done.
    destruct ((1 <? num_page_chunks s) && whole_chunk k).
    + split; [|apply Hpost]. by rewrite unlink_cons_unlink in Hinv2.
    + by destruct Hpost.
Qed.

Lemma round_trip_moves_block_to_head_witness :
  let H := [mkChunk 65536 [(32, false); (32, true); (4000, false)]] in
  let fl := [65568; 65632] in
  heap_inv st_three H fl ∧ (length fl ≤ 10)%nat ∧ 1 ≤ 100 ∧ 100 + 31 < 2 ^ 31 ∧
  first_fit H (request_size 100) fl = Some 65632 ∧
  ∃ s2, (p ← mm_malloc 10 pager_by_size 100; mm_free p) st_three = Ok (tt, s2) ∧
        heap_inv s2 H [65632; 65568].
Proof.
  intros H fl.
  assert (heap_inv st_three H fl) as H1.
  { eval_state st_three. concrete_inv. }
  assert (first_fit H (request_size 100) fl = Some 65632) as H2
    by (vm_compute; reflexivity).
  assert (length fl ≤ 10)%nat as H3 by (simpl; lia).
  split_and!; try done.
  destruct (round_trip_moves_block_to_head st_three H fl pager_by_size 10 100 65632
              H1 H3 ltac:(lia) ltac:(lia) H2)
    as (k & c & s1 & s2 & EH & Eh & E1 & _ & E2 & _ & _ & Hpost).
  exists s2. rewrite (bind_ok _ _ _ _ _ E1). split; [exact E2|].
  assert ((1 <? num_page_chunks st_three) = false) as Ecnt by (vm_compute; reflexivity).
  rewrite Ecnt in Hpost. exact (proj1 Hpost).
Defined.

(** ** C1, C2, C5, C6, C7: requests whose size computation goes wrong

    [mm_malloc] computes [int newsize = ALIGN(size + OVERHEAD)]: the
    sum wraps at 2^64, the result is cut to an [int], and no minimum
    is applied.  The theorems below run the code, after [mm_init] with
    pages of 4096 bytes and a pager that grants every request up to 2^40
    bytes, on requests for which this matters. *)

(** C1: [mm_malloc(SIZE_MAX)] does not return null.  The block size
    wraps to 16, [extend] asks the pager for one page, which is granted,
    and the allocation of a 16-byte block then writes through the
    pointer 17 + 8: the call faults. *)
Theorem malloc_size_max_faults :
  request_size SIZE_MAX = 16 ∧
  extend_request (wrap64 (request_size SIZE_MAX)) st_init = 4096 ∧
  pager_by_size 4096 ≠ 0 ∧
  mm_malloc 10 pager_by_size SIZE_MAX st_init = Fault.
Proof. split_and!; by vm_compute. Qed.

(** C2: a request of 0 bytes gets the block size 16, below
    [MIN_BLOCK_SIZE]; served from a fresh chunk, the block of 4064 bytes
    is split at 16 bytes, the tags of the two parts and the list fields
    overlap, and the call faults. *)
Theorem malloc_zero_faults :
  request_size 0 = 16 ∧ request_size 0 < MIN_BLOCK_SIZE ∧
  mm_malloc 10 pager_by_size 0 st_init = Fault.
Proof. split_and!; by vm_compute. Qed.

(** C5: for [need = 2^31 - 4096] (a request of 2^31 - 4112 bytes) the
    mapping size of the specification is 2^31, the code asks the pager
    for 4096 bytes, the block of the new chunk has 4064 bytes, the
    second search fails and [mm_malloc] returns null with the chunk
    mapped. *)
Theorem extend_too_small :
  let need := request_size (2 ^ 31 - 4112) in
  need = 2 ^ 31 - 4096 ∧
  Z.max (page_align 4096 (need + PAGE_OVERHEAD)) (map_multiplier st_init * 4096) = 2 ^ 31 ∧
  extend_request need st_init = 4096 ∧
  ∃ s, mm_malloc 10 pager_by_size (2 ^ 31 - 4112) st_init = Ok (0, s) ∧
       mapped s = [(65536, 4096)] ∧ num_page_chunks s = 1 ∧
       size_field (rd (mem s) (HDRP 65568)) = 4064.
Proof.
  intros need. split; [vm_compute; reflexivity|].
  split; [vm_compute; reflexivity|]. split; [vm_compute; reflexivity|].
  eexists. split; [vm_compute; reflexivity|].
  split; [vm_compute; reflexivity|]. split; vm_compute; reflexivity.
Qed.

(** C6: a request of 2^32 - 16 bytes gets the block size 0.  The call
    returns 65568; the block at 65568 has its allocated bit set and is
    the head of the free list, its [next] field pointing to itself. *)
Theorem allocated_block_on_free_list :
  request_size (2 ^ 32 - 16) = 0 ∧
  ∃ s, mm_malloc 10 pager_by_size (2 ^ 32 - 16) st_init = Ok (65568, s) ∧
       Z.land (rd (mem s) (HDRP 65568)) 1 = 1 ∧
       free_list s = 65568 ∧ rd (mem s) (next_field 65568) = 65568.
Proof.
  split; [vm_compute; reflexivity|].
  eexists. split; [vm_compute; reflexivity|].
  repeat split; vm_compute; reflexivity.
Qed.

(** C7: a request of 2^32 + 100 bytes succeeds with a block of 128
    bytes: 112 bytes of payload follow the pointer returned. *)
Theorem payload_too_small :
  request_size (2 ^ 32 + 100) = 128 ∧
  ∃ s, mm_malloc 10 pager_by_size (2 ^ 32 + 100) st_init = Ok (65568, s) ∧
       size_field (rd (mem s) (HDRP 65568)) - OVERHEAD = 112 ∧
       112 < 2 ^ 32 + 100.
Proof.
  split; [vm_compute; reflexivity|].
  eexists. split; [vm_compute; reflexivity|].
  repeat split; vm_compute; reflexivity.
Qed.

(** * Further properties of the code *)

(** ** The macros *)

(** X1: a tag written with [PUT] and [PACK] is read back by [GET_SIZE]
    and [GET_ALLOC]: for a size that is a multiple of 16 the two give
    the size and the allocated bit.  The header of the terminator,
    [PACK 8 1], is the exception the comment in [try_unmap] points at:
    [GET_SIZE] reads its size as 0. *)
Theorem tag_round_trip (s : state) (p sz : Z) (al : bool) :
  accessible (mapped s) p = true → 0 ≤ sz < 2 ^ 63 → sz mod 16 = 0 →
  let s' := set_mem <[p:=PACK sz (Z.b2z al)]> s in
  (PUT p (PACK sz (Z.b2z al));; GET_SIZE p) s = Ok (sz, s') ∧
  (PUT p (PACK sz (Z.b2z al));; GET_ALLOC p) s = Ok (Z.b2z al, s') ∧
  (PUT p (PACK 8 1);; GET_SIZE p) s = Ok (0, set_mem <[p:=9]> s).
Proof.
  intros Hacc Hsz Hmod s'.
  assert (accessible (mapped s') p = true) as Hacc' by done.
  split_and!.
  - rewrite (bind_ok _ _ _ _ _ (PUT_ok s p _ Hacc)).
    rewrite GET_SIZE_ok by done. unfold s'. msimpl.
    rewrite rd_insert_eq. change (PACK sz (Z.b2z al)) with (tag sz al).
    by rewrite size_of_tag.
  - rewrite (bind_ok _ _ _ _ _ (PUT_ok s p _ Hacc)).
    rewrite GET_ALLOC_ok by done. unfold s'. msimpl.
    rewrite rd_insert_eq. change (PACK sz (Z.b2z al)) with (tag sz al).
    by rewrite alloc_of_tag by (by apply mod16_mod2).
  - rewrite (bind_ok _ _ _ _ _ (PUT_ok s p _ Hacc)).
    rewrite GET_SIZE_ok by done. msimpl. by rewrite rd_insert_eq.
Qed.

Lemma tag_round_trip_witness :
  accessible (mapped st_three) 65560 = true ∧ 0 ≤ 48 < 2 ^ 63 ∧ 48 mod 16 = 0 ∧
  (PUT 65560 (PACK 48 1);; GET_SIZE 65560) st_three =
    Ok (48, set_mem <[65560:=PACK 48 1]> st_three).
Proof.
  assert (accessible (mapped st_three) 65560 = true) as H1 by (vm_compute; reflexivity).
  split_and!; [done|lia|lia|done|].
  apply (tag_round_trip st_three 65560 48 true H1); [lia|done].
Defined.

(** X2: [ALIGN] rounds up to the next multiple of 16 and leaves a
    multiple of 16 as it is; within 15 of 2^64 the sum inside wraps and
    the result is 0. *)
Theorem ALIGN_rounds_up (x : Z) :
  0 ≤ x < 2 ^ 64 →
  (x ≤ 2 ^ 64 - 16 →
   ALIGN x mod 16 = 0 ∧ x ≤ ALIGN x < x + 16 ∧ ALIGN (ALIGN x) = ALIGN x) ∧
  (2 ^ 64 - 16 < x → ALIGN x = 0).
Proof.
  intros Hx.
  assert (∀ y, 0 ≤ y ≤ 2 ^ 64 - 16 →
               ALIGN y = y + 15 - (y + 15) mod 16) as Hal.
  { intros y Hy. unfold ALIGN, ALIGNMENT. rewrite (wrap64_small (y + (16 - 1))) by lia.
    change (16 - 1) with (2 ^ 4 - 1). rewrite land_mask by lia. done. }
  split.
  - intros Hle. rewrite (Hal x) by lia.
    assert ((x + 15 - (x + 15) mod 16) mod 16 = 0 ∧
            x ≤ x + 15 - (x + 15) mod 16 < x + 16) as [H1 H2] by zmod.
    split_and!; try done; try lia.
    rewrite Hal by zmod. zmod.
  - intros Hgt. unfold ALIGN, ALIGNMENT, wrap64.
    replace ((x + (16 - 1)) mod 2 ^ 64) with (x + 15 - 2 ^ 64) by zmod.
    fold (wrap64 (Z.lnot (16 - 1))).
    change (16 - 1) with (2 ^ 4 - 1). rewrite land_mask by lia. zmod.
Qed.

Lemma ALIGN_rounds_up_witness :
  0 ≤ 20 < 2 ^ 64 ∧ ALIGN 20 = 32 ∧ ALIGN (2 ^ 64 - 1) = 0.
Proof.
  split; [lia|]. split; [reflexivity|].
  apply (ALIGN_rounds_up (2 ^ 64 - 1)); lia.
Defined.

(** ** The free list *)

(** Following [next] from the head of a well-linked list reads its
    nodes in order. *)
Lemma free_nodes_dseg (m : gmap Z Z) (p : Z) (l : list Z) (fuel : nat) :
  dseg m p l 0 → (length l ≤ fuel)%nat → free_nodes fuel m (hd 0 l) = l.
Proof.
  revert p fuel. induction l as [|a l IH]; intros p fuel Hd Hf.
  - destruct fuel; done.
  - destruct fuel as [|fuel]; [simpl in Hf; lia|].
    destruct Hd as (Ha & _ & En & Hd). simpl.
    apply Z.eqb_neq in Ha. rewrite Ha, En. f_equal.
    apply (IH a); [done|simpl in Hf; lia].
Qed.

(** The fields of the nodes of a well-linked list are determined by the
    list. *)
Lemma dseg_fields (m m' : gmap Z Z) (p : Z) (l : list Z) (n : Z) (a : Z) :
  dseg m p l n → dseg m' p l n → a ∈ l →
  rd m' (next_field a) = rd m (next_field a) ∧
  rd m' (prev_field a) = rd m (prev_field a).
Proof.
  revert p. induction l as [|b l IH]; intros p Hd Hd' Ha.
  - by apply elem_of_nil in Ha.
  - destruct Hd as (_ & Ep & En & Hd). destruct Hd' as (_ & Ep' & En' & Hd').
    apply elem_of_cons in Ha as [->|Ha]; [by rewrite Ep, Ep', En, En'|].
    by apply (IH b).
Qed.

Lemma off_nodes_dec (l : list Z) (y : Z) :
  off_nodes l y ∨ ∃ a, a ∈ l ∧ (y = next_field a ∨ y = prev_field a).
Proof.
  induction l as [|b l [IH|(a & Ha & Hy)]].
  - left. intros a Ha. by apply elem_of_nil in Ha.
  - destruct (decide (y = next_field b)) as [->|Hn]; [right; exists b; split; [by left|by left]|].
    destruct (decide (y = prev_field b)) as [->|Hp]; [right; exists b; split; [by left|by right]|].
    left. intros a [->|Ha]%elem_of_cons; [done|by apply IH].
  - right. exists a. split; [by right|done].
Qed.

(** X3: [add_free] puts the node at the head of the free list: the
    nodes read from the new head are [ptr] followed by the old list, and
    memory outside the fields of the nodes is untouched. *)
Theorem add_free_inserts_at_head (s : state) (fl : list Z) (ptr : Z) (fuel : nat) :
  dseg (mem s) 0 fl 0 → free_list s = hd 0 fl → ptr ≠ 0 →
  accessible (mapped s) (next_field ptr) = true →
  accessible (mapped s) (prev_field ptr) = true →
  nodes_accessible (mapped s) fl → nodes_apart fl →
  (∀ a, a ∈ fl → a + 16 ≤ ptr ∨ ptr + 16 ≤ a) →
  (length fl < fuel)%nat →
  ∃ s', add_free ptr s = Ok (tt, s') ∧
        free_list s' = ptr ∧
        free_nodes fuel (mem s') (free_list s') = ptr :: fl ∧
        rd (mem s') (prev_field ptr) = 0 ∧
        same_globals s s' ∧
        (∀ y, off_nodes (ptr :: fl) y → rd (mem s') y = rd (mem s) y).
Proof.
  intros Hd Hh Hnz A1 A2 Hacc Hap Hfar Hfuel.
  destruct (add_free_spec s fl ptr Hd Hh Hnz A1 A2 Hacc Hap Hfar)
    as (s' & E & Hd' & Hh' & Hg & Hfr).
  exists s'. split_and!; try done.
  - rewrite Hh'. apply (free_nodes_dseg _ 0 (ptr :: fl)); [done|simpl; lia].
  - apply Hd'.
Qed.

(** X4: [del_free] takes a node out of the free list wherever it is:
    the nodes before and after it stay linked in their order, and the
    head moves on when the node was the first. *)
Theorem del_free_unlinks (s : state) (l1 : list Z) (ptr : Z) (l2 : list Z) (fuel : nat) :
  dseg (mem s) 0 (l1 ++ ptr :: l2) 0 →
  free_list s = hd 0 (l1 ++ ptr :: l2) →
  nodes_accessible (mapped s) (l1 ++ ptr :: l2) →
  nodes_apart (l1 ++ ptr :: l2) →
  (length (l1 ++ l2) ≤ fuel)%nat →
  ∃ s', del_free ptr s = Ok (tt, s') ∧
        free_list s' = hd 0 (l1 ++ l2) ∧
        free_nodes fuel (mem s') (free_list s') = l1 ++ l2 ∧
        (ptr ∉ l1 ++ l2) ∧
        same_globals s s' ∧
        (∀ y, off_nodes (l1 ++ l2) y → rd (mem s') y = rd (mem s) y).
Proof.
  intros Hd Hh Hacc Hap Hfuel.
  destruct (del_free_spec s l1 ptr l2 Hd Hh Hacc Hap)
    as (s' & E & Hd' & Hh' & Hg & Hfr).
  exists s'. split_and!; try done.
  - rewrite Hh'. by apply (free_nodes_dseg _ 0).
  - destruct Hap as [Hnd _]. apply NoDup_app in Hnd as (_ & Hd1 & [Hni _]%NoDup_cons).
    intros [Hin|Hin]%elem_of_app; [|done]. apply (Hd1 ptr Hin). by left.
Qed.

(** X5: inserting a node and unlinking it again restores the free
    list: the head and the nodes are as before, and memory differs at
    most in the two fields of the node. *)
Theorem add_del_round_trip (s : state) (fl : list Z) (ptr : Z) (fuel : nat) :
  dseg (mem s) 0 fl 0 → free_list s = hd 0 fl → ptr ≠ 0 →
  accessible (mapped s) (next_field ptr) = true →
  accessible (mapped s) (prev_field ptr) = true →
  nodes_accessible (mapped s) fl → nodes_apart fl →
  (∀ a, a ∈ fl → a + 16 ≤ ptr ∨ ptr + 16 ≤ a) →
  (length fl ≤ fuel)%nat →
  ∃ s', (add_free ptr;; del_free ptr) s = Ok (tt, s') ∧
        free_list s' = free_list s ∧
        free_nodes fuel (mem s') (free_list s') = fl ∧
        same_globals s s' ∧
        (∀ y, y ≠ next_field ptr → y ≠ prev_field ptr →
              rd (mem s') y = rd (mem s) y).
Proof.
  intros Hd Hh Hnz A1 A2 Hacc Hap Hfar Hfuel.
  destruct (add_free_spec s fl ptr Hd Hh Hnz A1 A2 Hacc Hap Hfar)
    as (s1 & E1 & Hd1 & Hh1 & Hg1 & Hfr1).
  assert (nodes_apart (ptr :: fl)) as Hap1.
  { destruct Hap as [Hnd Hap]. split.
    - apply NoDup_cons. split; [|done]. intros Hin. destruct (Hfar ptr Hin); lia.
    - intros a b [->|Ha]%elem_of_cons [->|Hb]%elem_of_cons;
        [by left
        |right; destruct (Hfar b Hb); lia
        |right; destruct (Hfar a Ha); lia
        |by apply Hap]. }
  destruct (del_free_spec s1 [] ptr fl) as (s2 & E2 & Hd2 & Hh2 & Hg2 & Hfr2);
    try done.
  { destruct Hg1 as (-> & _). intros a [->|Ha]%elem_of_cons; [done|by apply Hacc]. }
  exists s2. rewrite (bind_ok _ _ _ _ _ E1). simpl in *.
  split_and!; try done.
  - by rewrite Hh2.
  - rewrite Hh2. by apply (free_nodes_dseg _ 0).
  - by apply (same_globals_trans s s1 s2).
  - intros y Hy1 Hy2. destruct (off_nodes_dec fl y) as [Hoff|(a & Ha & Hya)].
    + rewrite Hfr2 by done. apply Hfr1.
      intros a [->|Ha]%elem_of_cons; [done|by apply Hoff].
    + destruct (dseg_fields _ _ _ _ _ a Hd Hd2 Ha) as [En Ep].
      by destruct Hya as [-> | ->].
Qed.

(** The state [st_three] holds one chunk with the blocks 32 (free),
    32 (allocated), 4000 (free). *)
Lemma st_three_inv :
  heap_inv st_three [mkChunk 65536 [(32, false); (32, true); (4000, false)]]
           [65568; 65632].
Proof. eval_state st_three. concrete_inv. Qed.

(** What the invariant says about the list. *)
Lemma inv_list_facts (s : state) (H : list chunk) (fl : list Z) :
  heap_inv s H fl →
  dseg (mem s) 0 fl 0 ∧ free_list s = hd 0 fl ∧
  nodes_accessible (mapped s) fl ∧ nodes_apart fl.
Proof.
  intros (Hrep & Hp & _). pose proof (rep_heap_wf _ _ _ Hrep) as Hwf.
  split_and!; try apply Hrep.
  - intros a Ha. rewrite Hp in Ha. rewrite (rep_mapped _ _ _ Hrep).
    by apply free_addrs_accessible.
  - apply (nodes_apart_perm (free_addrs H)); [done|by apply free_addrs_apart].
Qed.

Ltac far_from :=
  let a := fresh "a" in let Ha := fresh "Ha" in
  intros a Ha;
  repeat (apply elem_of_cons in Ha as [->|Ha]; [lia|]);
  by apply elem_of_nil in Ha.

Lemma add_free_inserts_at_head_witness :
  let fl := [65568; 65632] in
  dseg (mem st_three) 0 fl 0 ∧ free_list st_three = hd 0 fl ∧ 65600 ≠ 0 ∧
  accessible (mapped st_three) (next_field 65600) = true ∧
  accessible (mapped st_three) (prev_field 65600) = true ∧
  nodes_accessible (mapped st_three) fl ∧ nodes_apart fl ∧
  (∀ a, a ∈ fl → a + 16 ≤ 65600 ∨ 65600 + 16 ≤ a) ∧
  (length fl < 5)%nat ∧
  ∃ s', add_free 65600 st_three = Ok (tt, s') ∧
        free_nodes 5 (mem s') (free_list s') = [65600; 65568; 65632].
Proof.
  intros fl.
  assert (∀ a, a ∈ fl → a + 16 ≤ 65600 ∨ 65600 + 16 ≤ a) as H5
    by (subst fl; far_from).
  destruct (inv_list_facts _ _ _ st_three_inv) as (H1 & H2 & H3 & H4).
  assert (accessible (mapped st_three) (next_field 65600) = true) as A1
    by (vm_compute; reflexivity).
  assert (accessible (mapped st_three) (prev_field 65600) = true) as A2
    by (vm_compute; reflexivity).
  assert (length fl < 5)%nat as H6 by (simpl; lia).
  split_and!; [exact H1|exact H2|lia|exact A1|exact A2|exact H3|exact H4|exact H5|exact H6|].
  destruct (add_free_inserts_at_head st_three fl 65600 5 H1 H2 ltac:(lia) A1 A2 H3 H4 H5 H6)
    as (s' & E & _ & Hn & _).
  exists s'. split; [exact E|exact Hn].
Defined.

Lemma del_free_unlinks_witness :
  let l1 : list Z := [65568] in
  let l2 : list Z := [] in
  dseg (mem st_three) 0 (l1 ++ 65632 :: l2) 0 ∧
  free_list st_three = hd 0 (l1 ++ 65632 :: l2) ∧
  nodes_accessible (mapped st_three) (l1 ++ 65632 :: l2) ∧
  nodes_apart (l1 ++ 65632 :: l2) ∧
  (length (l1 ++ l2) ≤ 5)%nat ∧
  ∃ s', del_free 65632 st_three = Ok (tt, s') ∧
        free_nodes 5 (mem s') (free_list s') = [65568].
Proof.
  intros l1 l2.
  destruct (inv_list_facts _ _ _ st_three_inv) as (H1 & H2 & H3 & H4).
  assert (length (l1 ++ l2) ≤ 5)%nat as H5 by (simpl; lia).
  split_and!; [exact H1|exact H2|exact H3|exact H4|exact H5|].
  destruct (del_free_unlinks st_three l1 65632 l2 5 H1 H2 H3 H4 H5)
    as (s' & E & _ & Hn & _).
  exists s'. split; [exact E|exact Hn].
Defined.

Lemma add_del_round_trip_witness :
  let fl := [65568; 65632] in
  dseg (mem st_three) 0 fl 0 ∧ free_list st_three = hd 0 fl ∧ 65600 ≠ 0 ∧
  accessible (mapped st_three) (next_field 65600) = true ∧
  accessible (mapped st_three) (prev_field 65600) = true ∧
  nodes_accessible (mapped st_three) fl ∧ nodes_apart fl ∧
  (∀ a, a ∈ fl → a + 16 ≤ 65600 ∨ 65600 + 16 ≤ a) ∧
  (length fl ≤ 5)%nat ∧
  ∃ s', (add_free 65600;; del_free 65600) st_three = Ok (tt, s') ∧
        free_nodes 5 (mem s') (free_list s') = fl.
Proof.
  intros fl.
  assert (∀ a, a ∈ fl → a + 16 ≤ 65600 ∨ 65600 + 16 ≤ a) as H5
    by (subst fl; far_from).
  destruct (inv_list_facts _ _ _ st_three_inv) as (H1 & H2 & H3 & H4).
  assert (accessible (mapped st_three) (next_field 65600) = true) as A1
    by (vm_compute; reflexivity).
  assert (accessible (mapped st_three) (prev_field 65600) = true) as A2
    by (vm_compute; reflexivity).
  assert (length fl ≤ 5)%nat as H6 by (simpl; lia).
  split_and!; [exact H1|exact H2|lia|exact A1|exact A2|exact H3|exact H4|exact H5|exact H6|].
  destruct (add_del_round_trip st_three fl 65600 5 H1 H2 ltac:(lia) A1 A2 H3 H4 H5 H6)
    as (s' & E & _ & Hn & _).
  exists s'. split; [exact E|exact Hn].
Defined.

(** ** Searching and allocating *)

Lemma first_fit_none (H : list chunk) (need : Z) (fl : list Z) :
  (∀ b, b ∈ fl → size_at H b < need) → first_fit H need fl = None.
Proof.
  induction fl as [|a fl IH]; intros Hs; [done|].
  rewrite first_fit_cons.
  destruct (need <=? size_at H a) eqn:E.
  - apply Z.leb_le in E. specialize (Hs a ltac:(by left)). lia.
  - apply IH. intros b Hb. apply Hs. by right.
Qed.

Lemma first_fit_here (H : list chunk) (need : Z) (pre : list Z) (a : Z) (post : list Z) :
  (∀ b, b ∈ pre → size_at H b < need) → need ≤ size_at H a →
  first_fit H need (pre ++ a :: post) = Some a.
Proof.
  induction pre as [|b pre IH]; intros Hs Ha; simpl; rewrite first_fit_cons.
  - apply Z.leb_le in Ha. by rewrite Ha.
  - destruct (need <=? size_at H b) eqn:E.
    + apply Z.leb_le in E. specialize (Hs b ltac:(by left)). lia.
    + apply IH; [|done]. intros x Hx. apply Hs. by right.
Qed.

(** X6: [find_free_block] is first fit over the free list in list
    order.  When every block on the list is smaller than the request it
    returns null and changes nothing.  Otherwise it returns the first
    node whose block is large enough, whatever comes after it, and has
    allocated that block: split when the remainder can hold a block,
    used whole otherwise. *)
Theorem find_free_block_first_fit (s : state) (H : list chunk) (fl : list Z)
    (need : Z) (fuel : nat) :
  heap_inv s H fl → (length fl ≤ fuel)%nat →
  MIN_BLOCK_SIZE ≤ need → need mod 16 = 0 →
  ((∀ b, b ∈ fl → size_at H b < need) →
   find_free_block fuel need s = Ok (0, s)) ∧
  (∀ pre a post,
     fl = pre ++ a :: post →
     (∀ b, b ∈ pre → size_at H b < need) → need ≤ size_at H a →
     ∃ k c s', H = plug k [(c, false)] ∧ hole k = a ∧ c = size_at H a ∧
               find_free_block fuel need s = Ok (a, s') ∧ a ≠ 0 ∧
               heap_inv s' (plug k (alloc_blocks c need))
                        (alloc_list k c need fl) ∧
               same_globals s s').
Proof.
  intros Hinv Hfuel Hmin Hmod.
  pose proof (find_spec s H fl need fuel Hinv Hfuel Hmin Hmod) as Hfind.
  split.
  - intros Hs. by rewrite (first_fit_none H need fl Hs) in Hfind.
  - intros pre a post -> Hs Ha.
    rewrite (first_fit_here H need pre a post Hs Ha) in Hfind.
    destruct Hfind as (k & c & s' & EH & Eh & Hc & Hnz & E & Hinv' & Hg).
    exists k, c, s'. split_and!; try done.
    destruct (free_block_ctx s H (pre ++ a :: post) a Hinv)
      as (k2 & c2 & EH2 & Eh2 & Ec2); [solve_elem|].
    subst H. pose proof Hinv as (Hrep & _ & _).
    pose proof (rep_heap_wf _ _ _ Hrep) as Hwf.
    symmetry. rewrite <- Eh.
    apply (size_at_block _ (mkBlock (hole k) c false) Hwf).
    rewrite interior_blocks_plug. simpl. solve_elem.
Qed.

Lemma find_free_block_first_fit_witness :
  let H := [mkChunk 65536 [(32, false); (32, true); (4000, false)]] in
  let fl := [65568; 65632] in
  heap_inv st_three H fl ∧ (length fl ≤ 5)%nat ∧
  MIN_BLOCK_SIZE ≤ 128 ∧ 128 mod 16 = 0 ∧
  ∃ s', find_free_block 5 128 st_three = Ok (65632, s').
Proof.
  intros H fl.
  assert (length fl ≤ 5)%nat as H2 by (simpl; lia).
  assert (MIN_BLOCK_SIZE ≤ 128) as H3 by (vm_compute; discriminate).
  split_and!; [exact st_three_inv|exact H2|exact H3|reflexivity|].
  destruct (find_free_block_first_fit st_three H fl 128 5 st_three_inv H2 H3 eq_refl)
    as [_ Hhit].
  destruct (Hhit [65568] 65632 [] eq_refl) as (k & c & s' & _ & _ & _ & E & _).
  - intros b Hb. apply elem_of_cons in Hb as [->|Hb]; [|by apply elem_of_nil in Hb].
    vm_compute. reflexivity.
  - vm_compute. discriminate.
  - exists s'. exact E.
Defined.

(** X7: [allocate] on a free block of [c] bytes for a block size
    [need].  When [c - need] is at least [MIN_BLOCK_SIZE] the block is
    split: the first [need] bytes become an allocated block, the rest a
    free block that is put at the head of the free list.  Otherwise the
    whole block is marked allocated, so the block handed out can be up
    to 31 bytes larger than asked.  In both cases the block leaves the
    free list and its header and footer carry its size with the
    allocated bit set. *)
Theorem allocate_splits_or_takes_all (s : state) (k : ctx) (c need : Z) (fl : list Z) :
  heap_inv s (plug k [(c, false)]) fl →
  MIN_BLOCK_SIZE ≤ need ≤ c → need mod 16 = 0 →
  ∃ s' size,
    allocate (hole k) need s = Ok (tt, s') ∧ same_globals s s' ∧
    rd (mem s') (HDRP (hole k)) = PACK size 1 ∧
    rd (mem s') (hole k + size - OVERHEAD) = PACK size 1 ∧
    need ≤ size < need + MIN_BLOCK_SIZE ∧
    if MIN_BLOCK_SIZE <=? c - need
    then size = need ∧
         heap_inv s' (plug k [(need, true); (c - need, false)])
                  (hole k + need :: unlink (hole k) fl) ∧
         rd (mem s') (HDRP (hole k + need)) = PACK (c - need) 0
    else size = c ∧
         heap_inv s' (plug k [(c, true)]) (unlink (hole k) fl).
Proof.
  intros Hinv Hneed Hmod.
  destruct (allocate_spec s k c need fl Hinv Hneed Hmod) as (s' & E & Hinv' & Hg).
  unfold alloc_blocks, alloc_list in Hinv'.
  destruct (MIN_BLOCK_SIZE <=? c - need) eqn:Hs.
  - exists s', need. apply Z.leb_le in Hs.
    set (k' := mkCtx (x_before k) (x_base k) (x_left k)
                     ((c - need, false) :: x_right k) (x_after k)).
    assert (plug k [(need, true); (c - need, false)] = plug k' [(need, true)]) as Epl.
    { destruct (plug_right k' (c - need, false) (x_right k) [(need, true)] eq_refl)
        as [-> _]. simpl. by rewrite ctx_eta. }
    pose proof Hinv' as (Hrep' & _ & _).
    pose proof Hrep' as Hrep2. rewrite Epl in Hrep2.
    destruct (hole_block_facts _ _ _ _ _ Hrep2) as (T1 & T2 & _).
    change (hole k') with (hole k) in T1, T2.
    set (k2 := mkCtx (x_before k) (x_base k) (x_left k ++ [(need, true)])
                     (x_right k) (x_after k)).
    assert (plug k [(need, true); (c - need, false)] = plug k2 [(c - need, false)]) as Epl2.
    { unfold plug. simpl. by rewrite <- app_assoc. }
    assert (hole k2 = hole k + need) as Eh2.
    { unfold hole. simpl. rewrite total_app. simpl. lia. }
    rewrite Epl2 in Hrep'.
    destruct (hole_block_facts _ _ _ _ _ Hrep') as (T3 & _).
    rewrite Eh2 in T3.
    unfold MIN_BLOCK_SIZE, OVERHEAD, ALIGNMENT in *.
    split_and!; try done; lia.
  - exists s', c. apply Z.leb_gt in Hs.
    pose proof Hinv' as (Hrep' & _ & _).
    destruct (hole_block_facts _ _ _ _ _ Hrep') as (T1 & T2 & _).
    unfold MIN_BLOCK_SIZE, OVERHEAD, ALIGNMENT in *.
    split_and!; try done; lia.
Qed.

Lemma allocate_splits_or_takes_all_witness :
  let k := mkCtx [] 65536 [(32, false); (32, true)] [] [] in
  heap_inv st_three (plug k [(4000, false)]) [65568; 65632] ∧
  MIN_BLOCK_SIZE ≤ 128 ≤ 4000 ∧ 128 mod 16 = 0 ∧
  ∃ s', allocate 65632 128 st_three = Ok (tt, s') ∧
        rd (mem s') (HDRP 65632) = PACK 128 1.
Proof.
  intros k.
  assert (MIN_BLOCK_SIZE ≤ 128 ≤ 4000) as H2 by (unfold MIN_BLOCK_SIZE, OVERHEAD, ALIGNMENT; lia).
  split_and!; [exact st_three_inv|apply H2|apply H2|reflexivity|].
  destruct (allocate_splits_or_takes_all st_three k 4000 128 _ st_three_inv H2 eq_refl)
    as (s' & size & E & _ & T1 & _ & _ & Hcase).
  exists s'. split; [exact E|].
  change (MIN_BLOCK_SIZE <=? 4000 - 128) with true in Hcase.
  destruct Hcase as (-> & _). exact T1.
Defined.

(** ** Growing the heap *)

(** X8: [extend] on a well-formed heap, for a block size [need] with
    [need + PAGE_OVERHEAD + pagesize ≤ 2^31], when the pager grants the
    request.  The pager is asked for
    [max (page_align (need + PAGE_OVERHEAD)) (map_multiplier * pagesize)]
    bytes, a multiple of the page size.  The new mapping is framed by
    the sentinel (header and footer [PACK 16 1] at offsets 8 and 16) and
    the terminator ([PACK 8 1] in the last word); between them lies one
    free block of [n - PAGE_OVERHEAD] bytes, at least [need], whose
    payload address is returned and which is the new head of the free
    list.  The chunk count goes up by one and the heap is well formed
    again. *)
Theorem extend_frames_chunk (s : state) (H : list chunk) (fl : list Z)
    (mem_map : Z → Z) (need : Z) :
  heap_inv s H fl → params_ok s → pager_ok s mem_map →
  MIN_BLOCK_SIZE ≤ need → need + PAGE_OVERHEAD + pagesize s ≤ 2 ^ 31 →
  Z.of_nat (length H) + 1 < 2 ^ 31 →
  let n := Z.max (page_align (pagesize s) (need + PAGE_OVERHEAD))
                 (map_multiplier s * pagesize s) in
  let base := mem_map n in
  base ≠ 0 →
  ∃ s', extend mem_map need s = Ok (base + PAGE_OVERHEAD, s') ∧
        n mod pagesize s = 0 ∧ need ≤ n - PAGE_OVERHEAD ∧
        mapped s' = (base, n) :: mapped s ∧
        num_page_chunks s' = num_page_chunks s + 1 ∧
        free_list s' = base + PAGE_OVERHEAD ∧
        rd (mem s') (base + 8) = PACK 16 1 ∧
        rd (mem s') (base + 16) = PACK 16 1 ∧
        rd (mem s') (base + n - 8) = PACK 8 1 ∧
        rd (mem s') (base + 24) = PACK (n - PAGE_OVERHEAD) 0 ∧
        rd (mem s') (base + n - 16) = PACK (n - PAGE_OVERHEAD) 0 ∧
        heap_inv s' (mkChunk base [(n - PAGE_OVERHEAD, false)] :: H)
                 (base + PAGE_OVERHEAD :: fl).
Proof.
  intros Hinv Hpar Hpg Hmin Hb Hcnt n base Hbase.
  assert (0 ≤ need) as Hn0 by (unfold MIN_BLOCK_SIZE, OVERHEAD, ALIGNMENT in Hmin; lia).
  destruct (extend_request_spec s need Hpar Hn0 Hb) as (En & [Hn1 Hn2] & Hn3).
  fold n in En. rewrite En in Hn1, Hn2, Hn3.
  pose proof (extend_spec s H fl mem_map need Hinv Hpar Hpg Hn0 Hb) as Hext.
  cbv zeta in Hext. rewrite En in Hext. fold base in Hext.
  apply Z.eqb_neq in Hbase. rewrite Hbase in Hext.
  destruct Hext as (s' & E & Hinv' & _ & Eps);
    [unfold MIN_BLOCK_SIZE, PAGE_OVERHEAD, PAGE_PAD, OVERHEAD, ALIGNMENT in *; lia|done|].
  exists s'. pose proof Hinv' as (Hrep' & _ & _).
  pose proof Hinv as (Hrep & _ & _).
  assert (n mod pagesize s = 0) as Hmodp.
  { destruct Hpar as [(e & He & Ee) _].
    assert (0 < pagesize s) by (rewrite Ee; apply Z.pow_pos_nonneg; lia).
    unfold n. destruct (Z.max_spec (page_align (pagesize s) (need + PAGE_OVERHEAD))
                          (map_multiplier s * pagesize s)) as [[_ ->]|[_ ->]].
    - apply Z.mod_mul. lia.
    - by apply page_align_props. }
  pose proof (rep_tags _ _ _ Hrep') as Ht.
  change (all_blocks (mkChunk base [(n - PAGE_OVERHEAD, false)] :: H))
    with (chunk_blocks (mkChunk base [(n - PAGE_OVERHEAD, false)]) ++ all_blocks H) in Ht.
  apply Forall_app in Ht as [Ht _].
  unfold chunk_blocks, layout, sentinel, terminator in Ht. simpl in Ht.
  apply Forall_cons in Ht as [[S1 S2] Ht].
  apply Forall_cons in Ht as [[B1 B2] Ht].
  apply Forall_cons in Ht as [[T1 _] _].
  unfold tag, HDRP, PAGE_OVERHEAD, PAGE_PAD, OVERHEAD in *. simpl in *.
  split_and!; try done.
  - lia.
  - rewrite (rep_mapped _ _ _ Hrep'), (rep_mapped _ _ _ Hrep). simpl.
    unfold region at 1. simpl. unfold PAGE_OVERHEAD, PAGE_PAD, OVERHEAD.
    repeat f_equal. lia.
  - rewrite (rep_count _ _ _ Hrep'), (rep_count _ _ _ Hrep). simpl length. lia.
  - apply (rep_head _ _ _ Hrep').
  - replace (base + 8) with (base + 8 + 8 - 8) by lia. exact S1.
  - replace (base + 16) with (base + 8 + 8 + (8 + 8) - (8 + 8)) by lia. exact S2.
  - replace (base + n - 8)
      with (base + 8 + 8 + (8 + 8) + (n - (8 + (8 + 8) + 8)) - 8) by lia. exact T1.
  - replace (base + 24) with (base + 8 + 8 + (8 + 8) - 8) by lia. exact B1.
  - replace (base + n - 16)
      with (base + 8 + 8 + (8 + 8) + (n - (8 + (8 + 8) + 8)) - (8 + 8)) by lia.
    exact B2.
Qed.

Lemma st_three_params : params_ok st_three.
Proof.
  split.
  - exists 12. split; [lia|]. vm_compute. reflexivity.
  - exists 1. split; [lia|]. vm_compute. reflexivity.
Qed.

(** A pager that answers 1048576 is acceptable in [st_three] and in
    [st_init]. *)
Lemma st_three_pager : pager_ok st_three (pager_at 1048576 (2 ^ 30)).
Proof.
  intros n Hn. unfold pager_at in *.
  destruct ((0 <? n) && (n <=? 2 ^ 30)); [|done].
  assert (mapped st_three = [(65536, 4096)]) as -> by (vm_compute; reflexivity).
  assert (pagesize st_three = 4096) as -> by (vm_compute; reflexivity).
  split; [lia|]. split; [reflexivity|].
  apply Forall_cons. split; [|by apply Forall_nil].
  right. simpl. lia.
Qed.

Lemma extend_frames_chunk_witness :
  let H := [mkChunk 65536 [(32, false); (32, true); (4000, false)]] in
  let fl := [65568; 65632] in
  let mem_map := pager_at 1048576 (2 ^ 30) in
  heap_inv st_three H fl ∧ params_ok st_three ∧ pager_ok st_three mem_map ∧
  MIN_BLOCK_SIZE ≤ 128 ∧ 128 + PAGE_OVERHEAD + pagesize st_three ≤ 2 ^ 31 ∧
  Z.of_nat (length H) + 1 < 2 ^ 31 ∧
  mem_map (Z.max (page_align (pagesize st_three) (128 + PAGE_OVERHEAD))
                 (map_multiplier st_three * pagesize st_three)) ≠ 0 ∧
  ∃ s', extend mem_map 128 st_three = Ok (1048576 + PAGE_OVERHEAD, s') ∧
        mapped s' = (1048576, 8192) :: mapped st_three.
Proof.
  intros H fl mem_map.
  assert (MIN_BLOCK_SIZE ≤ 128) as H4 by (vm_compute; discriminate).
  assert (128 + PAGE_OVERHEAD + pagesize st_three ≤ 2 ^ 31) as H5
    by (vm_compute; discriminate).
  assert (Z.of_nat (length H) + 1 < 2 ^ 31) as H6 by (vm_compute; reflexivity).
  assert (mem_map (Z.max (page_align (pagesize st_three) (128 + PAGE_OVERHEAD))
                         (map_multiplier st_three * pagesize st_three)) ≠ 0) as H7
    by (vm_compute; discriminate).
  split_and!;
    [exact st_three_inv|exact st_three_params|exact st_three_pager
    |exact H4|exact H5|exact H6|exact H7|].
  destruct (extend_frames_chunk st_three H fl mem_map 128 st_three_inv
              st_three_params st_three_pager H4 H5 H6 H7)
    as (s' & E & _ & _ & Em & _).
  exists s'. split; [exact E|exact Em].
Defined.

(** ** Serving requests *)


Lemma params_ok_next (s s' : state) :
  params_ok s → pagesize s' = pagesize s →
  map_multiplier s' = map_multiplier s ∨
  map_multiplier s' = next_multiplier (map_multiplier s) →
  params_ok s'.
Proof.
  intros [Hps (j & Hj & Em)] Eps Hm. split; [by rewrite Eps|].
  destruct Hm as [-> | ->]; [by exists j|].
  rewrite Em. destruct (next_multiplier_ok j Hj) as (j' & Hj' & E). by exists j'.
Qed.



Lemma heap_inv_set_multiplier (s : state) (H : list chunk) (fl : list Z) (m : Z) :
  heap_inv s H fl → heap_inv (set_map_multiplier m s) H fl.
Proof. intros ([] & ? & ?). split; [by split|done]. Qed.

(** X10: out of memory.  When no block of the free list can hold the
    request and the pager refuses the mapping, [mm_malloc] returns null;
    the heap, its tags, the free list, the mappings and the chunk count
    are untouched, only the multiplier has advanced. *)
Theorem mm_malloc_out_of_memory (s : state) (H : list chunk) (fl : list Z)
    (mem_map : Z → Z) (fuel : nat) (r : Z) :
  heap_inv s H fl → params_ok s → pager_ok s mem_map →
  1 ≤ r → r + 31 + PAGE_OVERHEAD + pagesize s ≤ 2 ^ 31 →
  (S (length fl) ≤ fuel)%nat → Z.of_nat (length H) + 1 < 2 ^ 31 →
  (∀ b, b ∈ fl → size_at H b < request_size r) →
  mem_map (extend_request (request_size r) s) = 0 →
  let s' := set_map_multiplier (next_multiplier (map_multiplier s)) s in
  mm_malloc fuel mem_map r s = Ok (0, s') ∧
  heap_inv s' H fl ∧ mem s' = mem s ∧ mapped s' = mapped s ∧
  free_list s' = free_list s ∧ num_page_chunks s' = num_page_chunks s.
Proof.
  intros Hinv Hpar Hpg Hr Hb Hfuel Hcnt Hsmall Hnull s'.
  pose proof (mm_malloc_spec s H fl mem_map fuel r Hinv Hpar Hpg Hr Hb Hfuel Hcnt)
    as Hspec.
  cbv zeta in Hspec.
  rewrite (first_fit_none H _ fl Hsmall), Hnull in Hspec. simpl in Hspec.
  split; [exact Hspec|]. split; [by apply heap_inv_set_multiplier|done].
Qed.

Lemma mm_malloc_out_of_memory_witness :
  let H := [mkChunk 65536 [(32, false); (32, true); (4000, false)]] in
  let fl := [65568; 65632] in
  let mem_map : Z → Z := λ _, 0 in
  heap_inv st_three H fl ∧ params_ok st_three ∧ pager_ok st_three mem_map ∧
  1 ≤ 5000 ∧ 5000 + 31 + PAGE_OVERHEAD + pagesize st_three ≤ 2 ^ 31 ∧
  (S (length fl) ≤ 5)%nat ∧ Z.of_nat (length H) + 1 < 2 ^ 31 ∧
  (∀ b, b ∈ fl → size_at H b < request_size 5000) ∧
  mem_map (extend_request (request_size 5000) st_three) = 0 ∧
  mm_malloc 5 mem_map 5000 st_three = Ok (0, set_map_multiplier 4 st_three).
Proof.
  intros H fl mem_map.
  assert (pager_ok st_three mem_map) as H3 by (by intros n Hn).
  assert (5000 + 31 + PAGE_OVERHEAD + pagesize st_three ≤ 2 ^ 31) as H5
    by (vm_compute; discriminate).
  assert (S (length fl) ≤ 5)%nat as H6 by (simpl; lia).
  assert (Z.of_nat (length H) + 1 < 2 ^ 31) as H7 by (vm_compute; reflexivity).
  assert (∀ b, b ∈ fl → size_at H b < request_size 5000) as H8.
  { intros b Hb. subst fl.
    repeat (apply elem_of_cons in Hb as [->|Hb]; [vm_compute; reflexivity|]).
    by apply elem_of_nil in Hb. }
  split_and!;
    [exact st_three_inv|exact st_three_params|exact H3
    |lia|exact H5|exact H6|exact H7|exact H8|reflexivity|].
  apply (mm_malloc_out_of_memory st_three H fl mem_map 5 5000 st_three_inv
           st_three_params H3 ltac:(lia) H5 H6 H7 H8 eq_refl).
Defined.

(** ** Freeing *)

Lemma live_addrs_plug (k : ctx) (mid : list (Z * bool)) :
  live_addrs (plug k mid) =
  addrs_of true (interior_before k) ++ addrs_of true (place (hole k) mid) ++
  addrs_of true (interior_after k (total mid)).
Proof. unfold live_addrs. by rewrite interior_blocks_plug, !addrs_of_app. Qed.

Lemma live_addrs_plug1 (k : ctx) (sz : Z) (al : bool) :
  live_addrs (plug k [(sz, al)]) =
  addrs_of true (interior_before k) ++
  (if al then [hole k] else []) ++ addrs_of true (interior_after k sz).
Proof.
  rewrite live_addrs_plug. simpl. rewrite addrs_of_cons, Z.add_0_r. simpl.
  by destruct al.
Qed.

(** The allocated blocks before and after the hole stay where they are
    when the free neighbours of the hole are merged into it. *)
Lemma live_coalesce_ctx (k : ctx) (sz : Z) :
  addrs_of true (interior_before (coalesce_ctx k)) = addrs_of true (interior_before k) ∧
  addrs_of true (interior_after (coalesce_ctx k) (coalesce_size k sz)) =
  addrs_of true (interior_after k sz).
Proof.
  unfold interior_before, interior_after, coalesce_ctx, coalesce_size, hole.
  unfold lfree, rfree, left_nb, right_nb. simpl.
  split.
  - rewrite !addrs_of_app. f_equal.
    destruct (x_left k) as [|x l _] using rev_ind; [done|].
    rewrite last_snoc. simpl. destruct x as [lsz []]; simpl; [done|].
    rewrite removelast_last, place_app, addrs_of_app. simpl.
    rewrite addrs_of_cons. simpl. by rewrite app_nil_r.
  - rewrite !addrs_of_app. f_equal.
    assert (total (if negb (default sentinel (last (x_left k))).2
                   then removelast (x_left k) else x_left k) +
            (if negb (default sentinel (last (x_left k))).2
             then (default sentinel (last (x_left k))).1 else 0) = total (x_left k)) as El.
    { destruct (x_left k) as [|x l _] using rev_ind; [done|].
      rewrite last_snoc. simpl. destruct x as [lsz []]; simpl; [lia|].
      rewrite removelast_last, total_app. simpl. lia. }
    destruct (x_right k) as [|[rsz []] r]; simpl.
    + done.
    + repeat (f_equal; try lia).
    + rewrite addrs_of_cons. simpl. repeat (f_equal; try lia).
Qed.

(** The allocated blocks after [mm_free]. *)
Lemma mm_free_live (s : state) (k : ctx) (sz : Z) (fl : list Z) :
  heap_inv s (plug k [(sz, true)]) fl →
  ∃ s' H' fl' LB LA,
    mm_free (hole k) s = Ok (tt, s') ∧
    heap_inv s' H' fl' ∧
    live_addrs (plug k [(sz, true)]) = LB ++ hole k :: LA ∧
    live_addrs H' = LB ++ LA ∧
    (length H' ≤ length (plug k [(sz, true)]))%nat ∧
    map_multiplier s' = map_multiplier s ∧ pagesize s' = pagesize s.
Proof.
  intros Hinv.
  destruct (mm_free_spec s k sz fl Hinv) as (s' & E & Hinv' & Em & Eps & _).
  destruct (live_coalesce_ctx k sz) as [ELB ELA].
  exists s', (free_heap k sz), (free_list_after k sz fl),
    (addrs_of true (interior_before k)), (addrs_of true (interior_after k sz)).
  split_and!; try done.
  - by rewrite live_addrs_plug1.
  - unfold free_heap, unmaps.
    destruct (1 <? Z.of_nat (length (plug k []))); simpl.
    + unfold whole_chunk.
      destruct (x_left (coalesce_ctx k)) eqn:El;
        [destruct (x_right (coalesce_ctx k)) eqn:Er|].
      * rewrite <- ELB, <- ELA. unfold interior_before, interior_after.
        change (x_before (coalesce_ctx k)) with (x_before k).
        change (x_after (coalesce_ctx k)) with (x_after k).
        rewrite El, Er. simpl. rewrite app_nil_r.
        unfold live_addrs, interior_blocks. by rewrite bind_app, addrs_of_app.
      * by rewrite live_addrs_plug1, ELB, ELA.
      * by rewrite live_addrs_plug1, ELB, ELA.
    + by rewrite live_addrs_plug1, ELB, ELA.
  - unfold free_heap. destruct (unmaps k).
    + unfold plug. rewrite !length_app. simpl. lia.
    + unfold plug. rewrite !length_app. simpl. lia.
Qed.

(** X11: [mm_free] of an allocated block of a well-formed heap returns
    and leaves a well-formed heap: tags in place, no two adjacent free
    blocks, the free list holding exactly the free blocks.  It frees
    this block and no other: the allocated blocks afterwards are the
    ones before, in the same order at the same addresses, without the
    block freed.  No chunk is added, and the multiplier and the page
    size are untouched. *)
Theorem mm_free_frees_one_block (s : state) (k : ctx) (sz : Z) (fl : list Z) :
  heap_inv s (plug k [(sz, true)]) fl →
  ∃ s' H' fl' LB LA,
    mm_free (hole k) s = Ok (tt, s') ∧
    heap_inv s' H' fl' ∧
    live_addrs (plug k [(sz, true)]) = LB ++ hole k :: LA ∧
    live_addrs H' = LB ++ LA ∧
    (length H' ≤ length (plug k [(sz, true)]))%nat ∧
    map_multiplier s' = map_multiplier s ∧ pagesize s' = pagesize s.
Proof. apply mm_free_live. Qed.

Lemma st_two_b_inv :
  heap_inv st_two_b
    (plug (mkCtx [mkChunk 131072 [(5024, true); (3136, false)]] 65536 []
                 [(848, false)] []) [(3216, true)])
    [68784; 136128].
Proof. eval_state st_two_b. concrete_inv. Qed.

Lemma mm_free_frees_one_block_witness :
  let k := mkCtx [mkChunk 131072 [(5024, true); (3136, false)]] 65536 []
                 [(848, false)] [] in
  heap_inv st_two_b (plug k [(3216, true)]) [68784; 136128] ∧
  ∃ s' H' fl', mm_free 65568 st_two_b = Ok (tt, s') ∧ heap_inv s' H' fl'.
Proof.
  intros k. split; [exact st_two_b_inv|].
  destruct (mm_free_frees_one_block st_two_b k 3216 _ st_two_b_inv)
    as (s' & H' & fl' & LB & LA & E & Hinv & _).
  exists s', H', fl'. split; [exact E|exact Hinv].
Defined.

(** ** Allocating and freeing in turn *)

(** The block just allocated in the hole of [k], whose neighbours are
    allocated, is freed again. *)
Lemma free_after_alloc (s1 : state) (k : ctx) (c need : Z) (fl : list Z) :
  heap_inv s1 (plug k (alloc_blocks c need)) (alloc_list k c need fl) →
  (left_nb k).2 = true → (right_nb k).2 = true →
  ∃ s2, mm_free (hole k) s1 = Ok (tt, s2) ∧
        map_multiplier s2 = map_multiplier s1 ∧ pagesize s2 = pagesize s1 ∧
        if (1 <? num_page_chunks s1) && whole_chunk k
        then heap_inv s2 (x_before k ++ x_after k) (unlink (hole k) fl) ∧
             num_page_chunks s2 = num_page_chunks s1 - 1
        else heap_inv s2 (plug k [(c, false)]) (hole k :: unlink (hole k) fl) ∧
             num_page_chunks s2 = num_page_chunks s1 ∧ mapped s2 = mapped s1.
Proof.
  intros Hinv1 HL HR.
  unfold alloc_blocks, alloc_list in Hinv1.
  destruct (MIN_BLOCK_SIZE <=? c - need) eqn:Hsplit.
  - set (k' := mkCtx (x_before k) (x_base k) (x_left k)
                     ((c - need, false) :: x_right k) (x_after k)).
    assert (plug k [(need, true); (c - need, false)] = plug k' [(need, true)]) as Epl.
    { destruct (plug_right k' (c - need, false) (x_right k) [(need, true)] eq_refl)
        as [-> _]. simpl. by rewrite ctx_eta. }
    rewrite Epl in Hinv1.
    pose proof (inv_NoDup _ _ _ Hinv1) as Hnd.
    pose proof Hinv1 as (Hrep1 & _ & _).
    assert ((1 <? num_page_chunks s1) = (1 <? Z.of_nat (length (plug k' []))))
      as Ecnt by (by rewrite (rep_count _ _ _ Hrep1), (length_plug k' [] [(need, true)])).
    destruct (mm_free_spec s1 k' need _ Hinv1) as (s2 & E2 & Hinv2 & Emm2 & Eps2 & Hpost).
    change (hole k') with (hole k) in E2.
    assert (lfree k' = false) as El
      by (unfold lfree; change (left_nb k') with (left_nb k); by rewrite HL).
    assert (rfree k' = true) as Er by done.
    assert (coalesce_ctx k' = k) as Ek.
    { unfold coalesce_ctx. rewrite El, Er. simpl. apply ctx_eta. }
    assert (coalesce_size k' need = c) as Es.
    { unfold coalesce_size. rewrite El, Er. simpl. lia. }
    assert (coalesce_addr k' = hole k) as Ea.
    { unfold coalesce_addr. by rewrite El. }
    assert (coalesce_list k' need (hole k + need :: unlink (hole k) fl) =
            hole k :: unlink (hole k) fl) as Efl.
    { unfold coalesce_list. rewrite El, Er. change (hole k') with (hole k).
      by rewrite unlink_head. }
    unfold free_heap, free_list_after in Hinv2. unfold unmaps in Hinv2, Hpost.
    rewrite Ek, Es, Ea, Efl in *. rewrite <- Ecnt in Hinv2, Hpost.
    exists s2. split_and!; try done.
    destruct ((1 <? num_page_chunks s1) && whole_chunk k).
    + split; [|apply Hpost]. by rewrite unlink_cons_unlink in Hinv2.
    + by destruct Hpost.
  - pose proof Hinv1 as (Hrep1 & _ & _).
    assert ((1 <? num_page_chunks s1) = (1 <? Z.of_nat (length (plug k []))))
      as Ecnt by (by rewrite (rep_count _ _ _ Hrep1), (length_plug k [] [(c, true)])).
    destruct (mm_free_spec s1 k c _ Hinv1) as (s2 & E2 & Hinv2 & Emm2 & Eps2 & Hpost).
    assert (lfree k = false) as El by (unfold lfree; by rewrite HL).
    assert (rfree k = false) as Er by (unfold rfree; by rewrite HR).
    assert (coalesce_ctx k = k) as Ek.
    { unfold coalesce_ctx. rewrite El, Er. apply ctx_eta. }
    assert (coalesce_size k c = c) as Es.
    { unfold coalesce_size. rewrite El, Er. lia. }
    assert (coalesce_addr k = hole k) as Ea.
    { unfold coalesce_addr. by rewrite El. }
    assert (coalesce_list k c (unlink (hole k) fl) = hole k :: unlink (hole k) fl)
      as Efl.
    { unfold coalesce_list. by rewrite El, Er. }
    unfold free_heap, free_list_after in Hinv2. unfold unmaps in Hinv2, Hpost.
    rewrite Ek, Es, Ea, Efl in *. rewrite <- Ecnt in Hinv2, Hpost.
    exists s2. split_and!; try done.
    destruct ((1 <? num_page_chunks s1) && whole_chunk k).
    + split; [|apply Hpost]. by rewrite unlink_cons_unlink in Hinv2.
    + by destruct Hpost.
Qed.

(** No node of the free list lies in a mapping the pager is about to
    grant. *)
Lemma fresh_block_not_listed (s : state) (H : list chunk) (fl : list Z)
    (base n : Z) :
  heap_inv s H fl → Forall (apart (base, n)) (mapped s) → 40 ≤ n →
  base + PAGE_OVERHEAD ∉ fl.
Proof.
  intros (Hrep & Hp & _) Hap Hn Hin.
  pose proof (rep_heap_wf _ _ _ Hrep) as Hwf. rewrite Hp in Hin.
  destruct (free_addrs_accessible H Hwf _ Hin) as [A1 _].
  rewrite <- (rep_mapped _ _ _ Hrep) in A1.
  destruct (fresh_cell _ base n _ Hap A1);
    unfold next_field, PAGE_OVERHEAD, PAGE_PAD, OVERHEAD in *; lia.
Qed.

(** X12: reclamation.  On a heap with at least one chunk, a request
    that no free block can hold makes [mm_malloc] map a new chunk; the
    [mm_free] of the pointer returned unmaps that chunk again, whether
    the block had been split or not.  Afterwards the heap, the free
    list, the mappings and the chunk count are those before the two
    calls; the multiplier has advanced. *)
Theorem grow_then_free_restores (s : state) (H : list chunk) (fl : list Z)
    (mem_map : Z → Z) (fuel : nat) (r : Z) :
  heap_inv s H fl → params_ok s → pager_ok s mem_map →
  1 ≤ r → r + 31 + PAGE_OVERHEAD + pagesize s ≤ 2 ^ 31 →
  (S (length fl) ≤ fuel)%nat → Z.of_nat (length H) + 1 < 2 ^ 31 →
  H ≠ [] →
  (∀ b, b ∈ fl → size_at H b < request_size r) →
  mem_map (extend_request (request_size r) s) ≠ 0 →
  ∃ p s1 s2,
    mm_malloc fuel mem_map r s = Ok (p, s1) ∧ p ≠ 0 ∧
    num_page_chunks s1 = num_page_chunks s + 1 ∧
    mm_free p s1 = Ok (tt, s2) ∧
    heap_inv s2 H fl ∧
    mapped s2 = mapped s ∧ num_page_chunks s2 = num_page_chunks s ∧
    free_list s2 = free_list s ∧
    map_multiplier s2 = next_multiplier (map_multiplier s).
Proof.
  intros Hinv Hpar Hpg Hr Hb Hfuel Hcnt Hne Hsmall Hgrant.
  pose proof (mm_malloc_spec s H fl mem_map fuel r Hinv Hpar Hpg Hr Hb Hfuel Hcnt)
    as Hspec.
  cbv zeta in Hspec. rewrite (first_fit_none H _ fl Hsmall) in Hspec.
  set (need := request_size r) in *. set (n := extend_request need s) in *.
  set (base := mem_map n) in *.
  destruct (Hpg n Hgrant) as (Hb0 & _ & Hap). fold base in Hb0, Hap.
  apply Z.eqb_neq in Hgrant. fold base in Hgrant. rewrite Hgrant in Hspec.
  destruct Hspec as (s1 & E1 & Hinv1 & Hc & Emm & Eps).
  set (k0 := mkCtx [] base [] [] H) in *.
  assert (hole k0 = base + PAGE_OVERHEAD) as Eh by (unfold hole; simpl; lia).
  destruct (free_after_alloc s1 k0 _ need _ Hinv1 eq_refl eq_refl)
    as (s2 & E2 & Emm2 & Eps2 & Hpost).
  pose proof Hinv as (Hrep & _ & _). pose proof Hinv1 as (Hrep1 & _ & _).
  assert (num_page_chunks s1 = num_page_chunks s + 1) as En1.
  { rewrite (rep_count _ _ _ Hrep1), (rep_count _ _ _ Hrep).
    rewrite (length_plug k0 [] _). unfold plug. simpl. lia. }
  assert ((1 <? num_page_chunks s1) && whole_chunk k0 = true) as Eu.
  { rewrite En1, (rep_count _ _ _ Hrep). destruct H; [done|]. simpl length.
    apply andb_true_intro. split; [apply Z.ltb_lt; lia|done]. }
  rewrite Eu in Hpost. destruct Hpost as [Hinv2 En2].
  assert (32 ≤ need) as Hneed.
  { destruct (request_size_spec r) as (_ & [? ?] & ?);
      unfold PAGE_OVERHEAD, PAGE_PAD, OVERHEAD in *; [lia| |].
    - destruct Hpar as [(e & He & Ee) _].
      assert (0 < pagesize s) by (rewrite Ee; apply Z.pow_pos_nonneg; lia). lia.
    - fold need in H0, H1, H2. zmod. }
  assert (unlink (hole k0) (base + PAGE_OVERHEAD :: fl) = fl) as Efl.
  { rewrite Eh. apply unlink_head. apply NoDup_cons. split.
    - apply (fresh_block_not_listed s H fl base n Hinv Hap).
      unfold PAGE_OVERHEAD, PAGE_PAD, OVERHEAD in *. lia.
    - by apply (inv_NoDup s H). }
  rewrite Efl in Hinv2. change (x_before k0 ++ x_after k0) with H in Hinv2.
  pose proof Hinv2 as (Hrep2 & _ & _).
  rewrite Eh in E2.
  exists (base + PAGE_OVERHEAD), s1, s2.
  split_and!; try done.
  - unfold PAGE_OVERHEAD, PAGE_PAD, OVERHEAD. lia.
  - by rewrite (rep_mapped _ _ _ Hrep2), (rep_mapped _ _ _ Hrep).
  - lia.
  - by rewrite (rep_head _ _ _ Hrep2), (rep_head _ _ _ Hrep).
  - by rewrite Emm2.
Qed.

Lemma grow_then_free_restores_witness :
  let H := [mkChunk 65536 [(32, false); (32, true); (4000, false)]] in
  let fl := [65568; 65632] in
  let mem_map := pager_at 1048576 (2 ^ 30) in
  heap_inv st_three H fl ∧ params_ok st_three ∧ pager_ok st_three mem_map ∧
  1 ≤ 5000 ∧ 5000 + 31 + PAGE_OVERHEAD + pagesize st_three ≤ 2 ^ 31 ∧
  (S (length fl) ≤ 5)%nat ∧ Z.of_nat (length H) + 1 < 2 ^ 31 ∧ H ≠ [] ∧
  (∀ b, b ∈ fl → size_at H b < request_size 5000) ∧
  mem_map (extend_request (request_size 5000) st_three) ≠ 0 ∧
  ∃ s2, (p ← mm_malloc 5 mem_map 5000; mm_free p) st_three = Ok (tt, s2) ∧
        heap_inv s2 H fl.
Proof.
  intros H fl mem_map.
  assert (5000 + 31 + PAGE_OVERHEAD + pagesize st_three ≤ 2 ^ 31) as H5
    by (vm_compute; discriminate).
  assert (S (length fl) ≤ 5)%nat as H6 by (simpl; lia).
  assert (Z.of_nat (length H) + 1 < 2 ^ 31) as H7 by (vm_compute; reflexivity).
  assert (H ≠ []) as H8 by discriminate.
  assert (∀ b, b ∈ fl → size_at H b < request_size 5000) as H9.
  { intros b Hb. subst fl.
    repeat (apply elem_of_cons in Hb as [->|Hb]; [vm_compute; reflexivity|]).
    by apply elem_of_nil in Hb. }
  assert (mem_map (extend_request (request_size 5000) st_three) ≠ 0) as H10
    by (vm_compute; discriminate).
  split_and!;
    [exact st_three_inv|exact st_three_params|exact st_three_pager
    |lia|exact H5|exact H6|exact H7|exact H8|exact H9|exact H10|].
  destruct (grow_then_free_restores st_three H fl mem_map 5 5000 st_three_inv
              st_three_params st_three_pager ltac:(lia) H5 H6 H7 H8 H9 H10)
    as (p & s1 & s2 & E1 & _ & _ & E2 & Hinv & _).
  exists s2. rewrite (bind_ok _ _ _ _ _ E1). split; [exact E2|exact Hinv].
Defined.

(** After [mm_init] on a state without mappings the heap is empty and
    well formed. *)
Lemma init_inv (s : state) (e : Z) :
  mapped s = [] → 4 ≤ e ≤ 25 →
  heap_inv (mm_init (2 ^ e) s) [] [] ∧ params_ok (mm_init (2 ^ e) s).
Proof.
  intros Em He. split; [split; [|done]|].
  - split; simpl; done.
  - split; [by exists e|]. by exists 0.
Qed.

(** X13: the first request after [mm_init], and its release.  The
    request maps one chunk of [max (page_align (need + PAGE_OVERHEAD))
    pagesize] bytes and is served at [base + PAGE_OVERHEAD].  Freeing it
    does not unmap the chunk, the only one: what remains is that chunk
    with one free block covering all of its interior, alone on the free
    list, and the chunk count is 1. *)
Theorem first_request_keeps_one_chunk (s : state) (e : Z) (mem_map : Z → Z)
    (fuel : nat) (r : Z) :
  mapped s = [] → 4 ≤ e ≤ 25 →
  let s0 := mm_init (2 ^ e) s in
  pager_ok s0 mem_map →
  1 ≤ r → r + 31 + PAGE_OVERHEAD + 2 ^ e ≤ 2 ^ 31 → (1 ≤ fuel)%nat →
  let n := Z.max (page_align (2 ^ e) (request_size r + PAGE_OVERHEAD)) (2 ^ e) in
  let base := mem_map n in
  base ≠ 0 →
  ∃ s1 s2,
    mm_malloc fuel mem_map r s0 = Ok (base + PAGE_OVERHEAD, s1) ∧
    num_page_chunks s1 = 1 ∧
    mm_free (base + PAGE_OVERHEAD) s1 = Ok (tt, s2) ∧
    heap_inv s2 [mkChunk base [(n - PAGE_OVERHEAD, false)]] [base + PAGE_OVERHEAD] ∧
    num_page_chunks s2 = 1 ∧ mapped s2 = [(base, n)] ∧ map_multiplier s2 = 2.
Proof.
  intros Em He s0 Hpg Hr Hb Hfuel n base Hgrant.
  destruct (init_inv s e Em He) as [Hinv Hpar]. fold s0 in Hinv, Hpar.
  assert (0 < 2 ^ e) as Hps by (apply Z.pow_pos_nonneg; lia).
  destruct (request_size_spec r) as (_ & [Hn1 Hn2] & Hn3);
    [lia|unfold PAGE_OVERHEAD, PAGE_PAD, OVERHEAD in Hb; lia|].
  assert (extend_request (request_size r) s0 = n) as En.
  { destruct (extend_request_spec s0 (request_size r) Hpar) as (-> & _);
      [unfold OVERHEAD in *; lia|simpl; unfold OVERHEAD in *; lia|].
    unfold n. simpl. by rewrite Z.mul_1_l. }
  pose proof (mm_malloc_spec s0 [] [] mem_map fuel r Hinv Hpar Hpg Hr Hb Hfuel)
    as Hspec.
  cbv zeta in Hspec. rewrite En in Hspec. fold base in Hspec.
  apply Z.eqb_neq in Hgrant. rewrite Hgrant in Hspec.
  destruct Hspec as (s1 & E1 & Hinv1 & Hc & Emm & Eps); [simpl; lia|].
  set (k0 := mkCtx [] base [] [] []) in *.
  assert (hole k0 = base + PAGE_OVERHEAD) as Eh by (unfold hole; simpl; lia).
  destruct (free_after_alloc s1 k0 _ _ _ Hinv1 eq_refl eq_refl)
    as (s2 & E2 & Emm2 & Eps2 & Hpost).
  pose proof Hinv1 as (Hrep1 & _ & _).
  assert (num_page_chunks s1 = 1) as En1.
  { by rewrite (rep_count _ _ _ Hrep1), (length_plug k0 [] _). }
  rewrite En1 in Hpost. simpl in Hpost. destruct Hpost as (Hinv2 & En2 & Em2).
  rewrite Eh in E2, Hinv2.
  rewrite unlink_head in Hinv2 by (apply NoDup_singleton).
  change (plug k0 [(n - PAGE_OVERHEAD, false)])
    with [mkChunk base [(n - PAGE_OVERHEAD, false)]] in Hinv2.
  pose proof Hinv2 as (Hrep2 & _ & _).
  exists s1, s2. split_and!; try done.
  - rewrite (rep_mapped _ _ _ Hrep2). simpl. unfold region. simpl.
    unfold PAGE_OVERHEAD, PAGE_PAD, OVERHEAD. repeat f_equal. lia.
  - by rewrite Emm2, Emm.
Qed.

Lemma init_pager : pager_ok (mm_init (2 ^ 12) empty_state) pager_by_size.
Proof.
  intros n Hn. unfold pager_by_size in *.
  destruct ((0 <? n) && (n <=? 2 ^ 40)) eqn:E; [|done].
  apply andb_prop in E as [Hpos%Z.ltb_lt _].
  change (pagesize (mm_init (2 ^ 12) empty_state)) with 4096.
  split; [|split; [|by apply Forall_nil]].
  - assert (0 ≤ n / 4096) by (apply Z.div_pos; lia). lia.
  - rewrite Z.mul_comm. change 65536 with (16 * 4096).
    rewrite Z.mul_assoc. apply Z.mod_mul. lia.
Qed.

Lemma first_request_keeps_one_chunk_witness :
  mapped empty_state = [] ∧ 4 ≤ 12 ≤ 25 ∧
  pager_ok (mm_init (2 ^ 12) empty_state) pager_by_size ∧
  1 ≤ 16 ∧ 16 + 31 + PAGE_OVERHEAD + 2 ^ 12 ≤ 2 ^ 31 ∧ (1 ≤ 5)%nat ∧
  pager_by_size (Z.max (page_align (2 ^ 12) (request_size 16 + PAGE_OVERHEAD)) (2 ^ 12)) ≠ 0 ∧
  ∃ s2, (p ← mm_malloc 5 pager_by_size 16; mm_free p) (mm_init (2 ^ 12) empty_state)
          = Ok (tt, s2) ∧
        heap_inv s2 [mkChunk 65536 [(4064, false)]] [65568].
Proof.
  assert (16 + 31 + PAGE_OVERHEAD + 2 ^ 12 ≤ 2 ^ 31) as H5 by (vm_compute; discriminate).
  assert (pager_by_size (Z.max (page_align (2 ^ 12) (request_size 16 + PAGE_OVERHEAD))
                               (2 ^ 12)) ≠ 0) as H7 by (vm_compute; discriminate).
  split_and!; [reflexivity|lia|lia|exact init_pager|lia|exact H5|lia|exact H7|].
  destruct (first_request_keeps_one_chunk empty_state 12 pager_by_size 5 16
              eq_refl ltac:(lia) init_pager ltac:(lia) H5 ltac:(lia) H7)
    as (s1 & s2 & E1 & _ & E2 & Hinv & _).
  exists s2. rewrite (bind_ok _ _ _ _ _ E1). split; [exact E2|exact Hinv].
Defined.

(** ** Moving between blocks *)

(** X14: on a well-formed heap the boundary tags take [NEXT_BLKP] and
    [PREV_BLKP] from a block to its neighbours and back: the block after
    the previous block and the block before the next block are the
    block itself, also next to the sentinel and the terminator; and the
    word [FTRP] points at holds the same tag as the header. *)
Theorem neighbour_round_trip (s : state) (k : ctx) (sz : Z) (al : bool) (fl : list Z) :
  heap_rep s (plug k [(sz, al)]) fl →
  NEXT_BLKP (hole k) s = Ok (hole k + sz, s) ∧
  PREV_BLKP (hole k) s = Ok (hole k - (left_nb k).1, s) ∧
  (n ← NEXT_BLKP (hole k); PREV_BLKP n) s = Ok (hole k, s) ∧
  (p ← PREV_BLKP (hole k); NEXT_BLKP p) s = Ok (hole k, s) ∧
  (f ← FTRP (hole k); GET f) s = GET (HDRP (hole k)) s.
Proof.
  intros Hrep.
  destruct (nb_facts _ _ _ _ _ Hrep) as
    ((TL2 & TL1 & TB1 & TB2 & TR1) & (AL2 & AL1 & AB1 & AB2 & AR1 & AR2 & AN & AP) &
     (? & ? & ? & ? & ? & ? & ? & ? & ?)).
  assert (NEXT_BLKP (hole k) s = Ok (hole k + sz, s)) as EN.
  { unfold NEXT_BLKP. rewrite bind_GET_SIZE by done.
    by rewrite TB1, size_of_tag by (try lia; done). }
  assert (PREV_BLKP (hole k) s = Ok (hole k - (left_nb k).1, s)) as EP.
  { unfold PREV_BLKP. rewrite bind_GET_SIZE by done.
    by rewrite TL2, size_of_tag by (try lia; done). }
  assert (PREV_BLKP (hole k + sz) s = Ok (hole k, s)) as EPN.
  { unfold PREV_BLKP. rewrite bind_GET_SIZE by done.
    rewrite TB2, size_of_tag by (try lia; done).
    replace (hole k + sz - sz) with (hole k) by lia. done. }
  assert (NEXT_BLKP (hole k - (left_nb k).1) s = Ok (hole k, s)) as ENP.
  { unfold NEXT_BLKP. rewrite bind_GET_SIZE by done.
    rewrite TL1, size_of_tag by (try lia; done).
    replace (hole k - (left_nb k).1 + (left_nb k).1) with (hole k) by lia. done. }
  split_and!; try done.
  - by rewrite (bind_ok _ _ _ _ _ EN).
  - by rewrite (bind_ok _ _ _ _ _ EP).
  - rewrite bind_FTRP by done. rewrite TB1, size_of_tag by (try lia; done).
    rewrite !GET_ok by done. by rewrite TB1, TB2.
Qed.

Lemma neighbour_round_trip_witness :
  let k := mkCtx [] 65536 [(32, false)] [(4000, false)] [] in
  heap_rep st_three (plug k [(32, true)]) [65568; 65632] ∧
  (n ← NEXT_BLKP 65600; PREV_BLKP n) st_three = Ok (65600, st_three).
Proof.
  intros k.
  assert (heap_rep st_three (plug k [(32, true)]) [65568; 65632]) as H1
    by apply st_three_inv.
  split; [exact H1|].
  apply (neighbour_round_trip st_three k 32 true _ H1).
Defined.

(** ** Printing a chunk *)

(** The two lines of a block whose tags are in memory, and the step to
    the next block. *)
Lemma print_block (s : state) (b : pblock) :
  tag_ok (mem s) b →
  accessible (mapped s) (HDRP (b_addr b)) = true →
  accessible (mapped s) (b_addr b + b_size b - OVERHEAD) = true →
  0 ≤ b_size b < 2 ^ 63 → b_size b mod 16 = 0 →
  let w := tag (b_size b) (b_alloc b) in
  print_header (b_addr b) s = Ok (Lheader w (b_size b) (Z.b2z (b_alloc b)), s) ∧
  print_footer (b_addr b) s = Ok (Lfooter w (b_size b) (Z.b2z (b_alloc b)), s) ∧
  NEXT_BLKP (b_addr b) s = Ok (b_addr b + b_size b, s).
Proof.
  intros [T1 T2] A1 A2 Hsz Hmod w.
  assert (b_size b mod 2 = 0) as Hm2 by (by apply mod16_mod2).
  split_and!.
  - unfold print_header. rewrite bind_GET, bind_GET_SIZE, bind_GET_ALLOC by done.
    by rewrite T1, size_of_tag, alloc_of_tag.
  - unfold print_footer.
    rewrite bind_FTRP by done. rewrite T1, size_of_tag by done.
    rewrite bind_GET by done.
    rewrite bind_FTRP by done. rewrite T1, size_of_tag by done.
    rewrite bind_GET_SIZE by done.
    rewrite bind_FTRP by done. rewrite T1, size_of_tag by done.
    rewrite bind_GET_ALLOC by done.
    by rewrite T2, size_of_tag, alloc_of_tag.
  - unfold NEXT_BLKP. rewrite bind_GET_SIZE by done.
    by rewrite T1, size_of_tag.
Qed.

(** The loop of [print_page] walks the blocks of [l], placed at [a],
    and stops at the word 9 that follows them. *)
Lemma print_blocks_spec (s : state) (l : list (Z * bool)) (a : Z) (fuel : nat) :
  (∀ b, b ∈ place a l →
        tag_ok (mem s) b ∧
        accessible (mapped s) (HDRP (b_addr b)) = true ∧
        accessible (mapped s) (b_addr b + b_size b - OVERHEAD) = true ∧
        32 ≤ b_size b < 2 ^ 31 ∧ b_size b mod 16 = 0) →
  rd (mem s) (HDRP (a + total l)) = 9 →
  accessible (mapped s) (HDRP (a + total l)) = true →
  l ≠ [] → (length l ≤ fuel)%nat →
  print_blocks fuel a s = Ok ((place a l ≫= block_lines, a + total l), s).
Proof.
  revert a fuel. induction l as [|x l IH]; intros a fuel Hb Ht At Hne Hf; [done|].
  destruct fuel as [|fuel]; [simpl in Hf; lia|].
  destruct (Hb (mkBlock a x.1 x.2) ltac:(by left)) as (Tb & A1 & A2 & Hsz & Hmod).
  assert (0 ≤ b_size (mkBlock a x.1 x.2) < 2 ^ 63) as Hsz' by (simpl in *; lia).
  destruct (print_block s (mkBlock a x.1 x.2) Tb A1 A2 Hsz' Hmod) as (Eh & Ef & En).
  simpl in Eh, Ef, En. cbn [print_blocks].
  rewrite (bind_ok _ _ _ _ _ Eh), (bind_ok _ _ _ _ _ Ef), (bind_ok _ _ _ _ _ En).
  destruct l as [|y l].
  - simpl in Ht, At. rewrite Z.add_0_r in Ht, At.
    rewrite bind_GET_SIZE by done. rewrite Ht. simpl.
    by rewrite Z.add_0_r.
  - destruct (Hb (mkBlock (a + x.1) y.1 y.2) ltac:(right; by left))
      as ([Ty _] & Ay & _ & Hy & Hmy).
    simpl in Ty, Ay, Hy, Hmy.
    rewrite bind_GET_SIZE by done. rewrite Ty, size_of_tag by (try lia; done).
    assert ((8 <? y.1) = true) as -> by (apply Z.ltb_lt; lia).
    assert (a + x.1 + total (y :: l) = a + total (x :: y :: l)) as Et
      by (simpl; lia).
    assert (print_blocks fuel (a + x.1) s =
            Ok ((place (a + x.1) (y :: l) ≫= block_lines,
                 a + x.1 + total (y :: l)), s)) as Erec.
    { apply IH.
      - intros b Hin. apply Hb. by right.
      - by rewrite Et.
      - by rewrite Et.
      - done.
      - simpl in *. lia. }
    rewrite (bind_ok _ _ _ _ _ Erec).
    simpl. rewrite mret_ok. repeat (f_equal; try lia).
Qed.

(** X15: [print_page] on a chunk of a well-formed heap walks the
    implicit list from the sentinel to the terminator: it prints the
    sentinel, then every interior block once, in address order, with its
    address, header and footer, then the terminator; every word it
    reads is mapped and the state is unchanged.  The size of the terminator is printed as 0,
    [GET_SIZE] masking the low bits of its header 9. *)
Theorem print_page_lists_blocks (s : state) (H : list chunk) (fl : list Z)
    (c : chunk) (fuel : nat) :
  heap_rep s H fl → c ∈ H → c_blocks c ≠ [] → (length (c_blocks c) ≤ fuel)%nat →
  print_page fuel (c_base c) s = Ok (page_lines c, s).
Proof.
  intros Hrep Hc Hne Hfuel.
  pose proof (rep_heap_wf _ _ _ Hrep) as Hwf.
  assert (∀ b, b ∈ chunk_blocks c → b ∈ all_blocks H) as Hall.
  { intros b Hb. apply list_elem_of_bind. by exists c. }
  (* the sentinel *)
  set (b0 := mkBlock (c_base c + 16) 16 true).
  assert (b0 ∈ all_blocks H) as Hb0 by (apply Hall, block_cases; by left).
  destruct (rep_tag_accessible _ _ _ _ Hrep Hb0) as [A1 A2].
  destruct (print_block s b0 (rep_tag _ _ _ _ Hrep Hb0) A1 A2) as (Eh & Ef & En);
    [simpl; lia|done|].
  (* the terminator *)
  set (bt := mkBlock (c_base c + 32 + total (c_blocks c)) 8 true).
  assert (bt ∈ all_blocks H) as Hbt by (apply Hall, block_cases; right; by right).
  destruct (rep_tag_accessible _ _ _ _ Hrep Hbt) as [At _].
  destruct (rep_tag _ _ _ _ Hrep Hbt) as [Tt _].
  simpl in At, Tt, Eh, Ef, En.
  (* the interior *)
  assert (print_blocks fuel (c_base c + 32) s =
          Ok ((place (c_base c + 32) (c_blocks c) ≫= block_lines,
               c_base c + 32 + total (c_blocks c)), s)) as Eb.
  { apply print_blocks_spec; try done.
    intros b Hb.
    assert (b ∈ interior c) as Hi by done.
    assert (b ∈ interior_blocks H) as Hin by (apply list_elem_of_bind; by exists c).
    destruct (interior_block_props _ _ Hwf Hin) as ([? ?] & ? & ? & ?).
    destruct (rep_tag_accessible _ _ _ _ Hrep (interior_in_all _ _ Hin)) as [? ?].
    split_and!; try done. by apply (rep_tag _ _ _ _ Hrep), interior_in_all. }
  assert (print_header (c_base c + 32 + total (c_blocks c)) s =
          Ok (Lheader 9 0 1, s)) as Et.
  { unfold print_header.
    rewrite bind_GET, bind_GET_SIZE, bind_GET_ALLOC by done. by rewrite Tt. }
  unfold print_page.
  replace (c_base c + OVERHEAD) with (c_base c + 16) by (unfold OVERHEAD; lia).
  rewrite (bind_ok _ _ _ _ _ Eh), (bind_ok _ _ _ _ _ Ef), (bind_ok _ _ _ _ _ En).
  replace (c_base c + 16 + 16) with (c_base c + 32) by lia.
  rewrite (bind_ok _ _ _ _ _ Eb). cbn [fst snd].
  rewrite (bind_ok _ _ _ _ _ Et). rewrite mret_ok.
  unfold page_lines, interior.
  replace (c_base c + PAGE_OVERHEAD) with (c_base c + 32)
    by (unfold PAGE_OVERHEAD, PAGE_PAD, OVERHEAD; lia).
  done.
Qed.

Lemma print_page_lists_blocks_witness :
  let c := mkChunk 65536 [(32, false); (32, true); (4000, false)] in
  heap_rep st_three [c] [65568; 65632] ∧ c ∈ [c] ∧ c_blocks c ≠ [] ∧
  (length (c_blocks c) ≤ 5)%nat ∧
  print_page 5 65536 st_three =
    Ok ([Lpage 65536; Lsentinel; Lheader 17 16 1; Lfooter 17 16 1; Lblocks;
         Lblock 65568; Lheader 32 32 0; Lfooter 32 32 0;
         Lblock 65600; Lheader 33 32 1; Lfooter 33 32 1;
         Lblock 65632; Lheader 4000 4000 0; Lfooter 4000 4000 0;
         Lterminator; Lheader 9 0 1], st_three).
Proof.
  intros c.
  assert (heap_rep st_three [c] [65568; 65632]) as H1 by apply st_three_inv.
  assert (c ∈ [c]) as H2 by (by left).
  assert (c_blocks c ≠ []) as H3 by discriminate.
  assert (length (c_blocks c) ≤ 5)%nat as H4 by (simpl; lia).
  split_and!; [exact H1|exact H2|exact H3|exact H4|].
  apply (print_page_lists_blocks st_three [c] _ c 5 H1 H2 H3 H4).
Defined.

(** ** The invariant over a run *)

Lemma live_alloc (k : ctx) (c need : Z) :
  live_addrs (plug k (alloc_blocks c need)) =
  addrs_of true (interior_before k) ++ hole k :: addrs_of true (interior_after k c).
Proof.
  rewrite live_addrs_plug. unfold alloc_blocks.
  destruct (MIN_BLOCK_SIZE <=? c - need).
  - cbn [place total foldr fst snd]. rewrite !addrs_of_cons.
    cbn [b_alloc b_addr Bool.eqb]. simpl app.
    by replace (need + (c - need + 0)) with c by lia.
  - cbn [place total foldr fst snd]. rewrite addrs_of_cons.
    cbn [b_alloc b_addr Bool.eqb]. simpl app. by rewrite Z.add_0_r.
Qed.

(** With enough fuel for the list, the result of the search does not
    depend on the fuel. *)
Lemma find_fuel (s : state) (H : list chunk) (fl : list Z) (need : Z)
    (fuel fuel' : nat) :
  heap_inv s H fl → (length fl ≤ fuel)%nat → (length fl ≤ fuel')%nat →
  find_free_block fuel need s = find_free_block fuel' need s.
Proof.
  intros Hinv Hf Hf'. unfold find_free_block. rewrite !bind_gets.
  pose proof Hinv as (Hrep & _ & _). rewrite (rep_head _ _ _ Hrep).
  rewrite (find_from_spec s H fl need fuel [] fl Hinv eq_refl Hf).
  by rewrite (find_from_spec s H fl need fuel' [] fl Hinv eq_refl Hf').
Qed.

Lemma mm_malloc_fuel (s : state) (H : list chunk) (fl : list Z) (mem_map : Z → Z)
    (fuel fuel' : nat) (r : Z) :
  heap_inv s H fl → params_ok s → pager_ok s mem_map →
  1 ≤ r → r + 31 + PAGE_OVERHEAD + pagesize s ≤ 2 ^ 31 →
  (S (length fl) ≤ fuel)%nat → (S (length fl) ≤ fuel')%nat →
  Z.of_nat (length H) + 1 < 2 ^ 31 →
  mm_malloc fuel mem_map r s = mm_malloc fuel' mem_map r s.
Proof.
  intros Hinv Hpar Hpg Hr Hb Hf Hf' Hcnt.
  assert (0 < pagesize s) as Hps.
  { destruct Hpar as [(e & He & ->) _]. apply Z.pow_pos_nonneg; lia. }
  pose proof Hb as Hb'. unfold PAGE_OVERHEAD, PAGE_PAD, OVERHEAD in Hb'.
  destruct (request_size_spec r) as (_ & [Hn1 Hn2] & Hn3); [lia|lia|].
  unfold OVERHEAD in Hn1.
  assert (MIN_BLOCK_SIZE ≤ request_size r) as Hmin.
  { unfold MIN_BLOCK_SIZE, OVERHEAD, ALIGNMENT. zmod. }
  unfold mm_malloc. rewrite (wrap64_small (request_size r)) by lia.
  set (need := request_size r) in *.
  unfold mbind, M_bind, bind at 1 3.
  rewrite (find_fuel s H fl need fuel fuel' Hinv) by lia.
  pose proof (find_spec s H fl need fuel' Hinv ltac:(lia) Hmin Hn3) as Hfind.
  destruct (first_fit H need fl) as [a|].
  - destruct Hfind as (k & c & s1 & _ & _ & _ & Hnz & -> & _).
    apply Z.eqb_neq in Hnz. by rewrite Hnz.
  - rewrite Hfind. simpl.
    pose proof (extend_spec s H fl mem_map need Hinv Hpar Hpg) as Hext.
    destruct (extend_request_spec s need Hpar) as (_ & [Hm1 Hm2] & Hm3); [lia|lia|].
    cbv zeta in Hext.
    unfold MIN_BLOCK_SIZE, PAGE_OVERHEAD, PAGE_PAD, OVERHEAD, ALIGNMENT in *.
    unfold mbind, M_bind, bind.
    destruct (mem_map (extend_request need s) =? 0) eqn:Eb.
    + by rewrite Hext by (try done; lia).
    + destruct Hext as (s1 & -> & Hinv1 & _); [lia|lia|lia|done|].
      destruct (mem_map (extend_request need s) + (8 + (8 + 8) + 8) =? 0); [done|].
      apply (find_fuel s1 _ _ need fuel fuel' Hinv1); simpl; lia.
Qed.

(** X16: the invariant is inductive.  [mm_init] on a state without
    mappings establishes it with no live pointer.  From a well-formed
    state [mm_malloc], for a request of [r] bytes in range and with
    enough fuel for the search, returns either null, leaving the live
    pointers as they are, or a pointer that was not live, which joins
    them; [mm_free] of a live pointer returns and takes exactly that
    pointer out.  The state is well formed after each call. *)
Theorem heap_ok_inductive (s : state) (live : list Z) :
  heap_ok s live →
  (∀ mem_map r,
     pager_ok s mem_map → 1 ≤ r → r + 31 + PAGE_OVERHEAD + pagesize s ≤ 2 ^ 31 →
     num_page_chunks s + 1 < 2 ^ 31 →
     ∃ fuel0 p s',
       (∀ fuel, (fuel0 ≤ fuel)%nat → mm_malloc fuel mem_map r s = Ok (p, s')) ∧
       if p =? 0 then heap_ok s' live
       else (p ∉ live) ∧ heap_ok s' (p :: live)) ∧
  (∀ p, p ∈ live →
     ∃ s' live', mm_free p s = Ok (tt, s') ∧ heap_ok s' live' ∧ live ≡ₚ p :: live') ∧
  (∀ s0 e, mapped s0 = [] → 4 ≤ e ≤ 25 → heap_ok (mm_init (2 ^ e) s0) []).
Proof.
  intros (H & fl & Hinv & Hpar & Hlive). split_and!.
  - intros mem_map r Hpg Hr Hb Hcnt.
    pose proof Hinv as (Hrep & _ & _).
    rewrite (rep_count _ _ _ Hrep) in Hcnt.
    pose proof (mm_malloc_spec s H fl mem_map (S (length fl)) r Hinv Hpar Hpg Hr Hb
                  ltac:(lia) Hcnt) as Hspec.
    cbv zeta in Hspec.
    assert (∀ p s', mm_malloc (S (length fl)) mem_map r s = Ok (p, s') →
              ∀ fuel, (S (length fl) ≤ fuel)%nat →
                      mm_malloc fuel mem_map r s = Ok (p, s')) as Hfuel.
    { intros p s' E fuel Hf. rewrite <- E.
      by apply (mm_malloc_fuel s H fl). }
    assert (NoDup (live_addrs H)) as _.
    { apply NoDup_addrs_of. by eapply rep_heap_wf. }
    destruct (first_fit H (request_size r) fl) as [a|].
    + destruct Hspec as (k & c & s1 & -> & <- & Hc & E & Hinv1 & Hg).
      exists (S (length fl)), (hole k), s1. split; [by apply Hfuel|].
      destruct (hole_block_facts _ _ _ _ _ Hrep) as (_ & _ & Hpos & _).
      destruct (hole k =? 0) eqn:Ez; [apply Z.eqb_eq in Ez; lia|].
      rewrite live_addrs_plug1 in Hlive. simpl in Hlive.
      pose proof Hinv1 as (Hrep1 & _ & _).
      pose proof (NoDup_addrs_of _ true (rep_heap_wf _ _ _ Hrep1)) as Hnd.
      fold (live_addrs (plug k (alloc_blocks c (request_size r)))) in Hnd.
      rewrite live_alloc in Hnd.
      split.
      * rewrite Hlive. apply NoDup_app in Hnd as (_ & Hd & [Hni _]%NoDup_cons).
        intros [Hin|Hin]%elem_of_app; [|done]. apply (Hd _ Hin). by left.
      * eexists _, _. split; [exact Hinv1|]. split.
        -- destruct Hg as (_ & _ & Emm & Eps & _).
           apply (params_ok_next s); auto.
        -- rewrite live_alloc, Hlive. by rewrite Permutation_middle.
    + set (n := extend_request (request_size r) s) in *.
      destruct (mem_map n =? 0) eqn:Eb.
      * eexists (S (length fl)), 0, _. split; [by apply Hfuel|]. simpl.
        exists H, fl. split; [by apply heap_inv_set_multiplier|].
        split; [|done]. apply (params_ok_next s); [done|done|by right].
      * destruct Hspec as (s1 & E & Hinv1 & Hc & Emm & Eps).
        destruct (Hpg n ltac:(by apply Z.eqb_neq)) as (Hpos & _ & _).
        exists (S (length fl)), (mem_map n + PAGE_OVERHEAD), s1.
        split; [by apply Hfuel|].
        destruct (mem_map n + PAGE_OVERHEAD =? 0) eqn:Ez;
          [apply Z.eqb_eq in Ez; unfold PAGE_OVERHEAD, PAGE_PAD, OVERHEAD in Ez; lia|].
        set (k0 := mkCtx [] (mem_map n) [] [] H) in *.
        assert (hole k0 = mem_map n + PAGE_OVERHEAD) as Eh
          by (unfold hole; simpl; lia).
        pose proof Hinv1 as (Hrep1 & _ & _).
        pose proof (NoDup_addrs_of _ true (rep_heap_wf _ _ _ Hrep1)) as Hnd.
        fold (live_addrs (plug k0 (alloc_blocks (n - PAGE_OVERHEAD) (request_size r))))
          in Hnd.
        rewrite live_alloc, Eh in Hnd. simpl in Hnd.
        change (addrs_of true (interior_blocks H)) with (live_addrs H) in Hnd.
        apply NoDup_cons in Hnd as [Hni _].
        split; [by rewrite Hlive|].
        eexists _, _. split; [exact Hinv1|]. split.
        -- apply (params_ok_next s); auto.
        -- rewrite live_alloc, Eh. simpl. by rewrite Hlive.
  - intros p Hp. rewrite Hlive in Hp.
    apply elem_of_addrs_of in Hp as (b & Hb & <- & Hal).
    destruct (block_ctx H b Hb) as (k & -> & <-). rewrite Hal in *.
    destruct (mm_free_live s k (b_size b) fl Hinv)
      as (s' & H' & fl' & LB & LA & E & Hinv' & EL & EL' & _ & Emm & Eps).
    exists s', (live_addrs H'). split; [exact E|]. split.
    + exists H', fl'. split; [exact Hinv'|]. split; [|done].
      apply (params_ok_next s); auto.
    + rewrite Hlive, EL, EL'. by rewrite Permutation_middle.
  - intros s0 e Em He. destruct (init_inv s0 e Em He) as [Hi Hp].
    by exists [], [].
Qed.

Lemma heap_ok_inductive_witness :
  heap_ok st_three [65600] ∧
  ∃ s' live', mm_free 65600 st_three = Ok (tt, s') ∧ heap_ok s' live'.
Proof.
  assert (heap_ok st_three [65600]) as H1.
  { eexists _, _. split; [exact st_three_inv|]. split; [exact st_three_params|].
    vm_compute. reflexivity. }
  split; [exact H1|].
  destruct (heap_ok_inductive st_three [65600] H1) as (_ & Hfree & _).
  destruct (Hfree 65600 ltac:(by left)) as (s' & live' & E & Hok & _).
  exists s', live'. split; [exact E|exact Hok].
Defined.

(** X17: the block just freed is the first to be reused.  When the left
    neighbour of the freed block is allocated and its chunk is not
    unmapped, the free block that results starts at the same payload
    address and is the head of the free list, so the next request whose
    block size is at most the size freed gets the same pointer back,
    and nothing is mapped. *)
Theorem free_then_malloc_same_pointer (s : state) (k : ctx) (sz : Z) (fl : list Z)
    (mem_map : Z → Z) (fuel : nat) (r : Z) :
  heap_inv s (plug k [(sz, true)]) fl →
  (left_nb k).2 = true → unmaps k = false →
  1 ≤ r → r + 31 < 2 ^ 31 → request_size r ≤ sz →
  (S (length fl) ≤ fuel)%nat →
  ∃ s1 s2, mm_free (hole k) s = Ok (tt, s1) ∧
           free_list s1 = hole k ∧
           mm_malloc fuel mem_map r s1 = Ok (hole k, s2) ∧
           mapped s2 = mapped s ∧ num_page_chunks s2 = num_page_chunks s.
Proof.
  intros Hinv HL Hun Hr Hb Hfit Hfuel.
  destruct (mm_free_spec s k sz fl Hinv) as (s1 & E1 & Hinv1 & _ & _ & Hpost).
  unfold free_heap, free_list_after in Hinv1. rewrite Hun in Hinv1, Hpost.
  destruct Hpost as [Em En].
  assert (lfree k = false) as El by (unfold lfree; by rewrite HL).
  unfold coalesce_list in Hinv1. rewrite El in Hinv1.
  set (fl1 := if rfree k then unlink (hole k + sz) fl else fl) in *.
  assert (length fl1 ≤ length fl)%nat as Hlen.
  { unfold fl1. destruct (rfree k); [apply length_filter|done]. }
  assert (hole (coalesce_ctx k) = hole k) as Eh.
  { unfold hole, coalesce_ctx. by rewrite El. }
  pose proof Hinv as (Hrep & _ & _).
  destruct (nb_facts _ _ _ _ _ Hrep) as (_ & _ & (? & ? & ? & ? & ? & ? & ? & ? & ?)).
  assert (sz ≤ coalesce_size k sz) as Hcs.
  { unfold coalesce_size. rewrite El. destruct (rfree k); lia. }
  pose proof Hinv1 as (Hrep1 & _ & _).
  assert (size_at (plug (coalesce_ctx k) [(coalesce_size k sz, false)]) (hole k) =
          coalesce_size k sz) as Esz.
  { rewrite <- Eh.
    apply (size_at_block _ (mkBlock (hole (coalesce_ctx k)) (coalesce_size k sz) false)
             (rep_heap_wf _ _ _ Hrep1)).
    rewrite interior_blocks_plug. simpl. solve_elem. }
  destruct (mm_malloc_fit s1 _ (hole k :: fl1) mem_map fuel r (hole k) Hinv1)
    as (k' & c & s2 & _ & _ & _ & E2 & _ & Hg); try done.
  { simpl. lia. }
  { apply (first_fit_here _ _ [] (hole k) fl1); [by intros b ?%elem_of_nil|].
    rewrite Esz. lia. }
  exists s1, s2. destruct Hg as (Em2 & En2 & _).
  split_and!; try done.
  - by rewrite (rep_head _ _ _ Hrep1).
  - by rewrite Em2.
  - by rewrite En2.
Qed.

Lemma free_then_malloc_same_pointer_witness :
  let s := exec (mm_malloc 5 pager_by_size 100) st_three in
  let k1 := mkCtx [] 65536 [(32, false); (32, true)] [(3872, false)] [] in
  let fl : list Z := [65760; 65568] in
  heap_inv s (plug k1 [(128, true)]) fl ∧
  (left_nb k1).2 = true ∧ unmaps k1 = false ∧
  1 ≤ 100 ∧ 100 + 31 < 2 ^ 31 ∧ request_size 100 ≤ 128 ∧
  (S (length fl) ≤ 5)%nat ∧
  ∃ s1 s2, mm_free 65632 s = Ok (tt, s1) ∧
           mm_malloc 5 pager_by_size 100 s1 = Ok (65632, s2).
Proof.
  intros s k1 fl.
  assert (heap_inv s (plug k1 [(128, true)]) fl) as H1.
  { subst s. eval_state (exec (mm_malloc 5 pager_by_size 100) st_three).
    concrete_inv. }
  assert (request_size 100 ≤ 128) as H6 by (vm_compute; discriminate).
  assert (S (length fl) ≤ 5)%nat as H7 by (simpl; lia).
  split_and!; [exact H1|reflexivity|reflexivity|lia|lia|exact H6|exact H7|].
  destruct (free_then_malloc_same_pointer s k1 128 fl pager_by_size 5 100 H1
              eq_refl eq_refl ltac:(lia) ltac:(lia) H6 H7)
    as (s1 & s2 & E1 & _ & E2 & _).
  exists s1, s2. split; [exact E1|exact E2].
Defined.


